(** * The Blitz installer: step execution engine

  A shallow embedding of [packages/installer/src/installer.ts] and the
  properties of [Installer.run] : lifecycle-hook sequencing, executor
  dispatch and the error / confirmation control flow.

  [run] is an [async] method whose only observable behaviour is the
  sequence of things it prints and of external asynchronous calls it
  awaits.  The embedding is a small state / exception / output monad:

  - the state holds the [Installer] instance ([this]) and the [World]
    the collaborators act on (file system, package manager, terminal);
    a second embedding, at the end, puts the array of steps and the
    options object, which the caller shares with the instance, in a
    store the collaborators act on as well;
  - a computation completes normally, by a thrown value, or never (an
    awaited promise that never settles);
  - the output is the list of [Event]s of the call, in program order. *)

From Stdlib Require Import String List Bool.
From Stdlib Require Import Lia.
Import ListNotations.

Set Implicit Arguments.

Section Installer.

(** ** What the file imports or leaves open

    [World] is everything outside the installer the collaborators read
    and write.  [Err] is the type of thrown values, [CliArgs] the bag of
    parsed arguments (type [{}]), [StepId] is [string | number].
    [Executor] is the union
    [FileTransformExecutor | AddDependencyExecutor | NewFileExecutor] of
    the three imported step types; all of them carry a [stepId]. *)

Variables World Err CliArgs StepId Executor : Type.
Variable stepId : Executor -> StepId.

(** How an awaited promise ends. *)
Inductive Outcome : Type :=
| Fulfilled
| Rejected (err : Err)
| NeverSettles.

(** An external asynchronous function of type [Promise<void>] : run in
    a world, it ends in some way and leaves a world behind. *)
Definition Async : Type := World -> Outcome * World.

(** The imported type predicates and executors, and the prompt. *)
Variables isFileTransformExecutor isAddDependencyExecutor
          isNewFileExecutor : Executor -> bool.
Variables fileTransformExecutor addDependencyExecutor
          newFileExecutor : Executor -> CliArgs -> Async.
Variable waitForConfirmation : string -> Async.

(** ** Data model *)

(** [interface InstallerOptions] : an optional method is an [option]. *)
Record InstallerOptions : Type := {
  packageName : string;
  packageDescription : string;
  packageOwner : string;
  packageRepoLink : string;
  validateArgs : option (CliArgs -> Async);
  preInstall : option Async;
  beforeEach : option (StepId -> Async);
  afterEach : option (StepId -> Async);
  postInstall : option Async
}.

(** [class Installer] : its two private readonly fields. *)
Record Installer : Type := {
  steps : list Executor;
  options : InstallerOptions
}.

(** [constructor(options, steps)] *)
Definition constructor (opts : InstallerOptions) (sts : list Executor)
  : Installer :=
  {| options := opts; steps := sts |}.

(** ** Observations *)

(** The five lifecycle points, with the arguments they are given. *)
Inductive Lifecycle : Type :=
| ValidateArgs (args : CliArgs)
| PreInstall
| BeforeEach (id : StepId)
| AfterEach (id : StepId)
| PostInstall.

(** The external asynchronous calls [run] can make : the prompt, a hook
    of the options, an executor. *)
Inductive Call : Type :=
| WaitForConfirmation (prompt : string)
| Hook (l : Lifecycle)
| FileTransformExecutor (step : Executor) (args : CliArgs)
| AddDependencyExecutor (step : Executor) (args : CliArgs)
| NewFileExecutor (step : Executor) (args : CliArgs).

(** One entry per output operation, per call of a private lifecycle
    method of the class ([Invoked]) and per awaited external call; an
    awaited call is recorded with the way it ended. *)
Inductive Event : Type :=
| LogBranded (msg : string)
| LogInfo (msg : string)
| LogError (err : Err)
| LogSuccess (msg : string)
| ConsoleLog
| LogExecutorFrontmatter (step : Executor)
| Invoked (l : Lifecycle)
| Awaited (c : Call) (o : Outcome).

(** ** The monad *)

Record Heap : Type := {
  this : Installer;
  world : World
}.

Inductive Completion (A : Type) : Type :=
| Normal (a : A)
| Throw (err : Err)
| Pending.
Arguments Throw {A} err.
Arguments Pending {A}.

Definition M (A : Type) : Type := Heap -> Completion A * Heap * list Event.

Definition ret {A} (a : A) : M A := fun h => (Normal a, h, []).

Definition bind {A B} (m : M A) (k : A -> M B) : M B := fun h =>
  match m h with
  | (Normal a, h1, t1) =>
      match k a h1 with (r, h2, t2) => (r, h2, t1 ++ t2) end
  | (Throw err, h1, t1) => (Throw err, h1, t1)
  | (Pending, h1, t1) => (Pending, h1, t1)
  end.

(** [try { m } catch (err) { handler err }] *)
Definition try_catch {A} (m : M A) (handler : Err -> M A) : M A := fun h =>
  match m h with
  | (Throw err, h1, t1) =>
      match handler err h1 with (r, h2, t2) => (r, h2, t1 ++ t2) end
  | other => other
  end.

(** Reading a field of [this]. *)
Definition get_this : M Installer := fun h => (Normal (this h), h, []).

(** An output operation. *)
Definition emit (ev : Event) : M unit := fun h => (Normal tt, h, [ev]).

Definition completion_of (o : Outcome) : Completion unit :=
  match o with
  | Fulfilled => Normal tt
  | Rejected err => Throw err
  | NeverSettles => Pending
  end.

(** [await f(...)] for an external [f] : the call is made in the
    current world.  The collaborators are taken not to write to the
    array of steps or to the options object (the configuration of an
    installer is read-only, specification section 3), so [this] is left
    as it is.  The section [Shared] below does without this assumption,
    and [embeddings_agree] relates the two. *)
Definition await (c : Call) (f : Async) : M unit := fun h =>
  match f (world h) with
  | (o, w) => (completion_of o, {| this := this h; world := w |},
               [Awaited c o])
  end.

Notation "x <- m ;; k" := (bind m (fun x => k))
  (at level 61, m at next level, right associativity).
Notation "m ;; k" := (bind m (fun _ => k))
  (at level 61, right associativity).

(** [for (const x of xs) { body x }] : the array is read when the loop
    is entered; nothing in the class writes to it while it is iterated
    and, as said of [await], the collaborators are taken not to, so this
    is what the array iterator yields ([shared_for_of] below reads the
    array one index at a time). *)
Fixpoint for_of {A} (xs : list A) (body : A -> M unit) : M unit :=
  match xs with
  | [] => ret tt
  | x :: rest => body x ;; for_of rest body
  end.

(** The logging facility and [console.log()] : pure output, they
    neither fail nor touch the world. *)
Definition log_branded (msg : string) : M unit := emit (LogBranded msg).
Definition log_info (msg : string) : M unit := emit (LogInfo msg).
Definition log_error (err : Err) : M unit := emit (LogError err).
Definition log_success (msg : string) : M unit := emit (LogSuccess msg).
Definition console_log : M unit := emit ConsoleLog.
Definition logExecutorFrontmatter (step : Executor) : M unit :=
  emit (LogExecutorFrontmatter step).

(** ** The private lifecycle methods (lines 72-86)

    Each one leaves a mark in the trace when it is entered, so that the
    calls of the method and the calls of the hook it guards can both be
    counted. *)

Definition entered (l : Lifecycle) : M unit := emit (Invoked l).

Definition this_validateArgs (cliArgs : CliArgs) : M unit :=
  entered (ValidateArgs cliArgs) ;;
  self <- get_this ;;
  match validateArgs (options self) with
  | Some hook => await (Hook (ValidateArgs cliArgs)) (hook cliArgs)
  | None => ret tt
  end.

Definition this_preInstall : M unit :=
  entered PreInstall ;;
  self <- get_this ;;
  match preInstall (options self) with
  | Some hook => await (Hook PreInstall) hook
  | None => ret tt
  end.

Definition this_beforeEach (id : StepId) : M unit :=
  entered (BeforeEach id) ;;
  self <- get_this ;;
  match beforeEach (options self) with
  | Some hook => await (Hook (BeforeEach id)) (hook id)
  | None => ret tt
  end.

Definition this_afterEach (id : StepId) : M unit :=
  entered (AfterEach id) ;;
  self <- get_this ;;
  match afterEach (options self) with
  | Some hook => await (Hook (AfterEach id)) (hook id)
  | None => ret tt
  end.

Definition this_postInstall : M unit :=
  entered PostInstall ;;
  self <- get_this ;;
  match postInstall (options self) with
  | Some hook => await (Hook PostInstall) hook
  | None => ret tt
  end.

(** ** [displayFrontmatter] (lines 88-95) *)

Definition confirmation_prompt : string :=
  "Press enter to begin installation".

Definition displayFrontmatter : M unit :=
  self <- get_this ;;
  log_branded ("Welcome to the installer for "
               ++ packageName (options self))%string ;;
  log_branded (packageDescription (options self)) ;;
  log_info ("This package is authored and supported by "
            ++ packageOwner (options self))%string ;;
  log_info ("For additional documentation and support please visit "
            ++ packageRepoLink (options self))%string ;;
  console_log ;;
  await (WaitForConfirmation confirmation_prompt)
        (waitForConfirmation confirmation_prompt).

(** ** [run] (lines 97-128)

    The [return] inside the [catch] leaves [run] : the [try] statement
    yields a flag saying whether control goes on to line 105. *)

Definition run (cliArgs : CliArgs) : M unit :=
  displayFrontmatter ;;
  proceed <- try_catch (this_validateArgs cliArgs ;; ret true)
                       (fun err => log_error err ;; ret false) ;;
  if (proceed : bool) then
    this_preInstall ;;
    self <- get_this ;;
    for_of (steps self) (fun step =>
      console_log ;;
      this_beforeEach (stepId step) ;;
      logExecutorFrontmatter step ;;
      (if isFileTransformExecutor step then
         await (FileTransformExecutor step cliArgs)
               (fileTransformExecutor step cliArgs)
       else if isAddDependencyExecutor step then
         await (AddDependencyExecutor step cliArgs)
               (addDependencyExecutor step cliArgs)
       else if isNewFileExecutor step then
         await (NewFileExecutor step cliArgs)
               (newFileExecutor step cliArgs)
       else ret tt) ;;
      this_afterEach (stepId step)) ;;
    this_postInstall ;;
    console_log ;;
    self <- get_this ;;
    log_success ("Installer complete, " ++ packageName (options self)
                 ++ " is now be configured for your app!")%string
  else ret tt.

(** ** Reading the result of a call *)

Definition completion {A} (x : Completion A * Heap * list Event)
  : Completion A := fst (fst x).
Definition final_heap {A} (x : Completion A * Heap * list Event)
  : Heap := snd (fst x).
Definition trace {A} (x : Completion A * Heap * list Event)
  : list Event := snd x.

(** The external calls made, in order. *)
Definition call_of (ev : Event) : list Call :=
  match ev with
  | Awaited c _ => [c]
  | _ => []
  end.
Definition calls (t : list Event) : list Call := flat_map call_of t.

(** The errors passed to [log.error], in order. *)
Definition error_of (ev : Event) : list Err :=
  match ev with
  | LogError err => [err]
  | _ => []
  end.
Definition errors_logged (t : list Event) : list Err := flat_map error_of t.

(** The success messages printed. *)
Definition success_of (ev : Event) : list string :=
  match ev with
  | LogSuccess msg => [msg]
  | _ => []
  end.
Definition successes (t : list Event) : list string := flat_map success_of t.

(** The private lifecycle methods entered, in order. *)
Definition invocation_of (ev : Event) : list Lifecycle :=
  match ev with
  | Invoked l => [l]
  | _ => []
  end.
Definition invocations (t : list Event) : list Lifecycle :=
  flat_map invocation_of t.

Definition at_beforeEach (l : Lifecycle) : bool :=
  match l with BeforeEach _ => true | _ => false end.
Definition at_afterEach (l : Lifecycle) : bool :=
  match l with AfterEach _ => true | _ => false end.
Definition per_step (l : Lifecycle) : bool :=
  at_beforeEach l || at_afterEach l.

(** The per-step lifecycle points of a list of steps, in order. *)
Definition step_points (sts : list Executor) : list Lifecycle :=
  flat_map (fun step => [BeforeEach (stepId step); AfterEach (stepId step)])
           sts.

Definition is_beforeEach (c : Call) : bool :=
  match c with Hook (BeforeEach _) => true | _ => false end.
Definition is_afterEach (c : Call) : bool :=
  match c with Hook (AfterEach _) => true | _ => false end.
Definition is_each (c : Call) : bool := is_beforeEach c || is_afterEach c.
Definition is_executor (c : Call) : bool :=
  match c with
  | FileTransformExecutor _ _ | AddDependencyExecutor _ _
  | NewFileExecutor _ _ => true
  | _ => false
  end.
Definition is_validateArgs (c : Call) : bool :=
  match c with Hook (ValidateArgs _) => true | _ => false end.

(** Every awaited call of the trace was fulfilled. *)
Definition no_failure (t : list Event) : Prop :=
  forall c o, In (Awaited c o) t -> o = Fulfilled.

(** The call returned and nothing failed on the way. *)
Definition completes (x : Completion unit * Heap * list Event) : Prop :=
  completion x = Normal tt /\ no_failure (trace x).

(** ** Named fragments of [run] *)

(** Lines 114-120 : the dispatch on the step's type. *)
Definition dispatch (cliArgs : CliArgs) (step : Executor) : M unit :=
  if isFileTransformExecutor step then
    await (FileTransformExecutor step cliArgs)
          (fileTransformExecutor step cliArgs)
  else if isAddDependencyExecutor step then
    await (AddDependencyExecutor step cliArgs)
          (addDependencyExecutor step cliArgs)
  else if isNewFileExecutor step then
    await (NewFileExecutor step cliArgs)
          (newFileExecutor step cliArgs)
  else ret tt.

(** Lines 107-122 : the body of the loop. *)
Definition iteration (cliArgs : CliArgs) (step : Executor) : M unit :=
  console_log ;;
  this_beforeEach (stepId step) ;;
  logExecutorFrontmatter step ;;
  dispatch cliArgs step ;;
  this_afterEach (stepId step).

Definition success_message (opts : InstallerOptions) : string :=
  ("Installer complete, " ++ packageName opts
   ++ " is now be configured for your app!")%string.

(** Lines 105-127 : what follows a successful validation. *)
Definition install (cliArgs : CliArgs) : M unit :=
  this_preInstall ;;
  self <- get_this ;;
  for_of (steps self) (iteration cliArgs) ;;
  this_postInstall ;;
  console_log ;;
  self <- get_this ;;
  log_success (success_message (options self)).

(** Lines 99-104 : [true] when control goes on after the [try]. *)
Definition validation (cliArgs : CliArgs) : M bool :=
  try_catch (this_validateArgs cliArgs ;; ret true)
            (fun err => log_error err ;; ret false).

(** ** The events of a run in which every awaited call is fulfilled *)

(** The events of a lifecycle method : its mark, and the call of the
    hook when there is one. *)
Definition hook_events {A} (hook : option A) (l : Lifecycle) : list Event :=
  Invoked l ::
  match hook with
  | Some _ => [Awaited (Hook l) Fulfilled]
  | None => []
  end.

(** The executor kinds in the order the predicates are tested. *)
Inductive ExecutorKind : Type := FileTransform | AddDependency | NewFile.

Definition dispatch_order : list ExecutorKind :=
  [FileTransform; AddDependency; NewFile].

Definition matches (k : ExecutorKind) (step : Executor) : bool :=
  match k with
  | FileTransform => isFileTransformExecutor step
  | AddDependency => isAddDependencyExecutor step
  | NewFile => isNewFileExecutor step
  end.

Definition executor_of (k : ExecutorKind) : Executor -> CliArgs -> Async :=
  match k with
  | FileTransform => fileTransformExecutor
  | AddDependency => addDependencyExecutor
  | NewFile => newFileExecutor
  end.

Definition executor_call (k : ExecutorKind) : Executor -> CliArgs -> Call :=
  match k with
  | FileTransform => FileTransformExecutor
  | AddDependency => AddDependencyExecutor
  | NewFile => NewFileExecutor
  end.

(** The first kind, in dispatch order, whose predicate holds. *)
Definition first_match (step : Executor) : option ExecutorKind :=
  find (fun k => matches k step) dispatch_order.

Definition dispatch_calls (cliArgs : CliArgs) (step : Executor) : list Call :=
  match first_match step with
  | Some k => [executor_call k step cliArgs]
  | None => []
  end.

Definition dispatch_events (cliArgs : CliArgs) (step : Executor)
  : list Event :=
  map (fun c => Awaited c Fulfilled) (dispatch_calls cliArgs step).

Definition step_events (opts : InstallerOptions) (cliArgs : CliArgs)
  (step : Executor) : list Event :=
  [ConsoleLog]
  ++ hook_events (beforeEach opts) (BeforeEach (stepId step))
  ++ [LogExecutorFrontmatter step]
  ++ dispatch_events cliArgs step
  ++ hook_events (afterEach opts) (AfterEach (stepId step)).

Definition frontmatter_logs (opts : InstallerOptions) : list Event :=
  [ LogBranded ("Welcome to the installer for " ++ packageName opts)%string;
    LogBranded (packageDescription opts);
    LogInfo ("This package is authored and supported by "
             ++ packageOwner opts)%string;
    LogInfo ("For additional documentation and support please visit "
             ++ packageRepoLink opts)%string;
    ConsoleLog ].

Definition confirmation (o : Outcome) : Event :=
  Awaited (WaitForConfirmation confirmation_prompt) o.

Definition frontmatter_events (opts : InstallerOptions) : list Event :=
  frontmatter_logs opts ++ [confirmation Fulfilled].

Definition success_events (opts : InstallerOptions) : list Event :=
  [ConsoleLog; LogSuccess (success_message opts)].

Definition install_events (self : Installer) (cliArgs : CliArgs)
  : list Event :=
  hook_events (preInstall (options self)) PreInstall
  ++ flat_map (step_events (options self) cliArgs) (steps self)
  ++ hook_events (postInstall (options self)) PostInstall
  ++ success_events (options self).

Definition run_events (self : Installer) (cliArgs : CliArgs) : list Event :=
  frontmatter_events (options self)
  ++ hook_events (validateArgs (options self)) (ValidateArgs cliArgs)
  ++ install_events self cliArgs.

(** [stops full r t] : a computation whose events are [full] when every
    awaited call is fulfilled ended with [r] after the events [t] : it
    went through all of [full], or stopped at the first awaited call of
    [full] that was not fulfilled. *)
Inductive stops (full : list Event)
  : Completion unit -> list Event -> Prop :=
| stops_end : stops full (Normal tt) full
| stops_at (before after : list Event) (c : Call) (o : Outcome) :
    o <> Fulfilled ->
    full = before ++ Awaited c Fulfilled :: after ->
    stops full (completion_of o) (before ++ [Awaited c o]).

(** Run from [h], [m] leaves [this] as it is and goes through [full]. *)
Definition follows (h : Heap) (full : list Event) (m : M unit) : Prop :=
  this (final_heap (m h)) = this h
  /\ stops full (completion (m h)) (trace (m h)).

(** The events up to the call of the validation hook. *)
Definition before_validation (opts : InstallerOptions) (cliArgs : CliArgs)
  : list Event :=
  frontmatter_events opts ++ [Invoked (ValidateArgs cliArgs)].

(** What a call of [run] can look like. *)
Inductive RunShape (self : Installer) (cliArgs : CliArgs)
  : Completion unit -> list Event -> Prop :=
| Run_unconfirmed (o : Outcome) :
    o <> Fulfilled ->
    RunShape self cliArgs (completion_of o)
             (frontmatter_logs (options self) ++ [confirmation o])
| Run_invalid (hook : CliArgs -> Async) (err : Err) :
    validateArgs (options self) = Some hook ->
    RunShape self cliArgs (Normal tt)
             (before_validation (options self) cliArgs
              ++ [Awaited (Hook (ValidateArgs cliArgs)) (Rejected err);
                  LogError err])
| Run_unvalidated (hook : CliArgs -> Async) :
    validateArgs (options self) = Some hook ->
    RunShape self cliArgs Pending
             (before_validation (options self) cliArgs
              ++ [Awaited (Hook (ValidateArgs cliArgs)) NeverSettles])
| Run_installing (r : Completion unit) (t : list Event) :
    stops (install_events self cliArgs) r t ->
    RunShape self cliArgs r
             (frontmatter_events (options self)
              ++ hook_events (validateArgs (options self))
                             (ValidateArgs cliArgs)
              ++ t).

(** The calls of a run in which every awaited call is fulfilled. *)
Definition hook_calls {A} (hook : option A) (l : Lifecycle) : list Call :=
  match hook with
  | Some _ => [Hook l]
  | None => []
  end.

Definition step_calls (opts : InstallerOptions) (cliArgs : CliArgs)
  (step : Executor) : list Call :=
  hook_calls (beforeEach opts) (BeforeEach (stepId step))
  ++ dispatch_calls cliArgs step
  ++ hook_calls (afterEach opts) (AfterEach (stepId step)).

Definition install_calls (self : Installer) (cliArgs : CliArgs)
  : list Call :=
  hook_calls (preInstall (options self)) PreInstall
  ++ flat_map (step_calls (options self) cliArgs) (steps self)
  ++ hook_calls (postInstall (options self)) PostInstall.

Definition run_calls (self : Installer) (cliArgs : CliArgs) : list Call :=
  WaitForConfirmation confirmation_prompt
  :: hook_calls (validateArgs (options self)) (ValidateArgs cliArgs)
  ++ install_calls self cliArgs.

(** An event that is no awaited call that failed to be fulfilled. *)
Definition settled_ok (ev : Event) : bool :=
  match ev with
  | Awaited _ Fulfilled => true
  | Awaited _ _ => false
  | _ => true
  end.

(** How a call of [run] relates to [run_events] : it goes through all of
    them, or it stops at the first awaited call that is not fulfilled; a
    rejection by [validateArgs] is logged, and [run] returns. *)
Inductive RunStops (self : Installer) (cliArgs : CliArgs)
  : Completion unit -> list Event -> Prop :=
| Run_complete :
    RunStops self cliArgs (Normal tt) (run_events self cliArgs)
| Run_stuck (before after : list Event) (c : Call) (o : Outcome) :
    o <> Fulfilled ->
    is_validateArgs c = false \/ o = NeverSettles ->
    run_events self cliArgs = before ++ Awaited c Fulfilled :: after ->
    RunStops self cliArgs (completion_of o) (before ++ [Awaited c o])
| Run_rejected (hook : CliArgs -> Async) (err : Err) (after : list Event) :
    validateArgs (options self) = Some hook ->
    run_events self cliArgs =
      before_validation (options self) cliArgs
      ++ Awaited (Hook (ValidateArgs cliArgs)) Fulfilled :: after ->
    RunStops self cliArgs (Normal tt)
             (before_validation (options self) cliArgs
              ++ [Awaited (Hook (ValidateArgs cliArgs)) (Rejected err);
                  LogError err]).

(** How the [try] statement of lines 99-104 ends, for each outcome of
    the hook. *)
Definition validation_result (o : Outcome) : Completion bool :=
  match o with
  | Fulfilled => Normal true
  | Rejected _ => Normal false
  | NeverSettles => Pending
  end.

Definition validation_events (cliArgs : CliArgs) (o : Outcome)
  : list Event :=
  Invoked (ValidateArgs cliArgs) ::
  Awaited (Hook (ValidateArgs cliArgs)) o ::
  match o with
  | Rejected err => [LogError err]
  | _ => []
  end.

(** What comes before the loop, and what comes after it. *)
Definition prologue_events (self : Installer) (cliArgs : CliArgs)
  : list Event :=
  frontmatter_events (options self)
  ++ hook_events (validateArgs (options self)) (ValidateArgs cliArgs)
  ++ hook_events (preInstall (options self)) PreInstall.

Definition epilogue_events (self : Installer) : list Event :=
  hook_events (postInstall (options self)) PostInstall
  ++ success_events (options self).

(** A report : an error or the final success message. *)
Definition is_report (ev : Event) : bool :=
  match ev with
  | LogError _ | LogSuccess _ => true
  | _ => false
  end.

(** ** The collaborators behind the calls *)

(** The hook of the options a lifecycle point stands for, applied to
    the point's arguments; [None] when the hook is absent. *)
Definition hook_of (opts : InstallerOptions) (l : Lifecycle)
  : option Async :=
  match l with
  | ValidateArgs args => option_map (fun f => f args) (validateArgs opts)
  | PreInstall => preInstall opts
  | BeforeEach id => option_map (fun f => f id) (beforeEach opts)
  | AfterEach id => option_map (fun f => f id) (afterEach opts)
  | PostInstall => postInstall opts
  end.

(** The external function a call is a call of. *)
Definition collaborator (opts : InstallerOptions) (c : Call)
  : option Async :=
  match c with
  | WaitForConfirmation prompt => Some (waitForConfirmation prompt)
  | Hook l => hook_of opts l
  | FileTransformExecutor step args =>
      Some (fileTransformExecutor step args)
  | AddDependencyExecutor step args =>
      Some (addDependencyExecutor step args)
  | NewFileExecutor step args => Some (newFileExecutor step args)
  end.

(** [replays opts t w w'] : starting in the world [w], making the awaited
    calls of [t] one after the other, each in the world its predecessor
    left, gives the outcomes [t] records and ends in the world [w']. *)
Fixpoint replays (opts : InstallerOptions) (t : list Event)
  (w w' : World) : Prop :=
  match t with
  | [] => w' = w
  | Awaited c o :: rest =>
      exists f, collaborator opts c = Some f
                /\ fst (f w) = o
                /\ replays opts rest (snd (f w)) w'
  | _ :: rest => replays opts rest w w'
  end.

(** Run from [h], [m] leaves [this] as it is and its trace replays. *)
Definition threads {A} (h : Heap) (m : M A) : Prop :=
  this (final_heap (m h)) = this h
  /\ replays (options (this h)) (trace (m h))
             (world h) (world (final_heap (m h))).

(** The steps whose frontmatter was rendered, in order. *)
Definition rendered_of (ev : Event) : list Executor :=
  match ev with
  | LogExecutorFrontmatter step => [step]
  | _ => []
  end.
Definition rendered (t : list Event) : list Executor :=
  flat_map rendered_of t.

(** What [run] can call : the prompt with its text, a hook the options
    have, with the arguments of [run] or the id of one of the steps, and
    for one of the steps the executor of the first predicate that holds,
    with the arguments of [run]. *)
Definition legitimate (self : Installer) (cliArgs : CliArgs) (c : Call)
  : Prop :=
  match c with
  | WaitForConfirmation prompt => prompt = confirmation_prompt
  | Hook (ValidateArgs args) =>
      args = cliArgs /\ validateArgs (options self) <> None
  | Hook PreInstall => preInstall (options self) <> None
  | Hook (BeforeEach id) =>
      beforeEach (options self) <> None
      /\ exists step, In step (steps self) /\ id = stepId step
  | Hook (AfterEach id) =>
      afterEach (options self) <> None
      /\ exists step, In step (steps self) /\ id = stepId step
  | Hook PostInstall => postInstall (options self) <> None
  | FileTransformExecutor step args =>
      In step (steps self) /\ args = cliArgs
      /\ isFileTransformExecutor step = true
  | AddDependencyExecutor step args =>
      In step (steps self) /\ args = cliArgs
      /\ isFileTransformExecutor step = false
      /\ isAddDependencyExecutor step = true
  | NewFileExecutor step args =>
      In step (steps self) /\ args = cliArgs
      /\ isFileTransformExecutor step = false
      /\ isAddDependencyExecutor step = false
      /\ isNewFileExecutor step = true
  end.

(** The executor calls of a trace are those of the steps whose
    frontmatter it rendered. *)
Definition paired (cliArgs : CliArgs) (t : list Event) : Prop :=
  filter is_executor (calls t)
  = flat_map (dispatch_calls cliArgs) (rendered t).

(** A trace with no executor call and no step frontmatter. *)
Definition stepless (t : list Event) : Prop :=
  filter is_executor (calls t) = [] /\ rendered t = [].

(** Two heaps with the same options and the same world (their lists of
    steps may differ), and two results that agree but for the steps. *)
Definition alike (h1 h2 : Heap) : Prop :=
  options (this h1) = options (this h2) /\ world h1 = world h2.

Definition same {A} (x1 x2 : Completion A * Heap * list Event) : Prop :=
  completion x1 = completion x2
  /\ trace x1 = trace x2
  /\ alike (final_heap x1) (final_heap x2).

(** A computation that does not look at the list of steps. *)
Definition respects {A} (m : M A) : Prop :=
  forall h1 h2, alike h1 h2 -> same (m h1) (m h2).

(** ** The dispatch as the specification words it

    Step 4(d) : test the step against the three predicates in the fixed
    order and invoke the one matching executor with the step and the
    arguments; when none matches, no executor runs and nothing is
    raised.  [run_first_match] is [run] with this in the place of lines
    114-120; it is compared with [run] below. *)

Definition invoke_first_match (cliArgs : CliArgs) (step : Executor)
  : M unit :=
  match first_match step with
  | Some k => await (executor_call k step cliArgs)
                    (executor_of k step cliArgs)
  | None => ret tt
  end.

Definition run_first_match (cliArgs : CliArgs) : M unit :=
  displayFrontmatter ;;
  proceed <- try_catch (this_validateArgs cliArgs ;; ret true)
                       (fun err => log_error err ;; ret false) ;;
  if (proceed : bool) then
    this_preInstall ;;
    self <- get_this ;;
    for_of (steps self) (fun step =>
      console_log ;;
      this_beforeEach (stepId step) ;;
      logExecutorFrontmatter step ;;
      invoke_first_match cliArgs step ;;
      this_afterEach (stepId step)) ;;
    this_postInstall ;;
    console_log ;;
    self <- get_this ;;
    log_success (success_message (options self))
  else ret tt.

(** What a run has still to go through once it has rendered the
    frontmatter of [step], the steps [post] coming after it : the
    dispatch of the step, its [afterEach], the remaining steps, then
    what follows the loop. *)
Definition after_frontmatter (self : Installer) (cliArgs : CliArgs)
  (step : Executor) (post : list Executor) : list Event :=
  dispatch_events cliArgs step
  ++ hook_events (afterEach (options self)) (AfterEach (stepId step))
  ++ flat_map (step_events (options self) cliArgs) post
  ++ epilogue_events self.

(** * Properties *)

Lemma run_unfold (cliArgs : CliArgs) :
  run cliArgs =
  (displayFrontmatter ;;
   proceed <- validation cliArgs ;;
   if (proceed : bool) then install cliArgs else ret tt).
Proof. reflexivity. Qed.

(** ** Equations of the monad *)

Lemma bind_ret (A B : Type) (a : A) (k : A -> M B) (h : Heap) :
  bind (ret a) k h = k a h.
Proof. unfold bind, ret. now destruct (k a h) as [[r h1] t1]. Qed.

Lemma bind_get_this (B : Type) (k : Installer -> M B) (h : Heap) :
  bind get_this k h = k (this h) h.
Proof. unfold bind, get_this. now destruct (k (this h) h) as [[r h1] t1]. Qed.

Lemma bind_congr (A B : Type) (m : M A) (k1 k2 : A -> M B) (h : Heap) :
  (forall a h1 t1, m h = (Normal a, h1, t1) -> k1 a h1 = k2 a h1) ->
  bind m k1 h = bind m k2 h.
Proof.
  unfold bind. intros Hk.
  destruct (m h) as [[r h1] t1].
  destruct r as [a | err | ]; [| reflexivity | reflexivity].
  now rewrite (Hk a h1 t1 eq_refl).
Qed.

(** ** The monad's combinators go through their events *)

Lemma follows_ret (h : Heap) : follows h [] (ret tt).
Proof. split; [reflexivity | apply stops_end]. Qed.

Lemma follows_emit (h : Heap) (ev : Event) : follows h [ev] (emit ev).
Proof. split; [reflexivity | apply stops_end]. Qed.

Lemma follows_await (h : Heap) (c : Call) (f : Async) :
  follows h [Awaited c Fulfilled] (await c f).
Proof.
  unfold follows, await, completion, final_heap, trace.
  destruct (f (world h)) as [o w]; cbn.
  split; [reflexivity |].
  destruct o as [ | err | ].
  - apply stops_end.
  - apply (@stops_at _ [] [] c (Rejected err)); [discriminate | reflexivity].
  - apply (@stops_at _ [] [] c NeverSettles); [discriminate | reflexivity].
Qed.

Lemma follows_bind (h : Heap) (full1 full2 : list Event)
  (m : M unit) (k : unit -> M unit) :
  follows h full1 m ->
  (forall h1, this h1 = this h -> follows h1 full2 (k tt)) ->
  follows h (full1 ++ full2) (bind m k).
Proof.
  unfold follows, bind, completion, final_heap, trace.
  destruct (m h) as [[r h1] t1]; cbn.
  intros [Hthis Hstops] Hk.
  inversion Hstops as [Hr Ht | before after c o Ho Hfull Hr Ht]; subst.
  - specialize (Hk h1 Hthis).
    destruct (k tt h1) as [[r2 h2] t2]; cbn in *.
    destruct Hk as [Hthis2 Hstops2].
    split; [congruence |].
    inversion Hstops2 as [Hr2 Ht2 | before after c o Ho Hfull Hr2 Ht2]; subst.
    + apply stops_end.
    + rewrite (app_assoc t1 before [Awaited c o]).
      apply stops_at with (after := after); [assumption |].
      now rewrite <- app_assoc.
  - assert (Hstop : stops ((before ++ Awaited c Fulfilled :: after) ++ full2)
                          (completion_of o) (before ++ [Awaited c o])).
    { apply stops_at with (after := after ++ full2); [assumption |].
      now rewrite <- app_assoc. }
    destruct o as [ | err | ]; [congruence | |]; cbn in *; now split.
Qed.

Lemma follows_this (h : Heap) (full : list Event) (k : Installer -> M unit) :
  follows h full (k (this h)) ->
  follows h full (bind get_this k).
Proof.
  unfold follows, bind, get_this, completion, final_heap, trace.
  destruct (k (this h) h) as [[r h1] t1]; cbn. trivial.
Qed.

Lemma follows_for_of (A : Type) (f : A -> list Event) (body : A -> M unit)
  (xs : list A) :
  forall h : Heap,
    (forall x h1, this h1 = this h -> follows h1 (f x) (body x)) ->
    follows h (flat_map f xs) (for_of xs body).
Proof.
  induction xs as [ | x rest IH]; intros h Hbody; cbn [flat_map for_of].
  - apply follows_ret.
  - apply follows_bind.
    + now apply Hbody.
    + intros h1 Hh1. apply IH.
      intros y h2 Hh2. apply Hbody. congruence.
Qed.

Lemma follows_hook (A : Type) (h : Heap)
  (field : InstallerOptions -> option A) (l : Lifecycle)
  (call : A -> Async) :
  follows h (hook_events (field (options (this h))) l)
          (entered l ;;
           self <- get_this ;;
           match field (options self) with
           | Some f => await (Hook l) (call f)
           | None => ret tt
           end).
Proof.
  unfold hook_events.
  apply (@follows_bind h [Invoked l]); [apply follows_emit |].
  intros h1 H1. apply follows_this. rewrite H1.
  destruct (field (options (this h)));
    [apply follows_await | apply follows_ret].
Qed.

(** ** The methods go through their events *)

Lemma follows_validateArgs (h : Heap) (cliArgs : CliArgs) :
  follows h (hook_events (validateArgs (options (this h)))
                         (ValidateArgs cliArgs))
          (this_validateArgs cliArgs).
Proof.
  exact (follows_hook h (@validateArgs) (ValidateArgs cliArgs)
                      (fun f => f cliArgs)).
Qed.

Lemma follows_preInstall (h : Heap) :
  follows h (hook_events (preInstall (options (this h))) PreInstall)
          this_preInstall.
Proof. exact (follows_hook h (@preInstall) PreInstall (fun f => f)). Qed.

Lemma follows_beforeEach (h : Heap) (id : StepId) :
  follows h (hook_events (beforeEach (options (this h))) (BeforeEach id))
          (this_beforeEach id).
Proof.
  exact (follows_hook h (@beforeEach) (BeforeEach id) (fun f => f id)).
Qed.

Lemma follows_afterEach (h : Heap) (id : StepId) :
  follows h (hook_events (afterEach (options (this h))) (AfterEach id))
          (this_afterEach id).
Proof.
  exact (follows_hook h (@afterEach) (AfterEach id) (fun f => f id)).
Qed.

Lemma follows_postInstall (h : Heap) :
  follows h (hook_events (postInstall (options (this h))) PostInstall)
          this_postInstall.
Proof. exact (follows_hook h (@postInstall) PostInstall (fun f => f)). Qed.

Lemma follows_dispatch (h : Heap) (cliArgs : CliArgs) (step : Executor) :
  follows h (dispatch_events cliArgs step) (dispatch cliArgs step).
Proof.
  unfold dispatch_events, dispatch_calls, first_match, dispatch; cbn.
  destruct (isFileTransformExecutor step); [apply follows_await |].
  destruct (isAddDependencyExecutor step); [apply follows_await |].
  destruct (isNewFileExecutor step); [apply follows_await |].
  apply follows_ret.
Qed.

Lemma follows_iteration (h : Heap) (cliArgs : CliArgs) (step : Executor) :
  follows h (step_events (options (this h)) cliArgs step)
          (iteration cliArgs step).
Proof.
  unfold step_events, iteration.
  apply follows_bind; [apply follows_emit |]; intros h1 H1.
  apply follows_bind; [rewrite <- H1; apply follows_beforeEach |];
    intros h2 H2.
  apply follows_bind; [apply follows_emit |]; intros h3 H3.
  apply follows_bind; [apply follows_dispatch |]; intros h4 H4.
  replace (this h) with (this h4) by congruence.
  apply follows_afterEach.
Qed.

Lemma follows_displayFrontmatter (h : Heap) :
  follows h (frontmatter_events (options (this h))) displayFrontmatter.
Proof.
  unfold displayFrontmatter. apply follows_this.
  unfold frontmatter_events, frontmatter_logs, confirmation.
  repeat (apply (@follows_bind _ [_]); [apply follows_emit | intros ? _]).
  apply follows_await.
Qed.

Lemma follows_install (h : Heap) (cliArgs : CliArgs) :
  follows h (install_events (this h) cliArgs) (install cliArgs).
Proof.
  unfold install_events, install.
  apply follows_bind; [apply follows_preInstall |]; intros h1 H1.
  apply follows_this. rewrite H1.
  apply follows_bind.
  { apply follows_for_of. intros step h2 H2.
    replace (this h) with (this h2) by congruence.
    apply follows_iteration. }
  intros h2 H2.
  apply follows_bind.
  { replace (this h) with (this h2) by congruence.
    apply follows_postInstall. }
  intros h3 H3.
  apply (@follows_bind _ [_]); [apply follows_emit |]; intros h4 H4.
  apply follows_this.
  replace (this h4) with (this h) by congruence.
  apply follows_emit.
Qed.

(** ** The two guarded phases, computed *)

Lemma displayFrontmatter_eq (h : Heap) :
  displayFrontmatter h =
  (completion_of (fst (waitForConfirmation confirmation_prompt (world h))),
   {| this := this h;
      world := snd (waitForConfirmation confirmation_prompt (world h)) |},
   frontmatter_logs (options (this h))
   ++ [confirmation (fst (waitForConfirmation confirmation_prompt
                                              (world h)))]).
Proof.
  unfold displayFrontmatter, bind, get_this, log_branded, log_info,
    console_log, emit, await, confirmation.
  destruct (waitForConfirmation confirmation_prompt (world h)) as [o w].
  destruct o; reflexivity.
Qed.

Lemma validation_eq (cliArgs : CliArgs) (h : Heap) :
  validation cliArgs h =
  match validateArgs (options (this h)) with
  | Some hook =>
      (validation_result (fst (hook cliArgs (world h))),
       {| this := this h; world := snd (hook cliArgs (world h)) |},
       validation_events cliArgs (fst (hook cliArgs (world h))))
  | None => (Normal true, h, [Invoked (ValidateArgs cliArgs)])
  end.
Proof.
  unfold validation, try_catch, this_validateArgs, bind, get_this, await,
    log_error, entered, emit, ret. cbn [this world].
  destruct (validateArgs (options (this h))) as [hook | ]; [| reflexivity].
  destruct (hook cliArgs (world h)) as [o w].
  destruct o; reflexivity.
Qed.

(** ** Every call of [run] has one of the four shapes *)

Lemma run_shape (cliArgs : CliArgs) (h : Heap) :
  this (final_heap (run cliArgs h)) = this h
  /\ RunShape (this h) cliArgs (completion (run cliArgs h))
              (trace (run cliArgs h)).
Proof.
  remember (run cliArgs h) as x eqn:Hx.
  rewrite run_unfold in Hx. unfold bind in Hx.
  rewrite displayFrontmatter_eq in Hx.
  destruct (waitForConfirmation confirmation_prompt (world h)) as [o w].
  cbn [fst snd] in Hx.
  destruct o as [ | err | ]; cbn [completion_of] in Hx.
  2: { subst x. split; [reflexivity |].
       apply (@Run_unconfirmed _ _ (Rejected err)). discriminate. }
  2: { subst x. split; [reflexivity |].
       apply (@Run_unconfirmed _ _ NeverSettles). discriminate. }
  rewrite validation_eq in Hx. cbn [this world] in Hx.
  destruct (validateArgs (options (this h))) as [hook | ] eqn:Hhook.
  - destruct (hook cliArgs w) as [o w1]. cbn [fst snd] in Hx.
    destruct o as [ | err | ];
      cbn [validation_result validation_events] in Hx.
    + pose proof (follows_install {| this := this h; world := w1 |} cliArgs)
        as [Hthis Hstops].
      destruct (install cliArgs {| this := this h; world := w1 |})
        as [[r h2] t2].
      subst x. unfold completion, final_heap, trace in *; cbn in *.
      split; [assumption |].
      apply (@Run_installing (this h) cliArgs r t2) in Hstops.
      rewrite Hhook in Hstops. exact Hstops.
    + subst x. split; [reflexivity |].
      apply (@Run_invalid (this h) cliArgs hook err Hhook).
    + subst x. split; [reflexivity |].
      apply (@Run_unvalidated (this h) cliArgs hook Hhook).
  - pose proof (follows_install {| this := this h; world := w |} cliArgs)
      as [Hthis Hstops].
    destruct (install cliArgs {| this := this h; world := w |})
      as [[r h2] t2].
    subst x. unfold completion, final_heap, trace in *; cbn in *.
    split; [assumption |].
    apply (@Run_installing (this h) cliArgs r t2) in Hstops.
    rewrite Hhook in Hstops. exact Hstops.
Qed.

(** ** Facts on traces *)

Lemma calls_app (t1 t2 : list Event) :
  calls (t1 ++ t2) = calls t1 ++ calls t2.
Proof. apply flat_map_app. Qed.

Lemma flat_map_nested (A B C : Type) (f : A -> list B) (g : B -> list C)
  (xs : list A) :
  flat_map g (flat_map f xs) = flat_map (fun x => flat_map g (f x)) xs.
Proof.
  induction xs as [ | x rest IH]; cbn; [reflexivity |].
  now rewrite flat_map_app, IH.
Qed.

Lemma calls_flat_map (A : Type) (f : A -> list Event) (xs : list A) :
  calls (flat_map f xs) = flat_map (fun x => calls (f x)) xs.
Proof. apply flat_map_nested. Qed.

Lemma calls_hook_events (A : Type) (hook : option A) (l : Lifecycle) :
  calls (hook_events hook l) = hook_calls hook l.
Proof. now destruct hook. Qed.

Lemma calls_dispatch_events (cliArgs : CliArgs) (step : Executor) :
  calls (dispatch_events cliArgs step) = dispatch_calls cliArgs step.
Proof.
  unfold dispatch_events.
  induction (dispatch_calls cliArgs step) as [ | c rest IH];
    cbn; [reflexivity | now f_equal].
Qed.

Lemma calls_step_events (opts : InstallerOptions) (cliArgs : CliArgs)
  (step : Executor) :
  calls (step_events opts cliArgs step) = step_calls opts cliArgs step.
Proof.
  unfold step_events, step_calls.
  rewrite !calls_app, !calls_hook_events, calls_dispatch_events.
  reflexivity.
Qed.

Lemma calls_install_events (self : Installer) (cliArgs : CliArgs) :
  calls (install_events self cliArgs) = install_calls self cliArgs.
Proof.
  unfold install_events, install_calls.
  rewrite !calls_app, !calls_hook_events.
  rewrite calls_flat_map.
  rewrite (flat_map_ext _ (step_calls (options self) cliArgs)
                        (fun step => calls_step_events _ _ step)).
  cbn. now rewrite app_nil_r.
Qed.

Lemma calls_run_events (self : Installer) (cliArgs : CliArgs) :
  calls (run_events self cliArgs) = run_calls self cliArgs.
Proof.
  unfold run_events, run_calls.
  rewrite !calls_app, calls_hook_events, calls_install_events.
  reflexivity.
Qed.

Lemma no_failure_Forall (t : list Event) :
  no_failure t <-> Forall (fun ev => settled_ok ev = true) t.
Proof.
  unfold no_failure. rewrite Forall_forall. split.
  - intros H ev Hin. destruct ev as [ | | | | | | | c o]; try reflexivity.
    now rewrite (H c o Hin).
  - intros H c o Hin. specialize (H _ Hin). now destruct o.
Qed.

Lemma settled_hook_events (A : Type) (hook : option A) (l : Lifecycle) :
  Forall (fun ev => settled_ok ev = true) (hook_events hook l).
Proof. destruct hook; repeat constructor. Qed.

Lemma settled_step_events (opts : InstallerOptions) (cliArgs : CliArgs)
  (step : Executor) :
  Forall (fun ev => settled_ok ev = true) (step_events opts cliArgs step).
Proof.
  unfold step_events.
  repeat (apply Forall_app; split);
    try apply settled_hook_events; try (repeat constructor).
  unfold dispatch_events. apply Forall_map, Forall_forall. reflexivity.
Qed.

Lemma settled_install_events (self : Installer) (cliArgs : CliArgs) :
  Forall (fun ev => settled_ok ev = true) (install_events self cliArgs).
Proof.
  unfold install_events.
  repeat (apply Forall_app; split);
    try apply settled_hook_events; try (repeat constructor).
  apply Forall_flat_map, Forall_forall.
  intros step _. apply settled_step_events.
Qed.

Lemma settled_run_events (self : Installer) (cliArgs : CliArgs) :
  Forall (fun ev => settled_ok ev = true) (run_events self cliArgs).
Proof.
  unfold run_events.
  apply Forall_app; split; [repeat constructor |].
  apply Forall_app; split;
    [apply settled_hook_events | apply settled_install_events].
Qed.

Lemma no_failure_run_events (self : Installer) (cliArgs : CliArgs) :
  no_failure (run_events self cliArgs).
Proof. apply no_failure_Forall, settled_run_events. Qed.

(** The validation hook is not called after the validation phase. *)
Lemma install_calls_not_validateArgs (self : Installer) (cliArgs : CliArgs)
  (c : Call) :
  In c (install_calls self cliArgs) -> is_validateArgs c = false.
Proof.
  unfold install_calls, step_calls, dispatch_calls.
  rewrite !in_app_iff, in_flat_map.
  intros [H | [[step [_ H]] | H]].
  - destruct (preInstall (options self)); cbn in H; [| tauto].
    destruct H as [<- | []]. reflexivity.
  - rewrite !in_app_iff in H. destruct H as [H | [H | H]].
    + destruct (beforeEach (options self)); cbn in H; [| tauto].
      destruct H as [<- | []]. reflexivity.
    + destruct (first_match step) as [[ | | ] | ]; cbn in H;
        try tauto; destruct H as [<- | []]; reflexivity.
    + destruct (afterEach (options self)); cbn in H; [| tauto].
      destruct H as [<- | []]. reflexivity.
  - destruct (postInstall (options self)); cbn in H; [| tauto].
    destruct H as [<- | []]. reflexivity.
Qed.

Lemma in_calls (c : Call) (o : Outcome) (t : list Event) :
  In (Awaited c o) t -> In c (calls t).
Proof.
  intros H. apply in_flat_map. exists (Awaited c o). cbn. tauto.
Qed.

(** ** [run] stops at the first awaited call that is not fulfilled *)

Lemma run_stops (cliArgs : CliArgs) (h : Heap) :
  RunStops (this h) cliArgs (completion (run cliArgs h))
           (trace (run cliArgs h)).
Proof.
  destruct (run_shape cliArgs h) as [_ Hshape].
  destruct Hshape as [o Ho | hook err Hhook | hook Hhook | r t Hstops].
  - apply Run_stuck with
      (after := hook_events (validateArgs (options (this h)))
                            (ValidateArgs cliArgs)
                ++ install_events (this h) cliArgs);
      [assumption | now left |].
    unfold run_events, frontmatter_events, confirmation.
    now rewrite <- app_assoc.
  - apply Run_rejected with (hook := hook)
                            (after := install_events (this h) cliArgs);
      [assumption |].
    unfold run_events, before_validation, hook_events.
    rewrite Hhook. now rewrite <- app_assoc.
  - apply (@Run_stuck (this h) cliArgs
                      (before_validation (options (this h)) cliArgs)
                      (install_events (this h) cliArgs)
                      (Hook (ValidateArgs cliArgs)) NeverSettles);
      [discriminate | now right |].
    unfold run_events, before_validation, hook_events.
    rewrite Hhook. now rewrite <- app_assoc.
  - destruct Hstops as [ | before after c o Ho Hfull].
    + apply Run_complete.
    + rewrite !app_assoc.
      apply Run_stuck with (after := after); [assumption | |].
      * left. apply (install_calls_not_validateArgs (this h) cliArgs).
        rewrite <- calls_install_events, Hfull, calls_app.
        apply in_or_app. right. now left.
      * unfold run_events. rewrite Hfull. now rewrite !app_assoc.
Qed.

Lemma completes_run_events (cliArgs : CliArgs) (h : Heap) :
  completes (run cliArgs h) ->
  trace (run cliArgs h) = run_events (this h) cliArgs.
Proof.
  intros [Hnormal Hok].
  pose proof (run_stops cliArgs h) as Hstops.
  destruct Hstops as [ | before after c o Ho _ _ | hook err after _ _].
  - reflexivity.
  - contradict Ho. apply (Hok c o), in_or_app. right. now left.
  - assert (Rejected err = Fulfilled) by
      (apply (Hok (Hook (ValidateArgs cliArgs))), in_or_app; right; now left).
    discriminate.
Qed.

(** ** Cutting a list of events at one of its elements *)

Lemma split_in_prefix (A : Type) (xs tail before after : list A) (x : A) :
  xs ++ tail = before ++ x :: after ->
  ~ In x tail ->
  exists rest, xs = before ++ x :: rest /\ after = rest ++ tail.
Proof.
  intros Heq Hnot.
  apply app_eq_app in Heq.
  destruct Heq as [l [[Hxs Hafter] | [Hbefore Htail]]].
  - destruct l as [ | y l].
    + cbn in Hafter. contradict Hnot. rewrite <- Hafter. now left.
    + injection Hafter as <- ->. now exists l.
  - contradict Hnot. rewrite Htail. apply in_or_app. right. now left.
Qed.

Lemma split_in_suffix (A : Type) (head xs before after : list A) (x : A) :
  head ++ xs = before ++ x :: after ->
  ~ In x head ->
  exists rest, before = head ++ rest /\ xs = rest ++ x :: after.
Proof.
  intros Heq Hnot.
  apply app_eq_app in Heq.
  destruct Heq as [l [[Hhead Hafter] | [Hbefore Hxs]]].
  - destruct l as [ | y l].
    + exists []. rewrite app_nil_r in Hhead. cbn in Hafter.
      rewrite app_nil_r. now split.
    + injection Hafter as <- ->.
      contradict Hnot. rewrite Hhead. apply in_or_app. right. now left.
  - now exists l.
Qed.

Lemma split_flat_map (A B : Type) (f : A -> list B) (xs : list A) :
  forall (before after : list B) (y : B),
    flat_map f xs = before ++ y :: after ->
    exists pre x post b a,
      xs = pre ++ x :: post
      /\ f x = b ++ y :: a
      /\ before = flat_map f pre ++ b
      /\ after = a ++ flat_map f post.
Proof.
  induction xs as [ | x rest IH]; intros before after y Heq; cbn in Heq.
  - now destruct before.
  - apply app_eq_app in Heq.
    destruct Heq as [l [[Hfx Hafter] | [Hbefore Hrest]]].
    + destruct l as [ | z l].
      * cbn in Hafter. rewrite app_nil_r in Hfx.
        destruct (IH [] after y (eq_sym Hafter))
          as (pre & x' & post & b & a & Hxs & Hfx' & Hb & Ha).
        exists (x :: pre), x', post, b, a.
        repeat split; [now rewrite Hxs | assumption | | assumption].
        cbn. rewrite <- app_assoc, <- Hb, app_nil_r. now symmetry.
      * injection Hafter as <- ->.
        exists [], x, rest, before, l. now repeat split.
    + destruct (IH l after y Hrest)
        as (pre & x' & post & b & a & Hxs & Hfx' & Hb & Ha).
      exists (x :: pre), x', post, b, a.
      repeat split; [now rewrite Hxs | assumption | | assumption].
      cbn. now rewrite <- app_assoc, <- Hb.
Qed.

Lemma successes_app (t1 t2 : list Event) :
  successes (t1 ++ t2) = successes t1 ++ successes t2.
Proof. apply flat_map_app. Qed.

Lemma errors_logged_app (t1 t2 : list Event) :
  errors_logged (t1 ++ t2) = errors_logged t1 ++ errors_logged t2.
Proof. apply flat_map_app. Qed.

(** ** The parts of [run_events] *)

Lemma run_events_parts (self : Installer) (cliArgs : CliArgs) :
  run_events self cliArgs =
  prologue_events self cliArgs
  ++ flat_map (step_events (options self) cliArgs) (steps self)
  ++ epilogue_events self.
Proof.
  unfold run_events, install_events, prologue_events, epilogue_events.
  now rewrite <- !app_assoc.
Qed.

Lemma in_hook_events (A : Type) (hook : option A) (l : Lifecycle)
  (c : Call) (o : Outcome) :
  In (Awaited c o) (hook_events hook l) ->
  c = Hook l /\ o = Fulfilled /\ hook <> None.
Proof.
  destruct hook; cbn.
  - intros [H | [H | []]]; [discriminate |].
    injection H as <- <-. repeat split. discriminate.
  - intros [H | []]. discriminate.
Qed.

Lemma in_prologue_events (self : Installer) (cliArgs : CliArgs)
  (c : Call) (o : Outcome) :
  In (Awaited c o) (prologue_events self cliArgs) ->
  c = WaitForConfirmation confirmation_prompt
  \/ c = Hook (ValidateArgs cliArgs) \/ c = Hook PreInstall.
Proof.
  unfold prologue_events. rewrite !in_app_iff.
  intros [H | [H | H]].
  - unfold frontmatter_events, frontmatter_logs, confirmation in H.
    cbn in H.
    repeat (destruct H as [H | H]; [try discriminate |]); [| destruct H].
    injection H as <- _. now left.
  - apply in_hook_events in H. destruct H as [-> _]. right. now left.
  - apply in_hook_events in H. destruct H as [-> _]. right. now right.
Qed.

Lemma in_epilogue_events (self : Installer) (c : Call) (o : Outcome) :
  In (Awaited c o) (epilogue_events self) -> c = Hook PostInstall.
Proof.
  unfold epilogue_events. rewrite in_app_iff.
  intros [H | H].
  - apply in_hook_events in H. now destruct H as [-> _].
  - cbn in H. intuition discriminate.
Qed.

Lemma in_step_calls (opts : InstallerOptions) (cliArgs : CliArgs)
  (step : Executor) (c : Call) :
  In c (step_calls opts cliArgs step) ->
  is_each c || is_executor c = true.
Proof.
  unfold step_calls, dispatch_calls. rewrite !in_app_iff.
  intros [H | [H | H]].
  - destruct (beforeEach opts); cbn in H; [| tauto].
    destruct H as [<- | []]. reflexivity.
  - destruct (first_match step) as [[ | | ] | ]; cbn in H;
      try tauto; destruct H as [<- | []]; reflexivity.
  - destruct (afterEach opts); cbn in H; [| tauto].
    destruct H as [<- | []]. reflexivity.
Qed.

Lemma in_steps_events (opts : InstallerOptions) (cliArgs : CliArgs)
  (sts : list Executor) (c : Call) (o : Outcome) :
  In (Awaited c o) (flat_map (step_events opts cliArgs) sts) ->
  is_each c || is_executor c = true.
Proof.
  intros H. apply in_flat_map in H. destruct H as [step [_ H]].
  apply in_calls in H. rewrite calls_step_events in H.
  now apply in_step_calls in H.
Qed.

(** Nothing is reported (no error, no success) before the last line. *)
Lemma no_report_hook_events (A : Type) (hook : option A) (l : Lifecycle) :
  Forall (fun ev => is_report ev = false) (hook_events hook l).
Proof. destruct hook; repeat constructor. Qed.

Lemma no_report_steps_events (opts : InstallerOptions) (cliArgs : CliArgs)
  (sts : list Executor) :
  Forall (fun ev => is_report ev = false)
         (flat_map (step_events opts cliArgs) sts).
Proof.
  apply Forall_flat_map, Forall_forall. intros step _.
  unfold step_events.
  repeat (apply Forall_app; split);
    try apply no_report_hook_events; try (repeat constructor).
  unfold dispatch_events. apply Forall_map, Forall_forall. reflexivity.
Qed.

Lemma no_report_prologue_events (self : Installer) (cliArgs : CliArgs) :
  Forall (fun ev => is_report ev = false) (prologue_events self cliArgs).
Proof.
  unfold prologue_events.
  apply Forall_app; split; [repeat constructor |].
  apply Forall_app; split; apply no_report_hook_events.
Qed.

Lemma no_report_silent (t : list Event) :
  Forall (fun ev => is_report ev = false) t ->
  successes t = [] /\ errors_logged t = [].
Proof.
  induction 1 as [ | ev t Hev _ [IHs IHe]]; [now split |].
  unfold successes, errors_logged in *. cbn. rewrite IHs, IHe.
  destruct ev; try discriminate; now split.
Qed.

(** The events before an awaited call of [run_events] report nothing. *)
Lemma run_events_cut_silent (self : Installer) (cliArgs : CliArgs)
  (before after : list Event) (c : Call) :
  run_events self cliArgs = before ++ Awaited c Fulfilled :: after ->
  successes before = [] /\ errors_logged before = [].
Proof.
  intros Hfull. apply no_report_silent.
  rewrite run_events_parts in Hfull. unfold epilogue_events in Hfull.
  rewrite !app_assoc in Hfull.
  apply split_in_prefix in Hfull; [| cbn; intuition discriminate].
  destruct Hfull as [rest [Hfull _]].
  assert (Hall : Forall (fun ev => is_report ev = false)
                        (before ++ Awaited c Fulfilled :: rest)).
  { rewrite <- Hfull.
    apply Forall_app; split; [apply Forall_app; split |].
    - apply no_report_prologue_events.
    - apply no_report_steps_events.
    - apply no_report_hook_events. }
  now apply Forall_app in Hall.
Qed.

Lemma in_calls_inv (c : Call) (t : list Event) :
  In c (calls t) -> exists o, In (Awaited c o) t.
Proof.
  intros H. apply in_flat_map in H. destruct H as [ev [Hin Hc]].
  destruct ev as [ | | | | | | | c' o]; cbn in Hc; try tauto.
  destruct Hc as [<- | []]. now exists o.
Qed.

(** ** The calls of a run *)

(** The calls made are the first calls of [run_calls]. *)
Lemma run_calls_prefix (cliArgs : CliArgs) (h : Heap) :
  exists rest,
    run_calls (this h) cliArgs = calls (trace (run cliArgs h)) ++ rest.
Proof.
  pose proof (run_stops cliArgs h) as Hstops.
  rewrite <- calls_run_events.
  destruct Hstops as [ | before after c o _ _ Hfull
                       | hook err after _ Hfull].
  - exists []. now rewrite app_nil_r.
  - exists (calls after). rewrite Hfull, !calls_app, <- app_assoc.
    reflexivity.
  - exists (calls after). rewrite Hfull, !calls_app, <- app_assoc.
    reflexivity.
Qed.

Lemma filter_flat_map (A B : Type) (p : B -> bool) (f : A -> list B)
  (xs : list A) :
  filter p (flat_map f xs) = flat_map (fun x => filter p (f x)) xs.
Proof.
  induction xs as [ | x rest IH]; cbn; [reflexivity |].
  now rewrite filter_app, IH.
Qed.

Lemma flat_map_singletons (A B : Type) (f : A -> B) (xs : list A) :
  flat_map (fun x => [f x]) xs = map f xs.
Proof. induction xs as [ | x rest IH]; cbn; now f_equal. Qed.

Lemma filter_hook_calls (A : Type) (p : Call -> bool) (hook : option A)
  (l : Lifecycle) :
  p (Hook l) = false -> filter p (hook_calls hook l) = [].
Proof. intros Hp. destruct hook; cbn; [now rewrite Hp | reflexivity]. Qed.

(** Selecting per-step calls in [run_calls] selects them step by step. *)
Lemma filter_run_calls (p : Call -> bool) (self : Installer)
  (cliArgs : CliArgs) :
  p (WaitForConfirmation confirmation_prompt) = false ->
  p (Hook (ValidateArgs cliArgs)) = false ->
  p (Hook PreInstall) = false ->
  p (Hook PostInstall) = false ->
  filter p (run_calls self cliArgs) =
  flat_map (fun step => filter p (step_calls (options self) cliArgs step))
           (steps self).
Proof.
  intros Hwait Hvalidate Hpre Hpost.
  unfold run_calls, install_calls. cbn [filter]. rewrite Hwait.
  rewrite !filter_app, !filter_hook_calls by assumption.
  rewrite filter_flat_map. cbn. now rewrite app_nil_r.
Qed.

Lemma is_executor_dispatch_calls (cliArgs : CliArgs) (step : Executor) :
  filter is_executor (dispatch_calls cliArgs step)
  = dispatch_calls cliArgs step
  /\ filter is_each (dispatch_calls cliArgs step) = []
  /\ filter is_beforeEach (dispatch_calls cliArgs step) = []
  /\ filter is_afterEach (dispatch_calls cliArgs step) = [].
Proof.
  unfold dispatch_calls.
  destruct (first_match step) as [[ | | ] | ]; repeat split; reflexivity.
Qed.

Lemma in_run_calls (self : Installer) (cliArgs : CliArgs) (c : Call) :
  In c (run_calls self cliArgs) ->
  c = WaitForConfirmation confirmation_prompt
  \/ (c = Hook (ValidateArgs cliArgs) /\ validateArgs (options self) <> None)
  \/ (c = Hook PreInstall /\ preInstall (options self) <> None)
  \/ (exists step,
         In step (steps self)
         /\ ((c = Hook (BeforeEach (stepId step))
              /\ beforeEach (options self) <> None)
             \/ In c (dispatch_calls cliArgs step)
             \/ (c = Hook (AfterEach (stepId step))
                 /\ afterEach (options self) <> None)))
  \/ (c = Hook PostInstall /\ postInstall (options self) <> None).
Proof.
  assert (Hhook : forall (A : Type) (hook : option A) l,
             In c (hook_calls hook l) -> c = Hook l /\ hook <> None).
  { intros A hook c0. destruct hook; cbn; [| tauto].
    intros [<- | []]. split; [reflexivity | discriminate]. }
  unfold run_calls, install_calls, step_calls. cbn [In].
  rewrite !in_app_iff, in_flat_map.
  intros [H | [H | [H | [[step [Hstep H]] | H]]]].
  - left. now symmetry.
  - right. left. now apply Hhook in H.
  - right. right. left. now apply Hhook in H.
  - right. right. right. left. exists step. split; [assumption |].
    rewrite !in_app_iff in H. destruct H as [H | [H | H]].
    + left. now apply Hhook in H.
    + right. now left.
    + right. right. now apply Hhook in H.
  - right. right. right. right. now apply Hhook in H.
Qed.

Lemma in_trace_run_calls (cliArgs : CliArgs) (h : Heap) (c : Call) :
  In c (calls (trace (run cliArgs h))) -> In c (run_calls (this h) cliArgs).
Proof.
  intros H. destruct (run_calls_prefix cliArgs h) as [rest ->].
  apply in_or_app. now left.
Qed.

(** Only a rejection by [validateArgs] makes [run] log an error. *)
Lemma errors_logged_run (cliArgs : CliArgs) (h : Heap) :
  validateArgs (options (this h)) = None ->
  errors_logged (trace (run cliArgs h)) = [].
Proof.
  intros Hnone.
  pose proof (run_stops cliArgs h) as Hstops.
  destruct Hstops as [ | before after c o _ _ Hfull
                       | hook err after Hhook _].
  - rewrite run_events_parts, !errors_logged_app.
    destruct (no_report_silent (no_report_prologue_events (this h) cliArgs))
      as [_ ->].
    destruct (no_report_silent
                (no_report_steps_events (options (this h)) cliArgs
                                        (steps (this h)))) as [_ ->].
    unfold epilogue_events. rewrite errors_logged_app.
    destruct (no_report_silent
                (no_report_hook_events (postInstall (options (this h)))
                                       PostInstall)) as [_ ->].
    reflexivity.
  - destruct (run_events_cut_silent _ _ _ Hfull) as [_ Herr].
    rewrite errors_logged_app, Herr. reflexivity.
  - congruence.
Qed.

Lemma stops_normal (full t : list Event) :
  stops full (Normal tt) t -> t = full.
Proof.
  intros H. remember (Normal tt) as r eqn:Hr.
  destruct H as [ | before after c o Ho _]; [reflexivity |].
  destruct o; [congruence | discriminate | discriminate].
Qed.

(** [run] starts with the frontmatter and the confirmation prompt. *)
Lemma run_starts_with_frontmatter (cliArgs : CliArgs) (h : Heap) :
  exists rest,
    trace (run cliArgs h) =
    frontmatter_logs (options (this h))
    ++ [confirmation (fst (waitForConfirmation confirmation_prompt
                                               (world h)))]
    ++ rest.
Proof.
  remember (run cliArgs h) as x eqn:Hx.
  rewrite run_unfold in Hx. unfold bind at 1 in Hx.
  rewrite displayFrontmatter_eq in Hx.
  destruct (fst (waitForConfirmation confirmation_prompt (world h)))
    as [ | err | ]; cbn [completion_of] in Hx.
  - match type of Hx with
    | x = match ?call with _ => _ end =>
        destruct call as [[r h2] t2]; exists t2
    end.
    subst x. unfold trace; cbn [snd]. now rewrite <- app_assoc.
  - exists []. now subst x.
  - exists []. now subst x.
Qed.

Lemma no_failure_forallb (t : list Event) :
  forallb settled_ok t = true -> no_failure t.
Proof.
  intros H. apply no_failure_Forall, Forall_forall.
  now apply forallb_forall.
Qed.

(** A rejection by the hook, in the world the prompt leaves, is what
    the trace of [run] records. *)
Lemma rejection_is_recorded (cliArgs : CliArgs) (h : Heap)
  (hook : CliArgs -> Async) (err : Err) :
  validateArgs (options (this h)) = Some hook ->
  fst (waitForConfirmation confirmation_prompt (world h)) = Fulfilled ->
  fst (hook cliArgs (snd (waitForConfirmation confirmation_prompt
                                              (world h))))
  = Rejected err ->
  In (Awaited (Hook (ValidateArgs cliArgs)) (Rejected err))
     (trace (run cliArgs h)).
Proof.
  intros Hhook Hconfirmed Hrejected.
  remember (run cliArgs h) as x eqn:Hx.
  rewrite run_unfold in Hx. unfold bind in Hx.
  rewrite displayFrontmatter_eq, Hconfirmed in Hx.
  cbn [completion_of] in Hx.
  rewrite validation_eq in Hx. cbn [this world] in Hx.
  rewrite Hhook, Hrejected in Hx.
  cbn [validation_result validation_events] in Hx.
  subst x. unfold trace; cbn [snd ret].
  apply in_or_app. right. apply in_or_app. left. right. now left.
Qed.

(** ** The lifecycle methods entered by a run *)

Lemma invocations_app (t1 t2 : list Event) :
  invocations (t1 ++ t2) = invocations t1 ++ invocations t2.
Proof. apply flat_map_app. Qed.

Lemma invocations_hook_events (A : Type) (hook : option A)
  (l : Lifecycle) :
  invocations (hook_events hook l) = [l].
Proof. now destruct hook. Qed.

Lemma invocations_step_events (opts : InstallerOptions)
  (cliArgs : CliArgs) (step : Executor) :
  invocations (step_events opts cliArgs step)
  = [BeforeEach (stepId step); AfterEach (stepId step)].
Proof.
  unfold step_events.
  rewrite !invocations_app, !invocations_hook_events.
  assert (Hnone : invocations (dispatch_events cliArgs step) = []).
  { unfold dispatch_events.
    now induction (dispatch_calls cliArgs step) as [ | c rest IH]. }
  now rewrite Hnone.
Qed.

(** The methods entered are the first ones of [run_events]. *)
Lemma run_invocations_prefix (cliArgs : CliArgs) (h : Heap) :
  exists rest,
    invocations (run_events (this h) cliArgs)
    = invocations (trace (run cliArgs h)) ++ rest.
Proof.
  pose proof (run_stops cliArgs h) as Hstops.
  destruct Hstops as [ | before after c o _ _ Hfull
                       | hook err after _ Hfull].
  - exists []. now rewrite app_nil_r.
  - exists (invocations after).
    rewrite Hfull, !invocations_app.
    change (invocations [Awaited c o]) with (@nil Lifecycle).
    now rewrite app_nil_r.
  - exists (invocations after).
    rewrite Hfull, !invocations_app.
    change (invocations [Awaited (Hook (ValidateArgs cliArgs)) (Rejected err);
                         LogError err])
      with (@nil Lifecycle).
    now rewrite app_nil_r.
Qed.

Lemma invocations_run_events (self : Installer) (cliArgs : CliArgs) :
  invocations (run_events self cliArgs) =
  [ValidateArgs cliArgs; PreInstall]
  ++ step_points (steps self)
  ++ [PostInstall].
Proof.
  unfold run_events, install_events, step_points.
  rewrite !invocations_app, !invocations_hook_events.
  unfold invocations at 2. rewrite flat_map_nested.
  rewrite (flat_map_ext _ _ (invocations_step_events (options self) cliArgs)).
  reflexivity.
Qed.

(** * The claims *)

(** C7 : the frontmatter phase prints the branded welcome line with the
    package name, the branded description, the line naming the owner and
    the line with the repository link, in this order, then a blank line,
    and then awaits the confirmation prompt.  Everything else [run] does
    comes after that call, and only when the prompt was fulfilled. *)
Theorem frontmatter_then_confirmation (cliArgs : CliArgs) (h : Heap) :
  let opts := options (this h) in
  let o := fst (waitForConfirmation confirmation_prompt (world h)) in
  trace (displayFrontmatter h) =
    [ LogBranded ("Welcome to the installer for " ++ packageName opts)%string;
      LogBranded (packageDescription opts);
      LogInfo ("This package is authored and supported by "
               ++ packageOwner opts)%string;
      LogInfo ("For additional documentation and support please visit "
               ++ packageRepoLink opts)%string;
      ConsoleLog;
      Awaited (WaitForConfirmation "Press enter to begin installation") o ]
  /\ completion (displayFrontmatter h) = completion_of o
  /\ exists rest,
       trace (run cliArgs h) = trace (displayFrontmatter h) ++ rest
       /\ calls (trace (run cliArgs h)) =
            WaitForConfirmation confirmation_prompt :: calls rest
       /\ (o <> Fulfilled ->
           rest = [] /\ completion (run cliArgs h) = completion_of o).
Proof.
  intros opts o.
  remember (run cliArgs h) as x eqn:Hx.
  rewrite run_unfold in Hx. unfold bind at 1 in Hx.
  rewrite displayFrontmatter_eq in *. fold o opts in Hx |- *.
  unfold trace at 1 2, completion at 1. cbn [fst snd].
  split; [reflexivity |]. split; [reflexivity |].
  destruct o as [ | err | ]; cbn [completion_of] in Hx.
  - match type of Hx with
    | x = match ?call with _ => _ end =>
        destruct call as [[r h2] t2]; exists t2
    end.
    subst x. unfold trace; cbn [snd].
    split; [reflexivity |]. split; [reflexivity |].
    intros Ho. now contradict Ho.
  - exists []. subst x. unfold trace, completion; cbn [fst snd].
    rewrite app_nil_r. repeat split; reflexivity.
  - exists []. subst x. unfold trace, completion; cbn [fst snd].
    rewrite app_nil_r. repeat split; reflexivity.
Qed.

(** C1 : when [options.validateArgs] is called and rejects (see
    [rejection_is_recorded]), [run] logs the error once, returns
    normally, and calls nothing after it : the only external calls are
    the prompt and [validateArgs], the only lifecycle method entered is
    [validateArgs]; so no [preInstall], [beforeEach], [afterEach],
    executor or [postInstall], and no success message. *)
Theorem validateArgs_rejection_ends_run (cliArgs args : CliArgs) (err : Err)
  (h : Heap) :
  In (Awaited (Hook (ValidateArgs args)) (Rejected err))
     (trace (run cliArgs h)) ->
  args = cliArgs
  /\ validateArgs (options (this h)) <> None
  /\ completion (run cliArgs h) = Normal tt
  /\ trace (run cliArgs h) =
       frontmatter_events (options (this h))
       ++ [Invoked (ValidateArgs cliArgs);
           Awaited (Hook (ValidateArgs cliArgs)) (Rejected err);
           LogError err]
  /\ errors_logged (trace (run cliArgs h)) = [err]
  /\ calls (trace (run cliArgs h)) =
       [WaitForConfirmation confirmation_prompt;
        Hook (ValidateArgs cliArgs)]
  /\ invocations (trace (run cliArgs h)) = [ValidateArgs cliArgs]
  /\ ~ In (Hook PreInstall) (calls (trace (run cliArgs h)))
  /\ ~ In (Hook PostInstall) (calls (trace (run cliArgs h)))
  /\ (forall c, In c (calls (trace (run cliArgs h))) ->
                is_each c = false /\ is_executor c = false)
  /\ successes (trace (run cliArgs h)) = [].
Proof.
  intros Hin.
  pose proof (run_stops cliArgs h) as Hstops.
  revert Hin.
  destruct Hstops as [ | before after c o Ho Hc Hfull
                       | hook err' after Hhook _]; intros Hin.
  - apply no_failure_run_events in Hin. discriminate.
  - apply in_app_or in Hin. destruct Hin as [Hin | [Heq | []]].
    + assert (Hin' : In (Awaited (Hook (ValidateArgs args)) (Rejected err))
                        (run_events (this h) cliArgs))
        by (rewrite Hfull; apply in_or_app; now left).
      apply no_failure_run_events in Hin'. discriminate.
    + injection Heq as -> ->. destruct Hc; discriminate.
  - assert (Hargs : args = cliArgs /\ err' = err).
    { apply in_app_or in Hin. destruct Hin as [Hin | Hin].
      - unfold before_validation, frontmatter_events, frontmatter_logs,
          confirmation in Hin.
        cbn in Hin. intuition discriminate.
      - cbn in Hin. destruct Hin as [Heq | [Heq | []]];
          [injection Heq as <- <-; now split | discriminate]. }
    destruct Hargs as [-> ->].
    split; [reflexivity |].
    split; [congruence |].
    split; [reflexivity |].
    split; [reflexivity |].
    split; [reflexivity |].
    split; [reflexivity |].
    split; [reflexivity |].
    cbn.
    split; [intuition discriminate |].
    split; [intuition discriminate |].
    split; [| reflexivity].
    intros c [<- | [<- | []]]; split; reflexivity.
Qed.

(** C3 : an error raised by [preInstall], [beforeEach], [afterEach],
    [postInstall] or an executor (by any awaited call other than
    [validateArgs]) is not caught : [run] ends by throwing it, the
    rejected call is the last thing that happened, what had happened
    before is the beginning of [run_events] up to that call, and no
    error and no success message is printed.  Unless the call is
    [postInstall] itself, [postInstall] is not called.  If the call is
    a per-step hook or an executor, the trace is made of the prologue,
    of all the events of the steps before some step, and of part of the
    events of that step : nothing of the later steps. *)
Theorem unguarded_failure_propagates (cliArgs : CliArgs) (c : Call)
  (err : Err) (h : Heap) :
  In (Awaited c (Rejected err)) (trace (run cliArgs h)) ->
  is_validateArgs c = false ->
  completion (run cliArgs h) = Throw err
  /\ (exists before after,
         run_events (this h) cliArgs = before ++ Awaited c Fulfilled :: after
         /\ trace (run cliArgs h) = before ++ [Awaited c (Rejected err)])
  /\ successes (trace (run cliArgs h)) = []
  /\ errors_logged (trace (run cliArgs h)) = []
  /\ (c <> Hook PostInstall -> ~ In (Hook PostInstall) (calls (trace (run cliArgs h))))
  /\ (is_each c || is_executor c = true ->
      exists pre step post b a,
        steps (this h) = pre ++ step :: post
        /\ step_events (options (this h)) cliArgs step
           = b ++ Awaited c Fulfilled :: a
        /\ trace (run cliArgs h) =
             prologue_events (this h) cliArgs
             ++ flat_map (step_events (options (this h)) cliArgs) pre
             ++ b ++ [Awaited c (Rejected err)]).
Proof.
  intros Hin Hc.
  pose proof (run_stops cliArgs h) as Hstops.
  revert Hin.
  destruct Hstops as [ | before after c0 o Ho _ Hfull
                       | hook err' after Hhook _]; intros Hin.
  - apply no_failure_run_events in Hin. discriminate.
  - apply in_app_or in Hin. destruct Hin as [Hin | [Heq | []]].
    { assert (Hin' : In (Awaited c (Rejected err))
                        (run_events (this h) cliArgs))
        by (rewrite Hfull; apply in_or_app; now left).
      apply no_failure_run_events in Hin'. discriminate. }
    injection Heq as -> ->. clear Ho.
    destruct (run_events_cut_silent _ _ _ Hfull) as [Hsucc Herr].
    split; [reflexivity |].
    split; [now exists before, after |].
    split; [rewrite successes_app, Hsucc; reflexivity |].
    split; [rewrite errors_logged_app, Herr; reflexivity |].
    rewrite run_events_parts in Hfull.
    split.
    + intros Hpost Hcall.
      rewrite calls_app in Hcall. apply in_app_or in Hcall.
      destruct Hcall as [Hcall | [Heq | []]]; [| congruence].
      rewrite app_assoc in Hfull.
      apply split_in_prefix in Hfull.
      2: { intros H. now apply in_epilogue_events in H. }
      destruct Hfull as [rest [Hfull _]].
      apply in_calls_inv in Hcall. destruct Hcall as [o Hcall].
      assert (Hin : In (Awaited (Hook PostInstall) o)
                       (prologue_events (this h) cliArgs
                        ++ flat_map (step_events (options (this h)) cliArgs)
                                    (steps (this h))))
        by (rewrite Hfull; apply in_or_app; now left).
      apply in_app_or in Hin. destruct Hin as [Hin | Hin].
      * apply in_prologue_events in Hin.
        destruct Hin as [Hin | [Hin | Hin]]; discriminate.
      * apply in_steps_events in Hin. discriminate.
    + intros Hstep.
      apply split_in_suffix in Hfull.
      2: { intros H. apply in_prologue_events in H.
           destruct H as [-> | [-> | ->]]; discriminate. }
      destruct Hfull as [rest [-> Hfull]].
      apply split_in_prefix in Hfull.
      2: { intros H. apply in_epilogue_events in H. subst c.
           discriminate. }
      destruct Hfull as [rest' [Hfull _]].
      apply split_flat_map in Hfull.
      destruct Hfull as (pre & step & post & b & a & Hsteps & Hev & -> & _).
      exists pre, step, post, b, a.
      split; [assumption |]. split; [assumption |].
      now rewrite <- !app_assoc.
  - exfalso. apply in_app_or in Hin. destruct Hin as [Hin | Hin].
    + unfold frontmatter_events, frontmatter_logs, confirmation in Hin.
      cbn in Hin. intuition discriminate.
    + cbn in Hin. destruct Hin as [Heq | [Heq | []]]; [| discriminate].
      injection Heq as <- _. discriminate.
Qed.


(** C6 : the phases of [run] come in one order : the frontmatter and
    the confirmation prompt, [validateArgs], [preInstall], then for each
    step in sequence a blank line, [beforeEach], the step's frontmatter,
    the dispatch and [afterEach], then [postInstall], a blank line and
    the success message naming the package.  A run that completes has
    exactly these events.  Any run has the first of them, all fulfilled,
    up to the first awaited call that is not fulfilled, where it stops :
    nothing begins before what precedes it has completed.  (A rejection
    by [validateArgs] is followed by the error being logged.) *)
Theorem run_phase_order (cliArgs : CliArgs) (h : Heap) :
  run_events (this h) cliArgs =
    frontmatter_logs (options (this h))
    ++ [Awaited (WaitForConfirmation confirmation_prompt) Fulfilled]
    ++ hook_events (validateArgs (options (this h))) (ValidateArgs cliArgs)
    ++ hook_events (preInstall (options (this h))) PreInstall
    ++ flat_map (fun step =>
                   [ConsoleLog]
                   ++ hook_events (beforeEach (options (this h)))
                                  (BeforeEach (stepId step))
                   ++ [LogExecutorFrontmatter step]
                   ++ dispatch_events cliArgs step
                   ++ hook_events (afterEach (options (this h)))
                                  (AfterEach (stepId step)))
                (steps (this h))
    ++ hook_events (postInstall (options (this h))) PostInstall
    ++ [ConsoleLog;
        LogSuccess ("Installer complete, "
                    ++ packageName (options (this h))
                    ++ " is now be configured for your app!")%string]
  /\ (completes (run cliArgs h) ->
      trace (run cliArgs h) = run_events (this h) cliArgs)
  /\ ((completion (run cliArgs h) = Normal tt
       /\ trace (run cliArgs h) = run_events (this h) cliArgs)
      \/ (exists before after c o,
             o <> Fulfilled
             /\ run_events (this h) cliArgs
                = before ++ Awaited c Fulfilled :: after
             /\ no_failure before
             /\ ((completion (run cliArgs h) = completion_of o
                  /\ trace (run cliArgs h) = before ++ [Awaited c o]
                  /\ (is_validateArgs c = false \/ o = NeverSettles))
                 \/ (exists err,
                        c = Hook (ValidateArgs cliArgs)
                        /\ o = Rejected err
                        /\ completion (run cliArgs h) = Normal tt
                        /\ trace (run cliArgs h)
                           = before ++ [Awaited c o; LogError err])))).
Proof.
  split.
  { unfold run_events, install_events, frontmatter_events, confirmation.
    now rewrite <- !app_assoc. }
  split; [apply completes_run_events |].
  assert (Hbefore : forall before after c,
             run_events (this h) cliArgs
             = before ++ Awaited c Fulfilled :: after ->
             no_failure before).
  { intros before after c Hfull c' o' Hin.
    apply (@no_failure_run_events (this h) cliArgs c' o').
    rewrite Hfull. apply in_or_app. now left. }
  pose proof (run_stops cliArgs h) as Hstops.
  destruct Hstops as [ | before after c o Ho Hc Hfull
                       | hook err after Hhook Hfull].
  - left. now split.
  - right. exists before, after, c, o.
    split; [assumption |]. split; [assumption |].
    split; [now apply Hbefore with (after := after) (c := c) |].
    left. now repeat split.
  - right.
    exists (before_validation (options (this h)) cliArgs), after,
           (Hook (ValidateArgs cliArgs)), (Rejected err).
    split; [discriminate |]. split; [assumption |].
    split; [now apply Hbefore with (after := after)
                                   (c := Hook (ValidateArgs cliArgs)) |].
    right. exists err. now repeat split.
Qed.

(** C5 : a lifecycle method whose hook is absent does nothing : it
    returns at once, leaves the heap as it is and makes no call (its
    only event is the mark of its own entry); in a call of [run] an
    absent hook is never called.  Without [validateArgs] the validation
    phase always lets [run] go on : [run] is the frontmatter phase
    followed by the installation phase, and no error is logged. *)
Theorem absent_hook_is_noop (cliArgs : CliArgs) (id : StepId) (h : Heap) :
  (validateArgs (options (this h)) = None ->
   this_validateArgs cliArgs h
   = (Normal tt, h, [Invoked (ValidateArgs cliArgs)])
   /\ validation cliArgs h
      = (Normal true, h, [Invoked (ValidateArgs cliArgs)])
   /\ run cliArgs h
      = (displayFrontmatter ;;
         entered (ValidateArgs cliArgs) ;;
         install cliArgs) h
   /\ errors_logged (trace (run cliArgs h)) = []
   /\ forall args,
        ~ In (Hook (ValidateArgs args)) (calls (trace (run cliArgs h))))
  /\ (preInstall (options (this h)) = None ->
      this_preInstall h = (Normal tt, h, [Invoked PreInstall])
      /\ ~ In (Hook PreInstall) (calls (trace (run cliArgs h))))
  /\ (beforeEach (options (this h)) = None ->
      this_beforeEach id h = (Normal tt, h, [Invoked (BeforeEach id)])
      /\ forall id',
           ~ In (Hook (BeforeEach id')) (calls (trace (run cliArgs h))))
  /\ (afterEach (options (this h)) = None ->
      this_afterEach id h = (Normal tt, h, [Invoked (AfterEach id)])
      /\ forall id',
           ~ In (Hook (AfterEach id')) (calls (trace (run cliArgs h))))
  /\ (postInstall (options (this h)) = None ->
      this_postInstall h = (Normal tt, h, [Invoked PostInstall])
      /\ ~ In (Hook PostInstall) (calls (trace (run cliArgs h)))).
Proof.
  assert (Hexec : forall st c,
             In c (dispatch_calls cliArgs st) -> is_executor c = true).
  { intros st c. unfold dispatch_calls.
    destruct (first_match st) as [[ | | ] | ]; cbn; try tauto;
      intros [<- | []]; reflexivity. }
  assert (Hcalls : forall c,
             In c (calls (trace (run cliArgs h))) ->
             In c (run_calls (this h) cliArgs))
    by (intros c; apply in_trace_run_calls).
  repeat split.
  - unfold this_validateArgs, bind, get_this, entered, emit. cbn.
    now rewrite H.
  - rewrite validation_eq. now rewrite H.
  - rewrite run_unfold.
    apply bind_congr. intros [] h1 t1 H1.
    assert (Hthis : this h1 = this h).
    { pose proof (follows_displayFrontmatter h) as [Hthis _].
      now rewrite H1 in Hthis. }
    unfold bind. rewrite validation_eq, Hthis, H.
    unfold entered, emit.
    now destruct (install cliArgs h1) as [[r2 h2] t2].
  - now apply errors_logged_run.
  - intros args Hin. apply Hcalls, in_run_calls in Hin.
    destruct Hin as [Hin | [[_ Hin] | [[Hin _] | [Hin | [Hin _]]]]];
      try discriminate; [contradiction |].
    destruct Hin as [st [_ [[Hin _] | [Hin | [Hin _]]]]];
      try discriminate.
    apply Hexec in Hin. discriminate.
  - unfold this_preInstall, bind, get_this, entered, emit. cbn.
    now rewrite H.
  - intros Hin. apply Hcalls, in_run_calls in Hin.
    destruct Hin as [Hin | [[Hin _] | [[_ Hin] | [Hin | [Hin _]]]]];
      try discriminate; [contradiction |].
    destruct Hin as [st [_ [[Hin _] | [Hin | [Hin _]]]]];
      try discriminate.
    apply Hexec in Hin. discriminate.
  - unfold this_beforeEach, bind, get_this, entered, emit. cbn.
    now rewrite H.
  - intros id' Hin. apply Hcalls, in_run_calls in Hin.
    destruct Hin as [Hin | [[Hin _] | [[Hin _] | [Hin | [Hin _]]]]];
      try discriminate.
    destruct Hin as [st [_ [[_ Hin] | [Hin | [Hin _]]]]];
      try discriminate; [contradiction |].
    apply Hexec in Hin. discriminate.
  - unfold this_afterEach, bind, get_this, entered, emit. cbn.
    now rewrite H.
  - intros id' Hin. apply Hcalls, in_run_calls in Hin.
    destruct Hin as [Hin | [[Hin _] | [[Hin _] | [Hin | [Hin _]]]]];
      try discriminate.
    destruct Hin as [st [_ [[Hin _] | [Hin | [_ Hin]]]]];
      try discriminate; [| contradiction].
    apply Hexec in Hin. discriminate.
  - unfold this_postInstall, bind, get_this, entered, emit. cbn.
    now rewrite H.
  - intros Hin. apply Hcalls, in_run_calls in Hin.
    destruct Hin as [Hin | [[Hin _] | [[Hin _] | [Hin | [_ Hin]]]]];
      try discriminate; [| contradiction].
    destruct Hin as [st [_ [[Hin _] | [Hin | [Hin _]]]]];
      try discriminate.
    apply Hexec in Hin. discriminate.
Qed.


(** * Further properties of [run] *)

(** ** The world is touched by the collaborators only *)

Lemma replays_app (opts : InstallerOptions) (t1 t2 : list Event) :
  forall w w1 w2,
    replays opts t1 w w1 -> replays opts t2 w1 w2 ->
    replays opts (t1 ++ t2) w w2.
Proof.
  induction t1 as [ | ev t1 IH]; intros w w1 w2 H1 H2; cbn in *.
  - now subst w1.
  - destruct ev as [ | | | | | | | c o]; try (now apply IH with (w1 := w1)).
    destruct H1 as (f & Hf & Ho & H1).
    exists f. split; [assumption |]. split; [assumption |].
    now apply IH with (w1 := w1).
Qed.

Lemma threads_ret (A : Type) (h : Heap) (a : A) : threads h (ret a).
Proof. now split. Qed.

Lemma threads_emit (h : Heap) (ev : Event) :
  (forall c o, ev <> Awaited c o) -> threads h (emit ev).
Proof.
  intros Hev. split; [reflexivity |].
  unfold emit, trace, final_heap; cbn.
  destruct ev; try reflexivity. now contradiction (Hev c o).
Qed.

Lemma threads_await (h : Heap) (c : Call) (f : Async) :
  collaborator (options (this h)) c = Some f -> threads h (await c f).
Proof.
  intros Hf. unfold threads, await, trace, final_heap.
  destruct (f (world h)) as [o w] eqn:Hcall; cbn.
  split; [reflexivity |].
  exists f. rewrite Hcall. now repeat split.
Qed.

Lemma threads_bind (A B : Type) (h : Heap) (m : M A) (k : A -> M B) :
  threads h m ->
  (forall a h1, this h1 = this h -> threads h1 (k a)) ->
  threads h (bind m k).
Proof.
  unfold threads, bind, trace, final_heap.
  destruct (m h) as [[r h1] t1]; cbn.
  intros [Hthis Hreplays] Hk.
  destruct r as [a | err | ]; [| now split | now split].
  specialize (Hk a h1 Hthis).
  destruct (k a h1) as [[r2 h2] t2]; cbn in *.
  destruct Hk as [Hthis2 Hreplays2].
  split; [congruence |].
  apply replays_app with (w1 := world h1); [assumption |].
  now rewrite <- Hthis.
Qed.

Lemma threads_try_catch (A : Type) (h : Heap) (m : M A)
  (handler : Err -> M A) :
  threads h m ->
  (forall err h1, this h1 = this h -> threads h1 (handler err)) ->
  threads h (try_catch m handler).
Proof.
  unfold threads, try_catch, trace, final_heap.
  destruct (m h) as [[r h1] t1]; cbn.
  intros [Hthis Hreplays] Hhandler.
  destruct r as [a | err | ]; [now split | | now split].
  specialize (Hhandler err h1 Hthis).
  destruct (handler err h1) as [[r2 h2] t2]; cbn in *.
  destruct Hhandler as [Hthis2 Hreplays2].
  split; [congruence |].
  apply replays_app with (w1 := world h1); [assumption |].
  now rewrite <- Hthis.
Qed.

Lemma threads_this (B : Type) (h : Heap) (k : Installer -> M B) :
  threads h (k (this h)) -> threads h (bind get_this k).
Proof.
  unfold threads. now rewrite bind_get_this.
Qed.

Lemma threads_for_of (A : Type) (body : A -> M unit) (xs : list A) :
  forall h : Heap,
    (forall x h1, this h1 = this h -> threads h1 (body x)) ->
    threads h (for_of xs body).
Proof.
  induction xs as [ | x rest IH]; intros h Hbody; cbn [for_of].
  - apply threads_ret.
  - apply threads_bind; [now apply Hbody |].
    intros [] h1 H1. apply IH.
    intros y h2 H2. apply Hbody. congruence.
Qed.

Lemma option_map_self (A : Type) (x : option A) :
  x = option_map (fun a => a) x.
Proof. now destruct x. Qed.

Lemma threads_hook (A : Type) (h : Heap)
  (field : InstallerOptions -> option A) (l : Lifecycle)
  (call : A -> Async) :
  hook_of (options (this h)) l
  = option_map call (field (options (this h))) ->
  threads h (entered l ;;
             self <- get_this ;;
             match field (options self) with
             | Some f => await (Hook l) (call f)
             | None => ret tt
             end).
Proof.
  intros Hhook.
  apply threads_bind; [apply threads_emit; discriminate |].
  intros [] h1 H1. apply threads_this. rewrite H1.
  destruct (field (options (this h))) as [f | ] eqn:Hfield.
  - apply threads_await. cbn. now rewrite H1, Hhook.
  - apply threads_ret.
Qed.

Lemma threads_iteration (h : Heap) (cliArgs : CliArgs) (step : Executor) :
  threads h (iteration cliArgs step).
Proof.
  unfold iteration.
  apply threads_bind; [apply threads_emit; discriminate |].
  intros [] h1 H1.
  apply threads_bind.
  { exact (threads_hook h1 (@beforeEach) (BeforeEach (stepId step))
                        (fun f => f (stepId step)) eq_refl). }
  intros [] h2 H2.
  apply threads_bind; [apply threads_emit; discriminate |].
  intros [] h3 H3.
  apply threads_bind.
  { unfold dispatch.
    destruct (isFileTransformExecutor step);
      [now apply threads_await |].
    destruct (isAddDependencyExecutor step);
      [now apply threads_await |].
    destruct (isNewFileExecutor step);
      [now apply threads_await | apply threads_ret]. }
  intros [] h4 H4.
  exact (threads_hook h4 (@afterEach) (AfterEach (stepId step))
                      (fun f => f (stepId step)) eq_refl).
Qed.

Lemma threads_displayFrontmatter (h : Heap) : threads h displayFrontmatter.
Proof.
  unfold displayFrontmatter. apply threads_this.
  repeat (apply threads_bind;
          [apply threads_emit; discriminate | intros [] ? _]).
  now apply threads_await.
Qed.

Lemma threads_run (cliArgs : CliArgs) (h : Heap) : threads h (run cliArgs).
Proof.
  rewrite run_unfold.
  apply threads_bind; [apply threads_displayFrontmatter |].
  intros [] h1 H1.
  apply threads_bind.
  { unfold validation. apply threads_try_catch.
    - apply threads_bind; [| intros; apply threads_ret].
      exact (threads_hook h1 (@validateArgs) (ValidateArgs cliArgs)
                          (fun f => f cliArgs) eq_refl).
    - intros err h2 H2.
      apply threads_bind; [apply threads_emit; discriminate |].
      intros; apply threads_ret. }
  intros proceed h2 H2.
  destruct proceed; [| apply threads_ret].
  unfold install.
  apply threads_bind.
  { exact (threads_hook h2 (@preInstall) PreInstall (fun f => f)
                        (option_map_self _)). }
  intros [] h3 H3. apply threads_this.
  apply threads_bind.
  { apply threads_for_of. intros step h4 H4. apply threads_iteration. }
  intros [] h4 H4.
  apply threads_bind.
  { exact (threads_hook h4 (@postInstall) PostInstall (fun f => f)
                        (option_map_self _)). }
  intros [] h5 H5.
  apply threads_bind; [apply threads_emit; discriminate |].
  intros [] h6 H6. apply threads_this.
  apply threads_emit; discriminate.
Qed.

(** X1 : [run] and [displayFrontmatter] touch the world through the
    collaborators only.  The awaited calls of the trace, made one after
    the other from the initial world, each in the world its predecessor
    left, give the outcomes the trace records and end in the final
    world; a hook that is called is a hook the options have. *)
Theorem run_replays_collaborators (cliArgs : CliArgs) (h : Heap) :
  replays (options (this h)) (trace (run cliArgs h))
          (world h) (world (final_heap (run cliArgs h)))
  /\ replays (options (this h)) (trace (displayFrontmatter h))
             (world h) (world (final_heap (displayFrontmatter h))).
Proof.
  split; [apply threads_run | apply threads_displayFrontmatter].
Qed.

(** ** How a call of [run] can end *)

Lemma reports_run_events (self : Installer) (cliArgs : CliArgs) :
  successes (run_events self cliArgs) = [success_message (options self)]
  /\ errors_logged (run_events self cliArgs) = [].
Proof.
  rewrite run_events_parts. unfold epilogue_events.
  rewrite !successes_app, !errors_logged_app.
  destruct (no_report_silent (no_report_prologue_events self cliArgs))
    as [-> ->].
  destruct (no_report_silent
              (no_report_steps_events (options self) cliArgs (steps self)))
    as [-> ->].
  destruct (no_report_silent
              (no_report_hook_events (postInstall (options self))
                                     PostInstall)) as [-> ->].
  now split.
Qed.

Lemma run_events_completes (cliArgs : CliArgs) (h : Heap) :
  completion (run cliArgs h) = Normal tt ->
  trace (run cliArgs h) = run_events (this h) cliArgs ->
  completes (run cliArgs h).
Proof.
  intros Hnormal Htrace. split; [assumption |].
  rewrite Htrace. apply no_failure_run_events.
Qed.

(** The last event of a run that did not go through all its events. *)
Lemma not_completes_stuck (before : list Event) (c : Call) (o : Outcome)
  (x : Completion unit * Heap * list Event) :
  o <> Fulfilled -> trace x = before ++ [Awaited c o] -> ~ completes x.
Proof.
  intros Ho Htrace [_ Hok]. apply Ho, (Hok c o).
  rewrite Htrace. apply in_or_app. right. now left.
Qed.

(** X2 : an error [run] throws is an error one of the calls outside the
    [try] was rejected with : the trace ends with that rejected call,
    which is not a call of [validateArgs], and everything before it was
    fulfilled.  [run] has no error of its own. *)
Theorem thrown_error_origin (cliArgs : CliArgs) (err : Err) (h : Heap) :
  completion (run cliArgs h) = Throw err ->
  exists before after c,
    is_validateArgs c = false
    /\ no_failure before
    /\ run_events (this h) cliArgs = before ++ Awaited c Fulfilled :: after
    /\ trace (run cliArgs h) = before ++ [Awaited c (Rejected err)].
Proof.
  intros Hthrow.
  pose proof (run_stops cliArgs h) as Hstops.
  rewrite Hthrow in Hstops.
  inversion Hstops as [ | before after c o Ho Hc Hfull Hr Ht | ]; subst.
  destruct o as [ | err' | ]; try discriminate.
  injection Hr as ->.
  destruct Hc as [Hc | Hc]; [| discriminate].
  exists before, after, c.
  split; [assumption |]. split; [| now split].
  intros c' o' Hin.
  apply (@no_failure_run_events (this h) cliArgs c' o').
  rewrite Hfull. apply in_or_app. now left.
Qed.

(** X3 : [run] never settles exactly when the last thing it did was to
    await a call that never settles.  The [try] around the validation
    does not help : a [validateArgs] hook that never settles leaves
    [run] pending, with nothing logged. *)
Theorem run_pending_iff (cliArgs : CliArgs) (h : Heap) :
  (completion (run cliArgs h) = Pending <->
   exists before c, trace (run cliArgs h) = before ++ [Awaited c NeverSettles])
  /\ (forall hook,
         validateArgs (options (this h)) = Some hook ->
         fst (waitForConfirmation confirmation_prompt (world h))
         = Fulfilled ->
         fst (hook cliArgs (snd (waitForConfirmation confirmation_prompt
                                                     (world h))))
         = NeverSettles ->
         completion (run cliArgs h) = Pending
         /\ errors_logged (trace (run cliArgs h)) = []
         /\ calls (trace (run cliArgs h)) =
              [WaitForConfirmation confirmation_prompt;
               Hook (ValidateArgs cliArgs)]).
Proof.
  split.
  - pose proof (run_stops cliArgs h) as Hstops.
    split.
    + intros Hpending. rewrite Hpending in Hstops.
      inversion Hstops as [ | before after c o Ho Hc Hfull Hr Ht | ]; subst.
      destruct o; try discriminate. now exists before, c.
    + intros (before & c & Htrace).
      remember (completion (run cliArgs h)) as r eqn:Hr.
      remember (trace (run cliArgs h)) as t eqn:Ht.
      clear Hr Ht. revert Htrace.
      destruct Hstops as [ | before' after c' o' Ho Hc Hfull
                           | hook err after Hhook Hfull]; intros Htrace.
      * assert (Hin : In (Awaited c NeverSettles)
                         (run_events (this h) cliArgs))
          by (rewrite Htrace; apply in_or_app; right; now left).
        apply no_failure_run_events in Hin. discriminate.
      * apply app_inj_tail in Htrace. destruct Htrace as [_ Htrace].
        injection Htrace as _ ->. reflexivity.
      * change [Awaited (Hook (ValidateArgs cliArgs)) (Rejected err);
                LogError err]
          with ([Awaited (Hook (ValidateArgs cliArgs)) (Rejected err)]
                ++ [LogError err]) in Htrace.
        rewrite app_assoc in Htrace.
        apply app_inj_tail in Htrace. destruct Htrace as [_ Htrace].
        discriminate.
  - intros hook Hhook Hconfirmed Hhangs.
    remember (run cliArgs h) as x eqn:Hx.
    rewrite run_unfold in Hx. unfold bind in Hx.
    rewrite displayFrontmatter_eq, Hconfirmed in Hx.
    cbn [completion_of] in Hx.
    rewrite validation_eq in Hx. cbn [this world] in Hx.
    rewrite Hhook, Hhangs in Hx.
    cbn [validation_result validation_events] in Hx.
    subst x. now repeat split.
Qed.

(** X4 : the success message is printed exactly when [run] went through
    all its events with every awaited call fulfilled, and it is then the
    last event.  A normal return alone does not say so : [run] returns
    normally when it completes and also when [validateArgs] rejected. *)
Theorem success_message_iff_completes (cliArgs : CliArgs) (h : Heap) :
  (completes (run cliArgs h) <->
   successes (trace (run cliArgs h))
   = [success_message (options (this h))])
  /\ (~ completes (run cliArgs h) ->
      successes (trace (run cliArgs h)) = [])
  /\ (completes (run cliArgs h) ->
      exists before,
        trace (run cliArgs h)
        = before ++ [LogSuccess (success_message (options (this h)))])
  /\ (completion (run cliArgs h) = Normal tt <->
      completes (run cliArgs h)
      \/ exists err,
           In (Awaited (Hook (ValidateArgs cliArgs)) (Rejected err))
              (trace (run cliArgs h))).
Proof.
  pose proof (run_stops cliArgs h) as Hstops.
  assert (Hcases :
            (completes (run cliArgs h)
             /\ trace (run cliArgs h) = run_events (this h) cliArgs)
            \/ (~ completes (run cliArgs h)
                /\ successes (trace (run cliArgs h)) = []
                /\ (completion (run cliArgs h) = Normal tt <->
                    exists err,
                      In (Awaited (Hook (ValidateArgs cliArgs))
                                  (Rejected err))
                         (trace (run cliArgs h))))).
  { remember (completion (run cliArgs h)) as r eqn:Hr.
    remember (trace (run cliArgs h)) as t eqn:Ht.
    destruct Hstops as [ | before after c o Ho Hc Hfull
                         | hook err after Hhook Hfull].
    - left. split; [| reflexivity].
      apply run_events_completes; now symmetry.
    - right.
      assert (Hnot : ~ completes (run cliArgs h)).
      { apply not_completes_stuck with (before := before) (c := c) (o := o);
          [assumption | now symmetry]. }
      split; [exact Hnot |].
      destruct (run_events_cut_silent _ _ _ Hfull) as [Hsucc _].
      split; [now rewrite successes_app, Hsucc |].
      split.
      + intros Hnormal. destruct o; [now contradiction Ho | |];
          discriminate.
      + intros [err Hin]. exfalso.
        apply in_app_or in Hin. destruct Hin as [Hin | [Hin | []]].
        * assert (Hin' : In (Awaited (Hook (ValidateArgs cliArgs))
                                     (Rejected err))
                            (run_events (this h) cliArgs))
            by (rewrite Hfull; apply in_or_app; now left).
          apply no_failure_run_events in Hin'. discriminate.
        * injection Hin as -> ->. destruct Hc; discriminate.
    - right.
      assert (Hin : In (Awaited (Hook (ValidateArgs cliArgs)) (Rejected err))
                       (before_validation (options (this h)) cliArgs
                        ++ [Awaited (Hook (ValidateArgs cliArgs))
                                    (Rejected err);
                            LogError err]))
        by (apply in_or_app; right; now left).
      split.
      { intros [_ Hok]. rewrite <- Ht in Hok.
        apply Hok in Hin. discriminate. }
      split; [reflexivity |].
      split; [intros _; now exists err | reflexivity]. }
  destruct (reports_run_events (this h) cliArgs) as [Hsucc _].
  destruct Hcases as [[Hok Htrace] | (Hnot & Hnone & Hnormal)].
  - split; [split; [intros _; now rewrite Htrace | now intros _] |].
    split; [now intros Hnot |].
    split.
    + intros _. rewrite Htrace, run_events_parts.
      unfold epilogue_events, success_events.
      exists (prologue_events (this h) cliArgs
              ++ flat_map (step_events (options (this h)) cliArgs)
                          (steps (this h))
              ++ hook_events (postInstall (options (this h))) PostInstall
              ++ [ConsoleLog]).
      now rewrite <- !app_assoc.
    + split; [intros _; now left |]. intros _. apply Hok.
  - split.
    { split; [intros Hok; now contradiction Hnot |].
      rewrite Hnone. discriminate. }
    split; [now intros _ |].
    split; [intros Hok; now contradiction Hnot |].
    split.
    + intros Hn. right. now apply Hnormal.
    + intros [Hok | Hrej]; [now contradiction Hnot | now apply Hnormal].
Qed.

(** X5 : [run] logs an error for one reason only, a rejection by
    [validateArgs], and then logs exactly one, last, and returns
    normally; in every other run no error is logged, whatever fails. *)
Theorem error_logged_only_on_rejection (cliArgs : CliArgs) (h : Heap) :
  errors_logged (trace (run cliArgs h)) = []
  \/ exists err,
       errors_logged (trace (run cliArgs h)) = [err]
       /\ completion (run cliArgs h) = Normal tt
       /\ trace (run cliArgs h) =
            before_validation (options (this h)) cliArgs
            ++ [Awaited (Hook (ValidateArgs cliArgs)) (Rejected err);
                LogError err].
Proof.
  pose proof (run_stops cliArgs h) as Hstops.
  destruct Hstops as [ | before after c o Ho Hc Hfull
                       | hook err after Hhook Hfull].
  - left. apply reports_run_events.
  - left. destruct (run_events_cut_silent _ _ _ Hfull) as [_ Herr].
    now rewrite errors_logged_app, Herr.
  - right. exists err. now repeat split.
Qed.

(** ** What [run] calls *)

Lemma in_dispatch_calls (cliArgs : CliArgs) (step : Executor) (c : Call) :
  In c (dispatch_calls cliArgs step) ->
  (c = FileTransformExecutor step cliArgs
   /\ isFileTransformExecutor step = true)
  \/ (c = AddDependencyExecutor step cliArgs
      /\ isFileTransformExecutor step = false
      /\ isAddDependencyExecutor step = true)
  \/ (c = NewFileExecutor step cliArgs
      /\ isFileTransformExecutor step = false
      /\ isAddDependencyExecutor step = false
      /\ isNewFileExecutor step = true).
Proof.
  unfold dispatch_calls, first_match; cbn.
  destruct (isFileTransformExecutor step); cbn.
  { intros [<- | []]. left. now split. }
  destruct (isAddDependencyExecutor step); cbn.
  { intros [<- | []]. right. left. now repeat split. }
  destruct (isNewFileExecutor step); cbn.
  { intros [<- | []]. right. right. now repeat split. }
  intros [].
Qed.

(** X6 : every external call of a run is legitimate : the prompt is
    asked with its fixed text; a hook that is called is present in the
    options; [validateArgs] and the executors receive the arguments
    [run] was given; [beforeEach] and [afterEach] receive the id of one
    of the installer's steps; an executor is only called on one of the
    installer's steps, and only the executor of the first predicate
    that holds of the step. *)
Theorem calls_are_legitimate (cliArgs : CliArgs) (h : Heap) (c : Call) :
  In c (calls (trace (run cliArgs h))) ->
  legitimate (this h) cliArgs c.
Proof.
  intros Hin. apply in_trace_run_calls, in_run_calls in Hin.
  destruct Hin as [-> | [[-> Hv] | [[-> Hpre] | [Hstep | [-> Hpost]]]]];
    cbn; try tauto.
  destruct Hstep as [step [Hstep [[-> Hb] | [Hd | [-> Ha]]]]]; cbn.
  - split; [assumption |]. now exists step.
  - apply in_dispatch_calls in Hd.
    destruct Hd as [[-> Hft] | [(-> & Hft & Had) | (-> & Hft & Had & Hnf)]];
      cbn; now repeat split.
  - split; [assumption |]. now exists step.
Qed.

(** ** How far a run went *)

Lemma rendered_app (t1 t2 : list Event) :
  rendered (t1 ++ t2) = rendered t1 ++ rendered t2.
Proof. apply flat_map_app. Qed.

Lemma rendered_hook_events (A : Type) (hook : option A) (l : Lifecycle) :
  rendered (hook_events hook l) = [].
Proof. now destruct hook. Qed.

Lemma rendered_step_events (opts : InstallerOptions) (cliArgs : CliArgs)
  (step : Executor) :
  rendered (step_events opts cliArgs step) = [step].
Proof.
  unfold step_events.
  rewrite !rendered_app, !rendered_hook_events.
  assert (Hnone : rendered (dispatch_events cliArgs step) = []).
  { unfold dispatch_events.
    now induction (dispatch_calls cliArgs step) as [ | c rest IH]. }
  now rewrite Hnone.
Qed.

Lemma rendered_steps_events (opts : InstallerOptions) (cliArgs : CliArgs)
  (sts : list Executor) :
  rendered (flat_map (step_events opts cliArgs) sts) = sts.
Proof.
  induction sts as [ | step rest IH]; cbn [flat_map]; [reflexivity |].
  now rewrite rendered_app, rendered_step_events, IH.
Qed.

Lemma rendered_run_events (self : Installer) (cliArgs : CliArgs) :
  rendered (run_events self cliArgs) = steps self.
Proof.
  rewrite run_events_parts.
  unfold prologue_events, epilogue_events.
  rewrite !rendered_app, !rendered_hook_events, rendered_steps_events.
  cbn. now rewrite app_nil_r.
Qed.

Lemma executor_calls_run_events (self : Installer) (cliArgs : CliArgs) :
  filter is_executor (calls (run_events self cliArgs))
  = flat_map (dispatch_calls cliArgs) (steps self).
Proof.
  rewrite calls_run_events, filter_run_calls by reflexivity.
  apply flat_map_ext. intros step. unfold step_calls.
  rewrite !filter_app, !filter_hook_calls by reflexivity.
  destruct (is_executor_dispatch_calls cliArgs step) as (-> & _).
  now rewrite app_nil_r.
Qed.

Lemma per_step_run_events (self : Installer) (cliArgs : CliArgs) :
  filter per_step (invocations (run_events self cliArgs))
  = step_points (steps self).
Proof.
  rewrite invocations_run_events, !filter_app. cbn [filter].
  cbn. rewrite app_nil_r. unfold step_points.
  rewrite filter_flat_map.
  rewrite <- (flat_map_ext (fun step => [BeforeEach (stepId step);
                                         AfterEach (stepId step)])).
  - reflexivity.
  - reflexivity.
Qed.

(** The events [run] went through, all fulfilled : a beginning of
    [run_events] with the calls, the method entries and the rendered
    frontmatters of the trace. *)
Lemma run_reached (cliArgs : CliArgs) (h : Heap) :
  exists reached rest,
    run_events (this h) cliArgs = reached ++ rest
    /\ calls reached = calls (trace (run cliArgs h))
    /\ invocations reached = invocations (trace (run cliArgs h))
    /\ rendered reached = rendered (trace (run cliArgs h)).
Proof.
  pose proof (run_stops cliArgs h) as Hstops.
  destruct Hstops as [ | before after c o _ _ Hfull
                       | hook err after _ Hfull].
  - exists (run_events (this h) cliArgs), [].
    now rewrite app_nil_r.
  - exists (before ++ [Awaited c Fulfilled]), after.
    rewrite <- app_assoc. split; [exact Hfull |].
    now rewrite !calls_app, !invocations_app, !rendered_app.
  - exists (before_validation (options (this h)) cliArgs
            ++ [Awaited (Hook (ValidateArgs cliArgs)) Fulfilled]), after.
    rewrite <- app_assoc. split; [exact Hfull |].
    now rewrite !calls_app, !invocations_app, !rendered_app.
Qed.

(** ** A step's frontmatter and its executor go together *)

Lemma trace_bind (A B : Type) (m : M A) (k : A -> M B) (h : Heap) :
  trace (bind m k h) =
  trace (m h)
  ++ match completion (m h) with
     | Normal a => trace (k a (final_heap (m h)))
     | _ => []
     end.
Proof.
  unfold bind, trace, completion, final_heap.
  destruct (m h) as [[r h1] t1]; cbn.
  destruct r as [a | err | ]; cbn; [| now rewrite app_nil_r ..].
  now destruct (k a h1) as [[r2 h2] t2].
Qed.

Lemma paired_app (cliArgs : CliArgs) (t1 t2 : list Event) :
  paired cliArgs t1 -> paired cliArgs t2 -> paired cliArgs (t1 ++ t2).
Proof.
  unfold paired. intros H1 H2.
  now rewrite calls_app, filter_app, rendered_app, flat_map_app, H1, H2.
Qed.

Lemma paired_stepless (cliArgs : CliArgs) (t : list Event) :
  stepless t -> paired cliArgs t.
Proof. unfold paired. now intros [-> ->]. Qed.

Lemma paired_nil (cliArgs : CliArgs) : paired cliArgs [].
Proof. reflexivity. Qed.

Lemma paired_bind (A B : Type) (cliArgs : CliArgs) (m : M A)
  (k : A -> M B) (h : Heap) :
  paired cliArgs (trace (m h)) ->
  (forall a h1, paired cliArgs (trace (k a h1))) ->
  paired cliArgs (trace (bind m k h)).
Proof.
  intros Hm Hk. rewrite trace_bind. apply paired_app; [assumption |].
  destruct (completion (m h)); [apply Hk | apply paired_nil ..].
Qed.

Lemma stepless_hook (A : Type) (h : Heap)
  (field : InstallerOptions -> option A) (l : Lifecycle)
  (call : A -> Async) :
  stepless (trace ((entered l ;;
                    self <- get_this ;;
                    match field (options self) with
                    | Some f => await (Hook l) (call f)
                    | None => ret tt
                    end) h)).
Proof.
  unfold bind, entered, emit, get_this, await, ret, trace; cbn.
  destruct (field (options (this h))) as [f | ]; cbn; [| now split].
  destruct (call f (world h)) as [o w]; cbn. now split.
Qed.

Lemma calls_dispatch (cliArgs : CliArgs) (step : Executor) (h : Heap) :
  calls (trace (dispatch cliArgs step h)) = dispatch_calls cliArgs step
  /\ rendered (trace (dispatch cliArgs step h)) = [].
Proof.
  unfold dispatch, dispatch_calls, first_match, await, ret, trace; cbn.
  destruct (isFileTransformExecutor step);
    [now destruct (fileTransformExecutor step cliArgs (world h)) |].
  destruct (isAddDependencyExecutor step);
    [now destruct (addDependencyExecutor step cliArgs (world h)) |].
  destruct (isNewFileExecutor step);
    [now destruct (newFileExecutor step cliArgs (world h)) |].
  now split.
Qed.

Lemma paired_iteration (cliArgs : CliArgs) (step : Executor) (h : Heap) :
  paired cliArgs (trace (iteration cliArgs step h)).
Proof.
  unfold iteration.
  apply paired_bind; [apply paired_stepless; now split |].
  intros [] h1.
  apply paired_bind.
  { apply paired_stepless.
    exact (stepless_hook h1 (@beforeEach) (BeforeEach (stepId step))
                         (fun f => f (stepId step))). }
  intros [] h2.
  rewrite trace_bind.
  change (trace (logExecutorFrontmatter step h2))
    with [LogExecutorFrontmatter step].
  change (completion (logExecutorFrontmatter step h2)) with (Normal tt).
  change (final_heap (logExecutorFrontmatter step h2)) with h2.
  rewrite trace_bind, app_assoc.
  apply paired_app.
  - unfold paired.
    destruct (calls_dispatch cliArgs step h2) as [Hcalls Hrendered].
    rewrite calls_app, rendered_app, Hcalls, Hrendered. cbn.
    destruct (is_executor_dispatch_calls cliArgs step) as (-> & _).
    now rewrite app_nil_r.
  - destruct (completion (dispatch cliArgs step h2));
      [| apply paired_nil ..].
    apply paired_stepless.
    exact (stepless_hook _ (@afterEach) (AfterEach (stepId step))
                         (fun f => f (stepId step))).
Qed.

Lemma paired_for_of (cliArgs : CliArgs) (sts : list Executor) :
  forall h, paired cliArgs (trace (for_of sts (iteration cliArgs) h)).
Proof.
  induction sts as [ | step rest IH]; intros h; cbn [for_of].
  - apply paired_nil.
  - apply paired_bind; [apply paired_iteration | intros; apply IH].
Qed.

Lemma paired_run (cliArgs : CliArgs) (h : Heap) :
  paired cliArgs (trace (run cliArgs h)).
Proof.
  rewrite run_unfold.
  apply paired_bind.
  { rewrite displayFrontmatter_eq. apply paired_stepless. now split. }
  intros [] h1.
  apply paired_bind.
  { rewrite validation_eq. apply paired_stepless.
    destruct (validateArgs (options (this h1))) as [hook | ];
      [| now split].
    now destruct (fst (hook cliArgs (world h1))). }
  intros proceed h2. destruct proceed; [| apply paired_nil].
  unfold install.
  apply paired_bind.
  { apply paired_stepless.
    exact (stepless_hook h2 (@preInstall) PreInstall (fun f => f)). }
  intros [] h3. rewrite bind_get_this.
  apply paired_bind; [apply paired_for_of |].
  intros [] h4.
  apply paired_bind.
  { apply paired_stepless.
    exact (stepless_hook h4 (@postInstall) PostInstall (fun f => f)). }
  intros [] h5.
  apply paired_bind; [apply paired_stepless; now split |].
  intros [] h6. rewrite bind_get_this.
  apply paired_stepless. now split.
Qed.


(** ** The per-step hooks come in pairs *)

Lemma step_points_prefix (sts : list Executor) :
  forall p rest : list Lifecycle,
    step_points sts ++ [PostInstall] = p ++ rest ->
    length (filter at_afterEach p) <= length (filter at_beforeEach p)
    /\ length (filter at_beforeEach p) <= length (filter at_afterEach p) + 1
    /\ length (filter at_beforeEach p) <= length sts.
Proof.
  induction sts as [ | step sts IH]; intros p rest Heq.
  - cbn in Heq. destruct p as [ | x [ | y p]]; cbn in *.
    + lia.
    + injection Heq as <- _. cbn. lia.
    + injection Heq as _ Heq. discriminate.
  - cbn in Heq. destruct p as [ | x [ | y p]]; cbn [filter length].
    + lia.
    + cbn in Heq. injection Heq as <- _. cbn. lia.
    + cbn in Heq. injection Heq as <- <- Heq.
      destruct (IH p rest Heq) as (H1 & H2 & H3). cbn. lia.
Qed.


(** ** [postInstall] comes after every step *)

Lemma epilogue_is_stepless (self : Installer) (l rest : list Event) :
  epilogue_events self = l ++ rest ->
  rendered rest = []
  /\ filter per_step (invocations rest) = []
  /\ filter is_executor (calls rest) = [].
Proof.
  intros Heq.
  assert (Hr : rendered (epilogue_events self) = []).
  { unfold epilogue_events.
    now rewrite rendered_app, rendered_hook_events. }
  assert (Hi : filter per_step (invocations (epilogue_events self)) = []).
  { unfold epilogue_events.
    now rewrite invocations_app, invocations_hook_events. }
  assert (Hc : filter is_executor (calls (epilogue_events self)) = []).
  { unfold epilogue_events.
    rewrite calls_app, calls_hook_events, filter_app.
    now rewrite filter_hook_calls by reflexivity. }
  rewrite Heq in Hr, Hi, Hc.
  rewrite rendered_app in Hr. rewrite invocations_app, filter_app in Hi.
  rewrite calls_app, filter_app in Hc.
  apply app_eq_nil in Hr, Hi, Hc.
  now repeat split.
Qed.


(** ** Each phase is gated by the one before *)

(** X10 : the phases gate one another.  In every run, a call other
    than the prompt is made only after the prompt was fulfilled; when
    the options have [validateArgs], a call other than the prompt and
    [validateArgs] is made only after [validateArgs] was fulfilled; when
    they have [preInstall], a per-step hook, an executor or
    [postInstall] is called only after [preInstall] was fulfilled. *)
Theorem phases_are_gated (cliArgs : CliArgs) (h : Heap) (c : Call) :
  In c (calls (trace (run cliArgs h))) ->
  (c <> WaitForConfirmation confirmation_prompt ->
   In (confirmation Fulfilled) (trace (run cliArgs h)))
  /\ (validateArgs (options (this h)) <> None ->
      c <> WaitForConfirmation confirmation_prompt ->
      c <> Hook (ValidateArgs cliArgs) ->
      In (Awaited (Hook (ValidateArgs cliArgs)) Fulfilled)
         (trace (run cliArgs h)))
  /\ (preInstall (options (this h)) <> None ->
      is_each c || is_executor c = true \/ c = Hook PostInstall ->
      In (Awaited (Hook PreInstall) Fulfilled) (trace (run cliArgs h))).
Proof.
  intros Hin.
  destruct (run_shape cliArgs h) as [_ Hshape].
  revert Hin.
  destruct Hshape as [o Ho | hook err Hhook | hook Hhook | r t Hstops];
    intros Hin.
  - rewrite calls_app in Hin. cbn in Hin.
    destruct Hin as [<- | []].
    split; [now intros Hc |]. split; [now intros _ Hc |].
    intros _ [Hc | Hc]; discriminate.
  - rewrite calls_app in Hin. cbn in Hin.
    destruct Hin as [<- | [<- | []]].
    + split; [now intros Hc |]. split; [now intros _ Hc |].
      intros _ [Hc | Hc]; discriminate.
    + split.
      { intros _. apply in_or_app. left. apply in_or_app. left.
        apply in_or_app. right. now left. }
      split; [now intros _ _ Hc |].
      intros _ [Hc | Hc]; discriminate.
  - rewrite calls_app in Hin. cbn in Hin.
    destruct Hin as [<- | [<- | []]].
    + split; [now intros Hc |]. split; [now intros _ Hc |].
      intros _ [Hc | Hc]; discriminate.
    + split.
      { intros _. apply in_or_app. left. apply in_or_app. left.
        apply in_or_app. right. now left. }
      split; [now intros _ _ Hc |].
      intros _ [Hc | Hc]; discriminate.
  - split; [| split].
    + intros _. apply in_or_app. left. apply in_or_app. right. now left.
    + intros Hpresent _ _. apply in_or_app. right. apply in_or_app. left.
      destruct (validateArgs (options (this h))); [| contradiction].
      right. now left.
    + intros Hpresent Hclass.
      apply in_or_app. right. apply in_or_app. right.
      rewrite !calls_app, calls_hook_events in Hin.
      assert (Hc : In c (calls t)).
      { apply in_app_or in Hin. destruct Hin as [Hin | Hin].
        { cbn in Hin. destruct Hin as [<- | []].
          destruct Hclass; discriminate. }
        apply in_app_or in Hin. destruct Hin as [Hin | Hin]; [| assumption].
        destruct (validateArgs (options (this h))); cbn in Hin; [| tauto].
        destruct Hin as [<- | []]. destruct Hclass; discriminate. }
      assert (Hstart : exists tail,
                 install_events (this h) cliArgs
                 = Invoked PreInstall
                   :: Awaited (Hook PreInstall) Fulfilled :: tail).
      { unfold install_events, hook_events.
        destruct (preInstall (options (this h))); [| contradiction].
        eexists. reflexivity. }
      destruct Hstart as [tail Hstart].
      destruct Hstops as [ | before after c0 o0 Ho Hfull].
      * rewrite Hstart. right. now left.
      * rewrite Hstart in Hfull.
        destruct before as [ | e1 [ | e2 before]].
        -- discriminate.
        -- cbn in Hfull. injection Hfull as <- <- _.
           rewrite calls_app in Hc. cbn in Hc.
           destruct Hc as [<- | []]. destruct Hclass; discriminate.
        -- cbn in Hfull. injection Hfull as <- <- _.
           right. now left.
Qed.

(** ** Steps added at the end *)

Lemma bind_assoc (A B C : Type) (m : M A) (k1 : A -> M B) (k2 : B -> M C)
  (h : Heap) :
  bind (bind m k1) k2 h = bind m (fun a => bind (k1 a) k2) h.
Proof.
  unfold bind.
  destruct (m h) as [[r h1] t1].
  destruct r as [a | err | ]; [| reflexivity | reflexivity].
  destruct (k1 a h1) as [[r2 h2] t2].
  destruct r2 as [b | err | ]; [| reflexivity | reflexivity].
  destruct (k2 b h2) as [[r3 h3] t3]. now rewrite app_assoc.
Qed.

Lemma for_of_app (A : Type) (body : A -> M unit) (xs ys : list A) :
  forall h,
    for_of (xs ++ ys) body h
    = (for_of xs body ;; for_of ys body) h.
Proof.
  induction xs as [ | x xs IH]; intros h; cbn [app for_of].
  - now rewrite bind_ret.
  - rewrite bind_assoc. apply bind_congr. intros a h1 t1 _. apply IH.
Qed.

Ltac solve_same :=
  repeat split; cbn; try reflexivity; try assumption;
  try (match goal with H : alike _ _ |- _ => apply H end).

Lemma respects_ret (A : Type) (a : A) : respects (ret a).
Proof. intros h1 h2 [Hopts Hworld]. repeat split; assumption. Qed.

Lemma respects_emit (ev : Event) : respects (emit ev).
Proof. intros h1 h2 [Hopts Hworld]. repeat split; assumption. Qed.

Lemma respects_await (c : Call) (f : Async) : respects (await c f).
Proof.
  intros h1 h2 [Hopts Hworld].
  unfold await, same, alike, completion, trace, final_heap.
  rewrite Hworld. destruct (f (world h2)) as [o w]; cbn.
  solve_same.
Qed.

Lemma respects_bind (A B : Type) (m : M A) (k : A -> M B) :
  respects m -> (forall a, respects (k a)) -> respects (bind m k).
Proof.
  intros Hm Hk h1 h2 Halike. specialize (Hm h1 h2 Halike).
  unfold bind, same, completion, trace, final_heap in *.
  destruct (m h1) as [[r1 g1] t1], (m h2) as [[r2 g2] t2]; cbn in *.
  destruct Hm as (-> & -> & Hg).
  destruct r2 as [a | err | ]; [| solve_same ..].
  specialize (Hk a g1 g2 Hg).
  unfold same, completion, trace, final_heap in Hk.
  destruct (k a g1) as [[r3 g3] t3], (k a g2) as [[r4 g4] t4]; cbn in *.
  destruct Hk as (-> & -> & Hg'). solve_same.
Qed.

Lemma respects_try_catch (A : Type) (m : M A) (handler : Err -> M A) :
  respects m -> (forall err, respects (handler err)) ->
  respects (try_catch m handler).
Proof.
  intros Hm Hk h1 h2 Halike. specialize (Hm h1 h2 Halike).
  unfold try_catch, same, completion, trace, final_heap in *.
  destruct (m h1) as [[r1 g1] t1], (m h2) as [[r2 g2] t2]; cbn in *.
  destruct Hm as (-> & -> & Hg).
  destruct r2 as [a | err | ]; [solve_same | | solve_same].
  specialize (Hk err g1 g2 Hg).
  unfold same, completion, trace, final_heap in Hk.
  destruct (handler err g1) as [[r3 g3] t3],
           (handler err g2) as [[r4 g4] t4]; cbn in *.
  destruct Hk as (-> & -> & Hg'). solve_same.
Qed.

(** Reading [this] to look at the options only. *)
Lemma respects_options (A B : Type) (view : InstallerOptions -> A)
  (k : A -> M B) :
  (forall a, respects (k a)) ->
  respects (self <- get_this ;; k (view (options self))).
Proof.
  intros Hk h1 h2 Halike. rewrite !bind_get_this.
  destruct Halike as [Hopts Hworld]. rewrite Hopts.
  apply Hk. now split.
Qed.

Lemma respects_hook (A : Type) (field : InstallerOptions -> option A)
  (l : Lifecycle) (call : A -> Async) :
  respects (entered l ;;
            self <- get_this ;;
            match field (options self) with
            | Some f => await (Hook l) (call f)
            | None => ret tt
            end).
Proof.
  apply respects_bind; [apply respects_emit |]. intros [].
  apply (respects_options field
           (fun hook => match hook with
                        | Some f => await (Hook l) (call f)
                        | None => ret tt
                        end)).
  intros [f | ]; [apply respects_await | apply respects_ret].
Qed.

Lemma respects_iteration (cliArgs : CliArgs) (step : Executor) :
  respects (iteration cliArgs step).
Proof.
  unfold iteration.
  apply respects_bind; [apply respects_emit |]. intros [].
  apply respects_bind.
  { exact (respects_hook (@beforeEach) (BeforeEach (stepId step))
                         (fun f => f (stepId step))). }
  intros [].
  apply respects_bind; [apply respects_emit |]. intros [].
  apply respects_bind.
  { unfold dispatch.
    destruct (isFileTransformExecutor step); [apply respects_await |].
    destruct (isAddDependencyExecutor step); [apply respects_await |].
    destruct (isNewFileExecutor step);
      [apply respects_await | apply respects_ret]. }
  intros [].
  exact (respects_hook (@afterEach) (AfterEach (stepId step))
                       (fun f => f (stepId step))).
Qed.

Lemma respects_for_of (A : Type) (body : A -> M unit) (xs : list A) :
  (forall x, respects (body x)) -> respects (for_of xs body).
Proof.
  intros Hbody. induction xs as [ | x xs IH]; cbn [for_of].
  - apply respects_ret.
  - apply respects_bind; [apply Hbody | intros []; apply IH].
Qed.

Lemma respects_displayFrontmatter : respects displayFrontmatter.
Proof.
  unfold displayFrontmatter.
  apply (respects_options (fun opts => opts)
           (fun opts =>
              log_branded ("Welcome to the installer for "
                           ++ packageName opts)%string ;;
              log_branded (packageDescription opts) ;;
              log_info ("This package is authored and supported by "
                        ++ packageOwner opts)%string ;;
              log_info ("For additional documentation and support please visit "
                        ++ packageRepoLink opts)%string ;;
              console_log ;;
              await (WaitForConfirmation confirmation_prompt)
                    (waitForConfirmation confirmation_prompt))).
  intros opts.
  repeat (apply respects_bind; [apply respects_emit | intros []]).
  apply respects_await.
Qed.

Lemma respects_validation (cliArgs : CliArgs) :
  respects (validation cliArgs).
Proof.
  unfold validation. apply respects_try_catch.
  - apply respects_bind; [| intros; apply respects_ret].
    exact (respects_hook (@validateArgs) (ValidateArgs cliArgs)
                         (fun f => f cliArgs)).
  - intros err.
    apply respects_bind; [apply respects_emit | intros; apply respects_ret].
Qed.

(** What follows the loop in [install]. *)
Lemma install_unfold (cliArgs : CliArgs) (h : Heap) :
  install cliArgs h =
  (this_preInstall ;;
   self <- get_this ;;
   for_of (steps self) (iteration cliArgs) ;;
   (this_postInstall ;;
    console_log ;;
    self' <- get_this ;;
    log_success (success_message (options self')))) h.
Proof. reflexivity. Qed.

Lemma trace_postInstall_entered (B : Type) (k : unit -> M B) (h : Heap) :
  In PostInstall (invocations (trace (bind this_postInstall k h))).
Proof.
  rewrite trace_bind, invocations_app. apply in_or_app. left.
  unfold this_postInstall. rewrite trace_bind.
  change (trace (entered PostInstall h)) with [Invoked PostInstall].
  rewrite invocations_app. apply in_or_app. left. now left.
Qed.

Lemma same_bind (A B : Type) (m1 m2 : M A) (k1 k2 : A -> M B)
  (h1 h2 : Heap) :
  same (m1 h1) (m2 h2) ->
  (forall a, completion (m1 h1) = Normal a ->
             same (k1 a (final_heap (m1 h1))) (k2 a (final_heap (m2 h2)))) ->
  same (bind m1 k1 h1) (bind m2 k2 h2).
Proof.
  unfold bind, same, completion, trace, final_heap.
  destruct (m1 h1) as [[r1 g1] t1], (m2 h2) as [[r2 g2] t2]; cbn.
  intros (-> & -> & Hg) Hk.
  destruct r2 as [a | err | ]; [| solve_same ..].
  specialize (Hk a eq_refl).
  destruct (k1 a g1) as [[r3 g3] t3], (k2 a g2) as [[r4 g4] t4]; cbn in *.
  destruct Hk as (-> & -> & Hg'). solve_same.
Qed.

Lemma entered_in_bind (A B : Type) (m : M A) (k : A -> M B) (h : Heap)
  (a : A) (l : Lifecycle) :
  completion (m h) = Normal a ->
  In l (invocations (trace (k a (final_heap (m h))))) ->
  In l (invocations (trace (bind m k h))).
Proof.
  intros Hnormal Hin. rewrite trace_bind, Hnormal, invocations_app.
  apply in_or_app. now right.
Qed.

Lemma install_appended (cliArgs : CliArgs) (pre post : list Executor)
  (h1 h2 : Heap) :
  alike h1 h2 ->
  steps (this h1) = pre ->
  steps (this h2) = pre ++ post ->
  ~ In PostInstall (invocations (trace (install cliArgs h1))) ->
  same (install cliArgs h1) (install cliArgs h2).
Proof.
  intros Halike Hpre Hall Hnot.
  pose proof (respects_hook (@preInstall) PreInstall (fun f => f)
                            Halike) as Hsame.
  change (same (this_preInstall h1) (this_preInstall h2)) in Hsame.
  pose proof (follows_preInstall h1) as [Hthis1 _].
  pose proof (follows_preInstall h2) as [Hthis2 _].
  rewrite install_unfold in Hnot. rewrite !install_unfold.
  apply same_bind; [exact Hsame |].
  intros [] Hnormal1.
  destruct Hsame as (_ & _ & Hg).
  rewrite !bind_get_this, Hthis1, Hthis2, Hpre, Hall.
  assert (Hsplit : forall k : unit -> M unit,
             bind (for_of (pre ++ post) (iteration cliArgs)) k
                  (final_heap (this_preInstall h2))
             = bind (for_of pre (iteration cliArgs) ;;
                     for_of post (iteration cliArgs)) k
                    (final_heap (this_preInstall h2))).
  { intros k. unfold bind at 1 2. now rewrite for_of_app. }
  rewrite Hsplit, bind_assoc. clear Hsplit.
  apply same_bind.
  { exact (@respects_for_of _ (iteration cliArgs) pre
                            (respects_iteration cliArgs) _ _ Hg). }
  intros [] Hnormal2.
  exfalso. apply Hnot.
  apply entered_in_bind with (a := tt); [assumption |].
  rewrite bind_get_this, Hthis1, Hpre.
  apply entered_in_bind with (a := tt); [assumption |].
  apply trace_postInstall_entered.
Qed.


(** * The dispatch, in a run *)

Lemma bind_congr_head (A B : Type) (m1 m2 : M A) (k : A -> M B) (h : Heap) :
  m1 h = m2 h -> bind m1 k h = bind m2 k h.
Proof. unfold bind. now intros ->. Qed.

Lemma for_of_ext (A : Type) (body1 body2 : A -> M unit) (xs : list A) :
  (forall x h, body1 x h = body2 x h) ->
  forall h, for_of xs body1 h = for_of xs body2 h.
Proof.
  intros Hbody. induction xs as [ | x xs IH]; intros h; cbn [for_of].
  - reflexivity.
  - rewrite (@bind_congr_head _ _ _ _ _ _ (Hbody x h)).
    apply bind_congr. intros a h1 t1 _. apply IH.
Qed.

Lemma dispatch_invoke_first_match (cliArgs : CliArgs) (step : Executor) :
  dispatch cliArgs step = invoke_first_match cliArgs step.
Proof.
  unfold dispatch, invoke_first_match, first_match; cbn.
  destruct (isFileTransformExecutor step); [reflexivity |].
  destruct (isAddDependencyExecutor step); [reflexivity |].
  destruct (isNewFileExecutor step); reflexivity.
Qed.

Lemma run_is_run_first_match (cliArgs : CliArgs) (h : Heap) :
  run cliArgs h = run_first_match cliArgs h.
Proof.
  rewrite run_unfold. unfold run_first_match.
  apply bind_congr. intros [] h1 t1 _.
  apply (@bind_congr _ _ (validation cliArgs)). intros proceed h2 t2 _.
  destruct proceed; [| reflexivity].
  unfold install.
  apply bind_congr. intros [] h3 t3 _.
  rewrite !bind_get_this.
  apply bind_congr_head.
  apply for_of_ext. intros x g.
  unfold iteration. now rewrite dispatch_invoke_first_match.
Qed.

(** When nothing a run awaited failed, it went through everything. *)
Lemma nothing_failed_run_events (cliArgs : CliArgs) (h : Heap) :
  no_failure (trace (run cliArgs h)) ->
  completion (run cliArgs h) = Normal tt
  /\ trace (run cliArgs h) = run_events (this h) cliArgs.
Proof.
  pose proof (run_stops cliArgs h) as Hstops.
  remember (completion (run cliArgs h)) as r eqn:Hr.
  remember (trace (run cliArgs h)) as t eqn:Ht.
  clear Hr Ht. intros Hok.
  destruct Hstops as [ | before after c o Ho _ _ | hook err after _ _].
  - now split.
  - contradict Ho. apply (Hok c o), in_or_app. right. now left.
  - assert (Rejected err = Fulfilled) by
      (apply (Hok (Hook (ValidateArgs cliArgs))), in_or_app; right; now left).
    discriminate.
Qed.

(** An error thrown by [run] is one an awaited call was rejected with. *)
Lemma thrown_is_rejection (cliArgs : CliArgs) (h : Heap) (err : Err) :
  completion (run cliArgs h) = Throw err ->
  exists c, In (Awaited c (Rejected err)) (trace (run cliArgs h)).
Proof.
  pose proof (run_stops cliArgs h) as Hstops.
  remember (completion (run cliArgs h)) as r eqn:Hr.
  remember (trace (run cliArgs h)) as t eqn:Ht.
  clear Hr Ht. intros Hthrow.
  destruct Hstops as [ | before after c o Ho _ _ | hook err' after _ _];
    [discriminate | | discriminate].
  destruct o as [ | err' | ]; try discriminate.
  injection Hthrow as ->.
  exists c. apply in_or_app. right. now left.
Qed.

(** ** Where the frontmatter of a step stands *)

Lemma not_rendered (t : list Event) (step : Executor) :
  rendered t = [] -> ~ In (LogExecutorFrontmatter step) t.
Proof.
  intros Hnone Hin.
  assert (H : In step (rendered t)).
  { apply in_flat_map. exists (LogExecutorFrontmatter step).
    split; [assumption | now left]. }
  now rewrite Hnone in H.
Qed.

Lemma rendered_dispatch_events (cliArgs : CliArgs) (step : Executor) :
  rendered (dispatch_events cliArgs step) = [].
Proof.
  unfold dispatch_events.
  now induction (dispatch_calls cliArgs step) as [ | c rest IH].
Qed.

Lemma split_unique (A : Type) (head tail before after : list A) (x y : A) :
  head ++ x :: tail = before ++ y :: after ->
  ~ In y head -> ~ In y tail ->
  x = y /\ before = head /\ after = tail.
Proof.
  intros Heq Hhead Htail.
  apply split_in_suffix in Heq; [| assumption].
  destruct Heq as [rest [Hbefore Hrest]].
  destruct rest as [ | z rest]; cbn in Hrest.
  - injection Hrest as Hx Hafter. rewrite app_nil_r in Hbefore.
    now repeat split.
  - injection Hrest as _ Hrest. contradict Htail. rewrite Hrest.
    apply in_or_app. right. now left.
Qed.

Lemma frontmatter_in_step_events (opts : InstallerOptions)
  (cliArgs : CliArgs) (x step : Executor) (b a : list Event) :
  step_events opts cliArgs x = b ++ LogExecutorFrontmatter step :: a ->
  x = step
  /\ b = [ConsoleLog]
         ++ hook_events (beforeEach opts) (BeforeEach (stepId x))
  /\ a = dispatch_events cliArgs x
         ++ hook_events (afterEach opts) (AfterEach (stepId x)).
Proof.
  intros Heq.
  assert (Hshape :
            step_events opts cliArgs x =
            ([ConsoleLog]
             ++ hook_events (beforeEach opts) (BeforeEach (stepId x)))
            ++ LogExecutorFrontmatter x
               :: (dispatch_events cliArgs x
                   ++ hook_events (afterEach opts) (AfterEach (stepId x)))).
  { unfold step_events. now rewrite app_assoc. }
  rewrite Hshape in Heq.
  apply split_unique in Heq.
  - destruct Heq as (Hx & Hb & Ha). injection Hx as Hx. now repeat split.
  - apply not_rendered. now rewrite rendered_app, rendered_hook_events.
  - apply not_rendered.
    now rewrite rendered_app, rendered_hook_events, rendered_dispatch_events.
Qed.

Lemma frontmatter_in_run_events (self : Installer) (cliArgs : CliArgs)
  (step : Executor) (before after : list Event) :
  run_events self cliArgs = before ++ LogExecutorFrontmatter step :: after ->
  exists pre post,
    steps self = pre ++ step :: post
    /\ before = prologue_events self cliArgs
                ++ flat_map (step_events (options self) cliArgs) pre
                ++ [ConsoleLog]
                ++ hook_events (beforeEach (options self))
                               (BeforeEach (stepId step))
    /\ after = after_frontmatter self cliArgs step post.
Proof.
  intros Heq. rewrite run_events_parts in Heq.
  apply split_in_suffix in Heq.
  2:{ apply not_rendered. unfold prologue_events.
      now rewrite !rendered_app, !rendered_hook_events. }
  destruct Heq as [rest1 [Hbefore Heq]].
  apply split_in_prefix in Heq.
  2:{ apply not_rendered. unfold epilogue_events.
      now rewrite rendered_app, rendered_hook_events. }
  destruct Heq as [rest2 [Hflat Hafter]].
  apply split_flat_map in Hflat.
  destruct Hflat as (pre & x & post & b & a & Hsteps & Hx & Hrest1 & Hrest2).
  apply frontmatter_in_step_events in Hx. destruct Hx as (Hx & Hb & Ha).
  subst x b a.
  exists pre, post. split; [assumption |]. split.
  - now rewrite Hbefore, Hrest1.
  - rewrite Hafter, Hrest2. unfold after_frontmatter.
    now rewrite <- !app_assoc.
Qed.

(** A run that renders the frontmatter of a step has gone through
    everything up to it, and goes on from there through what is left, up
    to the first awaited call that is not fulfilled. *)
Lemma run_at_frontmatter (cliArgs : CliArgs) (h : Heap) (step : Executor)
  (before after : list Event) :
  trace (run cliArgs h) = before ++ LogExecutorFrontmatter step :: after ->
  exists pre post,
    steps (this h) = pre ++ step :: post
    /\ before = prologue_events (this h) cliArgs
                ++ flat_map (step_events (options (this h)) cliArgs) pre
                ++ [ConsoleLog]
                ++ hook_events (beforeEach (options (this h)))
                               (BeforeEach (stepId step))
    /\ stops (after_frontmatter (this h) cliArgs step post)
             (completion (run cliArgs h)) after.
Proof.
  pose proof (run_stops cliArgs h) as Hstops.
  remember (completion (run cliArgs h)) as r eqn:Hr.
  remember (trace (run cliArgs h)) as t eqn:Ht.
  clear Hr Ht. intros Heq.
  destruct Hstops as [ | b a c o Ho _ Hfull | hook err a _ _].
  - apply frontmatter_in_run_events in Heq.
    destruct Heq as (pre & post & Hsteps & Hbefore & Hafter).
    exists pre, post. split; [assumption |]. split; [assumption |].
    rewrite Hafter. apply stops_end.
  - apply split_in_prefix in Heq; [| cbn; intuition discriminate].
    destruct Heq as [rest [Hb Hafter]].
    rewrite Hb, <- app_assoc in Hfull. cbn [app] in Hfull.
    apply frontmatter_in_run_events in Hfull.
    destruct Hfull as (pre & post & Hsteps & Hbefore & Hrest).
    exists pre, post. split; [assumption |]. split; [assumption |].
    rewrite Hafter.
    apply stops_at with (after := a); [assumption | now symmetry].
  - exfalso.
    assert (Hin : In (LogExecutorFrontmatter step)
                     (before_validation (options (this h)) cliArgs
                      ++ [Awaited (Hook (ValidateArgs cliArgs))
                                  (Rejected err);
                          LogError err]))
      by (rewrite Heq; apply in_or_app; right; now left).
    revert Hin. apply not_rendered.
    unfold before_validation, frontmatter_events.
    now rewrite !rendered_app.
Qed.

(** What comes right after the frontmatter of a step. *)
Lemma stops_after_frontmatter (self : Installer) (cliArgs : CliArgs)
  (step : Executor) (post : list Executor) (r : Completion unit)
  (after : list Event) :
  stops (after_frontmatter self cliArgs step post) r after ->
  match first_match step with
  | Some k =>
      exists o rest,
        after = Awaited (executor_call k step cliArgs) o :: rest
        /\ (o = Fulfilled ->
            exists rest', rest = Invoked (AfterEach (stepId step)) :: rest')
        /\ (o <> Fulfilled -> rest = [] /\ r = completion_of o)
  | None =>
      exists rest, after = Invoked (AfterEach (stepId step)) :: rest
  end.
Proof.
  unfold after_frontmatter, dispatch_events, dispatch_calls.
  unfold hook_events at 1.
  destruct (first_match step) as [k | ]; cbn [map app]; intros Hstops.
  - destruct Hstops as [ | b a c o Ho Hfull].
    + exists Fulfilled. eexists. split; [reflexivity |].
      split; [intros _; eexists; reflexivity | intros H; now contradict H].
    + destruct b as [ | e b]; cbn in Hfull.
      * injection Hfull as <- _.
        exists o, []. split; [reflexivity |].
        split; [intros H; now contradict Ho | now split].
      * injection Hfull as <- Hfull.
        destruct b as [ | e b]; cbn in Hfull; [discriminate |].
        injection Hfull as <- _.
        exists Fulfilled. eexists. split; [reflexivity |].
        split; [intros _; eexists; reflexivity | intros H; now contradict H].
  - destruct Hstops as [ | b a c o Ho Hfull].
    + eexists. reflexivity.
    + destruct b as [ | e b]; cbn in Hfull; [discriminate |].
      injection Hfull as <- _. eexists. reflexivity.
Qed.

(** C4 : for every step of the iteration, [run] tests the three
    predicates in the order file-transform, add-dependency, new-file
    and awaits the executor of the first one that holds, and no other,
    with the step and the arguments of [run]; when none holds it calls
    no executor and raises nothing.  [run] is [run_first_match].  In any
    run, right after the frontmatter of a step comes the call of the
    executor of its first match, followed, when that call is fulfilled,
    by the entry of [afterEach] (a call that is not fulfilled ends the
    run the way it ended); with no match the entry of [afterEach] comes
    at once.  The executor calls of a run are those of the first
    matches of the steps whose frontmatter it rendered, in order; these
    steps are the first of the installer's, and all of them when
    nothing the run awaited failed, in which case it returns.  An error
    [run] throws is one an awaited call was rejected with. *)
Theorem dispatch_first_match (cliArgs : CliArgs) (step : Executor)
  (h : Heap) :
  first_match step =
    (if isFileTransformExecutor step then Some FileTransform
     else if isAddDependencyExecutor step then Some AddDependency
     else if isNewFileExecutor step then Some NewFile
     else None)
  /\ run cliArgs h = run_first_match cliArgs h
  /\ (forall before after,
         trace (run cliArgs h)
         = before ++ LogExecutorFrontmatter step :: after ->
         match first_match step with
         | Some k =>
             exists o rest,
               after = Awaited (executor_call k step cliArgs) o :: rest
               /\ (o = Fulfilled ->
                   exists rest',
                     rest = Invoked (AfterEach (stepId step)) :: rest')
               /\ (o <> Fulfilled ->
                   rest = []
                   /\ completion (run cliArgs h) = completion_of o)
         | None =>
             exists rest,
               after = Invoked (AfterEach (stepId step)) :: rest
         end)
  /\ filter is_executor (calls (trace (run cliArgs h)))
     = flat_map (dispatch_calls cliArgs) (rendered (trace (run cliArgs h)))
  /\ (exists rest,
         steps (this h) = rendered (trace (run cliArgs h)) ++ rest)
  /\ (no_failure (trace (run cliArgs h)) ->
      completion (run cliArgs h) = Normal tt
      /\ rendered (trace (run cliArgs h)) = steps (this h)
      /\ filter is_executor (calls (trace (run cliArgs h)))
         = flat_map (dispatch_calls cliArgs) (steps (this h)))
  /\ (forall err,
         completion (run cliArgs h) = Throw err ->
         exists c, In (Awaited c (Rejected err)) (trace (run cliArgs h))).
Proof.
  split; [reflexivity |].
  split; [apply run_is_run_first_match |].
  split.
  { intros before after Heq.
    apply run_at_frontmatter in Heq.
    destruct Heq as (pre & post & _ & _ & Hstops).
    now apply stops_after_frontmatter in Hstops. }
  split; [apply paired_run |].
  split.
  { destruct (run_reached cliArgs h)
      as (reached & rest & Hfull & _ & _ & Hrendered).
    exists (rendered rest).
    now rewrite <- Hrendered, <- rendered_app, <- Hfull, rendered_run_events. }
  split; [| apply thrown_is_rejection].
  intros Hok.
  destruct (nothing_failed_run_events cliArgs h Hok) as [Hnormal Htrace].
  split; [assumption |].
  pose proof (paired_run cliArgs h) as Hpaired. unfold paired in Hpaired.
  rewrite Hpaired, Htrace, rendered_run_events. now split.
Qed.

(** C9 : a step that matches none of the three predicates gets its
    blank line, [beforeEach] with its id, its frontmatter and
    [afterEach] with its id, and the run goes on with the steps after
    it : only the executor call is missing.  For an installer whose
    steps are [pre], the step, then [post] : [run] is the sequence in
    which the step's turn is these four things, between the iterations
    of [pre] and those of [post]; when nothing the run awaited failed it
    returns, having gone through the events of [pre], the step's events
    without an executor call, the events of [post], [postInstall] and the
    success message.  In any run that renders the frontmatter of the
    step, the blank line and [beforeEach] come right before it, the
    entry of [afterEach] right after it, and the run goes on through
    [afterEach], the steps left and [postInstall] up to the first
    awaited call that is not fulfilled.  No executor is ever called with
    the step. *)
Theorem dispatch_miss_keeps_hooks (cliArgs : CliArgs) (step : Executor)
  (pre post : list Executor) (h : Heap) :
  isFileTransformExecutor step = false ->
  isAddDependencyExecutor step = false ->
  isNewFileExecutor step = false ->
  steps (this h) = pre ++ step :: post ->
  run cliArgs h =
    (displayFrontmatter ;;
     proceed <- validation cliArgs ;;
     if (proceed : bool) then
       this_preInstall ;;
       for_of pre (iteration cliArgs) ;;
       (console_log ;;
        this_beforeEach (stepId step) ;;
        logExecutorFrontmatter step ;;
        this_afterEach (stepId step)) ;;
       for_of post (iteration cliArgs) ;;
       this_postInstall ;;
       console_log ;;
       self <- get_this ;;
       log_success (success_message (options self))
     else ret tt) h
  /\ run_events (this h) cliArgs =
       prologue_events (this h) cliArgs
       ++ flat_map (step_events (options (this h)) cliArgs) pre
       ++ ([ConsoleLog]
           ++ hook_events (beforeEach (options (this h)))
                          (BeforeEach (stepId step))
           ++ [LogExecutorFrontmatter step]
           ++ hook_events (afterEach (options (this h)))
                          (AfterEach (stepId step)))
       ++ flat_map (step_events (options (this h)) cliArgs) post
       ++ epilogue_events (this h)
  /\ (no_failure (trace (run cliArgs h)) ->
      completion (run cliArgs h) = Normal tt
      /\ trace (run cliArgs h) = run_events (this h) cliArgs)
  /\ (forall before after,
         trace (run cliArgs h)
         = before ++ LogExecutorFrontmatter step :: after ->
         exists earlier later,
           steps (this h) = earlier ++ step :: later
           /\ before =
                prologue_events (this h) cliArgs
                ++ flat_map (step_events (options (this h)) cliArgs) earlier
                ++ [ConsoleLog]
                ++ hook_events (beforeEach (options (this h)))
                               (BeforeEach (stepId step))
           /\ (exists rest,
                  after = Invoked (AfterEach (stepId step)) :: rest)
           /\ ((completion (run cliArgs h) = Normal tt
                /\ after =
                     hook_events (afterEach (options (this h)))
                                 (AfterEach (stepId step))
                     ++ flat_map (step_events (options (this h)) cliArgs)
                                 later
                     ++ epilogue_events (this h))
               \/ (exists b a c o,
                      o <> Fulfilled
                      /\ hook_events (afterEach (options (this h)))
                                     (AfterEach (stepId step))
                         ++ flat_map (step_events (options (this h)) cliArgs)
                                     later
                         ++ epilogue_events (this h)
                         = b ++ Awaited c Fulfilled :: a
                      /\ completion (run cliArgs h) = completion_of o
                      /\ after = b ++ [Awaited c o])))
  /\ (forall c args,
         In c (calls (trace (run cliArgs h))) ->
         c <> FileTransformExecutor step args
         /\ c <> AddDependencyExecutor step args
         /\ c <> NewFileExecutor step args).
Proof.
  intros Hft Had Hnf Hsteps.
  assert (Hnone : first_match step = None).
  { unfold first_match; cbn. now rewrite Hft, Had, Hnf. }
  assert (Hmiss : forall opts,
             step_events opts cliArgs step =
             [ConsoleLog]
             ++ hook_events (beforeEach opts) (BeforeEach (stepId step))
             ++ [LogExecutorFrontmatter step]
             ++ hook_events (afterEach opts) (AfterEach (stepId step))).
  { intros opts. unfold step_events, dispatch_events, dispatch_calls.
    now rewrite Hnone. }
  assert (Hturn : forall g,
             iteration cliArgs step g =
             (console_log ;;
              this_beforeEach (stepId step) ;;
              logExecutorFrontmatter step ;;
              this_afterEach (stepId step)) g).
  { intros g. unfold iteration, dispatch. rewrite Hft, Had, Hnf.
    apply bind_congr. intros [] g1 t1 _.
    apply bind_congr. intros [] g2 t2 _.
    apply bind_congr. intros [] g3 t3 _.
    apply bind_ret. }
  split.
  { rewrite run_unfold.
    apply bind_congr. intros [] h1 t1 H1.
    assert (Hthis1 : this h1 = this h).
    { pose proof (follows_displayFrontmatter h) as [Hthis _].
      now rewrite H1 in Hthis. }
    apply bind_congr. intros proceed h2 t2 H2.
    assert (Hthis2 : this h2 = this h1).
    { rewrite validation_eq in H2.
      destruct (validateArgs (options (this h1)));
        now injection H2 as _ <- _. }
    destruct proceed; [| reflexivity].
    unfold install.
    apply bind_congr. intros [] h3 t3 H3.
    assert (Hthis3 : this h3 = this h2).
    { pose proof (follows_preInstall h2) as [Hthis _].
      now rewrite H3 in Hthis. }
    rewrite bind_get_this.
    replace (steps (this h3)) with (pre ++ step :: post) by congruence.
    rewrite (@bind_congr_head _ _ _ _ _ _
               (for_of_app (iteration cliArgs) pre (step :: post) h3)).
    rewrite bind_assoc.
    apply bind_congr. intros [] h4 t4 _.
    cbn [for_of]. rewrite bind_assoc.
    apply bind_congr_head, Hturn. }
  split.
  { rewrite run_events_parts, Hsteps, flat_map_app. cbn [flat_map].
    rewrite Hmiss. now rewrite <- !app_assoc. }
  split; [apply nothing_failed_run_events |].
  split.
  { intros before after Heq.
    apply run_at_frontmatter in Heq.
    destruct Heq as (earlier & later & Hsplit & Hbefore & Hstops).
    exists earlier, later.
    split; [assumption |]. split; [assumption |].
    split.
    { apply stops_after_frontmatter in Hstops.
      now rewrite Hnone in Hstops. }
    unfold after_frontmatter, dispatch_events, dispatch_calls in Hstops.
    rewrite Hnone in Hstops. cbn [map app] in Hstops.
    remember (completion (run cliArgs h)) as r eqn:Hr. clear Hr.
    destruct Hstops as [ | b a c o Ho Hfull].
    - left. now split.
    - right. exists b, a, c, o. now repeat split. }
  intros c args Hin.
  apply in_trace_run_calls, in_run_calls in Hin.
  assert (Hexec : forall st, In c (dispatch_calls cliArgs st) ->
                             c <> FileTransformExecutor step args
                             /\ c <> AddDependencyExecutor step args
                             /\ c <> NewFileExecutor step args).
  { intros st Hc. apply in_dispatch_calls in Hc.
    destruct Hc as [[-> Hc] | [(-> & _ & Hc) | (-> & _ & _ & Hc)]];
      repeat split; try discriminate;
      intros Heq; injection Heq as -> _; congruence. }
  destruct Hin as [-> | [[-> _] | [[-> _] | [Hin | [-> _]]]]];
    try (repeat split; discriminate).
  destruct Hin as [st [_ [[-> _] | [Hin | [-> _]]]]];
    try (repeat split; discriminate).
  now apply Hexec with (st := st).
Qed.

End Installer.

Arguments Fulfilled {Err}.
Arguments NeverSettles {Err}.
Arguments WaitForConfirmation {CliArgs StepId Executor} prompt.
Arguments ValidateArgs {CliArgs StepId} args.
Arguments PreInstall {CliArgs StepId}.
Arguments BeforeEach {CliArgs StepId} id.
Arguments AfterEach {CliArgs StepId} id.
Arguments PostInstall {CliArgs StepId}.
Arguments Hook {CliArgs StepId Executor} l.
Arguments Invoked {Err CliArgs StepId Executor} l.
Arguments at_beforeEach {CliArgs StepId} l.
Arguments at_afterEach {CliArgs StepId} l.
Arguments per_step {CliArgs StepId} l.
Arguments FileTransformExecutor {CliArgs StepId Executor} step args.
Arguments AddDependencyExecutor {CliArgs StepId Executor} step args.
Arguments NewFileExecutor {CliArgs StepId Executor} step args.
Arguments is_each {CliArgs StepId Executor} c.
Arguments is_beforeEach {CliArgs StepId Executor} c.
Arguments is_afterEach {CliArgs StepId Executor} c.
Arguments is_executor {CliArgs StepId Executor} c.
Arguments is_validateArgs {CliArgs StepId Executor} c.
Arguments LogBranded {Err CliArgs StepId Executor} msg.
Arguments LogInfo {Err CliArgs StepId Executor} msg.
Arguments LogError {Err CliArgs StepId Executor} err.
Arguments LogSuccess {Err CliArgs StepId Executor} msg.
Arguments ConsoleLog {Err CliArgs StepId Executor}.
Arguments LogExecutorFrontmatter {Err CliArgs StepId Executor} step.
Arguments Normal {Err A} a.
Arguments Throw {Err A} err.
Arguments Pending {Err A}.

(** * The array and the options object are the caller's

    [this.options = options; this.steps = steps] (lines 68-69) stores
    the two references the constructor is given, not copies : the array
    of steps and the options object stay within reach of the caller, of
    the hooks (methods of the options object) and of whatever else they
    were handed to.  Above, an [Async] acts on the [World] only : the
    collaborators are taken not to write to the array or to the object.
    Here this is not taken for granted : the array and the object live
    in a store every collaborator acts on, a hook is looked up in the
    object at the time it is called, and the loop reads the array the
    way the iterator of an array does, one index at a time. *)

Section Shared.

Variables World Err CliArgs StepId Executor : Type.
Variable stepId : Executor -> StepId.
Variables isFileTransformExecutor isAddDependencyExecutor
          isNewFileExecutor : Executor -> bool.

(** The functions the caller put in the options object, by reference. *)
Variable Fn : Type.

(** The options object. *)
Record OptionsObject : Type := {
  field_packageName : string;
  field_packageDescription : string;
  field_packageOwner : string;
  field_packageRepoLink : string;
  field_validateArgs : option Fn;
  field_preInstall : option Fn;
  field_beforeEach : option Fn;
  field_afterEach : option Fn;
  field_postInstall : option Fn
}.

(** The store : the array [this.steps] refers to, the object
    [this.options] refers to, and the rest of the world.  The two
    fields of the instance are [private readonly] : they refer to this
    array and this object for good. *)
Record Store : Type := {
  steps_array : list Executor;
  options_object : OptionsObject;
  outside : World
}.

(** [constructor(options, steps)], in the world [w]. *)
Definition shared_constructor (opts : OptionsObject) (sts : list Executor)
  (w : World) : Store :=
  {| options_object := opts; steps_array := sts; outside := w |}.

(** An external asynchronous function : it reads and writes the store. *)
Definition Action : Type := Store -> Outcome Err * Store.

(** What a function of the options object is called with. *)
Inductive Argument : Type :=
| WithArgs (args : CliArgs)
| WithStepId (id : StepId)
| WithNothing.

(** Calling a function of the caller; the executors and the prompt. *)
Variable call : Fn -> Argument -> Action.
Variables fileTransformExecutor addDependencyExecutor
          newFileExecutor : Executor -> CliArgs -> Action.
Variable waitForConfirmation : string -> Action.

(** The monad : as [M], over the store; [None] when the turns allowed
    to the loop are used up. *)
Definition Shared (A : Type) : Type :=
  Store -> option (Completion Err A * Store
                   * list (Event Err CliArgs StepId Executor)).

Definition shared_ret {A} (a : A) : Shared A :=
  fun s => Some (Normal a, s, []).

Definition shared_bind {A B} (m : Shared A) (k : A -> Shared B)
  : Shared B := fun s =>
  match m s with
  | None => None
  | Some (Normal a, s1, t1) =>
      match k a s1 with
      | None => None
      | Some (r, s2, t2) => Some (r, s2, t1 ++ t2)
      end
  | Some (Throw err, s1, t1) => Some (Throw err, s1, t1)
  | Some (Pending, s1, t1) => Some (Pending, s1, t1)
  end.

Definition shared_try_catch {A} (m : Shared A) (handler : Err -> Shared A)
  : Shared A := fun s =>
  match m s with
  | Some (Throw err, s1, t1) =>
      match handler err s1 with
      | None => None
      | Some (r, s2, t2) => Some (r, s2, t1 ++ t2)
      end
  | other => other
  end.

Definition shared_get : Shared Store := fun s => Some (Normal s, s, []).

Definition shared_emit (ev : Event Err CliArgs StepId Executor)
  : Shared unit := fun s => Some (Normal tt, s, [ev]).

(** [await f(...)] : the call is made in the current store. *)
Definition shared_await (c : Call CliArgs StepId Executor) (f : Action)
  : Shared unit := fun s =>
  match f s with
  | (o, s1) => Some (completion_of o, s1, [Awaited c o])
  end.

Notation "x <- m ;; k" := (shared_bind m (fun x => k))
  (at level 61, m at next level, right associativity).
Notation "m ;; k" := (shared_bind m (fun _ => k))
  (at level 61, right associativity).

(** [for (const step of this.steps)] : the iterator keeps an index; at
    each turn it looks the index up in the array as it then is, and
    ends when the index is past the end.  [fuel] is the number of turns
    allowed. *)
Fixpoint shared_for_of (fuel : nat) (i : nat)
  (body : Executor -> Shared unit) : Shared unit :=
  match fuel with
  | 0 => fun _ => None
  | S fuel' =>
      s <- shared_get ;;
      match nth_error (steps_array s) i with
      | Some step => body step ;; shared_for_of fuel' (S i) body
      | None => shared_ret tt
      end
  end.

(** Lines 72-86. *)
Definition shared_validateArgs (cliArgs : CliArgs) : Shared unit :=
  shared_emit (Invoked (ValidateArgs cliArgs)) ;;
  s <- shared_get ;;
  match field_validateArgs (options_object s) with
  | Some fn => shared_await (Hook (ValidateArgs cliArgs))
                            (call fn (WithArgs cliArgs))
  | None => shared_ret tt
  end.

Definition shared_preInstall : Shared unit :=
  shared_emit (Invoked PreInstall) ;;
  s <- shared_get ;;
  match field_preInstall (options_object s) with
  | Some fn => shared_await (Hook PreInstall) (call fn WithNothing)
  | None => shared_ret tt
  end.

Definition shared_beforeEach (id : StepId) : Shared unit :=
  shared_emit (Invoked (BeforeEach id)) ;;
  s <- shared_get ;;
  match field_beforeEach (options_object s) with
  | Some fn => shared_await (Hook (BeforeEach id)) (call fn (WithStepId id))
  | None => shared_ret tt
  end.

Definition shared_afterEach (id : StepId) : Shared unit :=
  shared_emit (Invoked (AfterEach id)) ;;
  s <- shared_get ;;
  match field_afterEach (options_object s) with
  | Some fn => shared_await (Hook (AfterEach id)) (call fn (WithStepId id))
  | None => shared_ret tt
  end.

Definition shared_postInstall : Shared unit :=
  shared_emit (Invoked PostInstall) ;;
  s <- shared_get ;;
  match field_postInstall (options_object s) with
  | Some fn => shared_await (Hook PostInstall) (call fn WithNothing)
  | None => shared_ret tt
  end.

(** Lines 88-95. *)
Definition shared_displayFrontmatter : Shared unit :=
  s <- shared_get ;;
  shared_emit (LogBranded ("Welcome to the installer for "
                           ++ field_packageName (options_object s))%string) ;;
  s <- shared_get ;;
  shared_emit (LogBranded (field_packageDescription (options_object s))) ;;
  s <- shared_get ;;
  shared_emit (LogInfo ("This package is authored and supported by "
                        ++ field_packageOwner (options_object s))%string) ;;
  s <- shared_get ;;
  shared_emit (LogInfo ("For additional documentation and support please visit "
                        ++ field_packageRepoLink (options_object s))%string) ;;
  shared_emit ConsoleLog ;;
  shared_await (WaitForConfirmation confirmation_prompt)
               (waitForConfirmation confirmation_prompt).

(** Lines 97-128. *)
Definition shared_run (fuel : nat) (cliArgs : CliArgs) : Shared unit :=
  shared_displayFrontmatter ;;
  proceed <- shared_try_catch
               (shared_validateArgs cliArgs ;; shared_ret true)
               (fun err => shared_emit (LogError err) ;; shared_ret false) ;;
  if (proceed : bool) then
    shared_preInstall ;;
    shared_for_of fuel 0 (fun step =>
      shared_emit ConsoleLog ;;
      shared_beforeEach (stepId step) ;;
      shared_emit (LogExecutorFrontmatter step) ;;
      (if isFileTransformExecutor step then
         shared_await (FileTransformExecutor step cliArgs)
                      (fileTransformExecutor step cliArgs)
       else if isAddDependencyExecutor step then
         shared_await (AddDependencyExecutor step cliArgs)
                      (addDependencyExecutor step cliArgs)
       else if isNewFileExecutor step then
         shared_await (NewFileExecutor step cliArgs)
                      (newFileExecutor step cliArgs)
       else shared_ret tt) ;;
      shared_afterEach (stepId step)) ;;
    shared_postInstall ;;
    shared_emit ConsoleLog ;;
    s <- shared_get ;;
    shared_emit
      (LogSuccess ("Installer complete, "
                   ++ field_packageName (options_object s)
                   ++ " is now be configured for your app!")%string)
  else shared_ret tt.

(** A collaborator that writes neither to the array nor to the object. *)
Definition spares_installer (f : Action) : Prop :=
  forall s,
    steps_array (snd (f s)) = steps_array s
    /\ options_object (snd (f s)) = options_object s.

(** The array and the object are in [s'] what they are in [s]. *)
Definition unchanged (s s' : Store) : Prop :=
  steps_array s' = steps_array s /\ options_object s' = options_object s.

(** Run from [s], [m] ends and leaves the array and the object. *)
Definition keeps {A} (s : Store) (m : Shared A) : Prop :=
  exists r s' t, m s = Some (r, s', t) /\ unchanged s s'.

(** ** What the class itself does to its fields *)

Lemma unchanged_refl (s : Store) : unchanged s s.
Proof. now split. Qed.

Lemma unchanged_trans (s1 s2 s3 : Store) :
  unchanged s1 s2 -> unchanged s2 s3 -> unchanged s1 s3.
Proof. intros [H1 H2] [H3 H4]. split; congruence. Qed.

Lemma keeps_ret (A : Type) (s : Store) (a : A) : keeps s (shared_ret a).
Proof. exists (Normal a), s, []. split; [reflexivity | apply unchanged_refl]. Qed.

Lemma keeps_emit (s : Store) (ev : Event Err CliArgs StepId Executor) :
  keeps s (shared_emit ev).
Proof.
  exists (Normal tt), s, [ev]. split; [reflexivity | apply unchanged_refl].
Qed.

Lemma keeps_await (s : Store) (c : Call CliArgs StepId Executor)
  (f : Action) :
  spares_installer f -> keeps s (shared_await c f).
Proof.
  intros Hf. specialize (Hf s). unfold keeps, shared_await.
  destruct (f s) as [o s1]. cbn in Hf.
  exists (completion_of o), s1, [Awaited c o]. now split.
Qed.

Lemma keeps_bind (A B : Type) (s : Store) (m : Shared A)
  (k : A -> Shared B) :
  keeps s m ->
  (forall a s1, unchanged s s1 -> keeps s1 (k a)) ->
  keeps s (shared_bind m k).
Proof.
  intros (r & s1 & t1 & Hm & Hs1) Hk.
  unfold keeps, shared_bind. rewrite Hm.
  destruct r as [a | err | ].
  - destruct (Hk a s1 Hs1) as (r2 & s2 & t2 & Hk2 & Hs2). rewrite Hk2.
    exists r2, s2, (t1 ++ t2).
    split; [reflexivity | now apply unchanged_trans with s1].
  - exists (Throw err), s1, t1. now split.
  - exists Pending, s1, t1. now split.
Qed.

Lemma keeps_try_catch (A : Type) (s : Store) (m : Shared A)
  (handler : Err -> Shared A) :
  keeps s m ->
  (forall err s1, unchanged s s1 -> keeps s1 (handler err)) ->
  keeps s (shared_try_catch m handler).
Proof.
  intros (r & s1 & t1 & Hm & Hs1) Hk.
  unfold keeps, shared_try_catch. rewrite Hm.
  destruct r as [a | err | ].
  - exists (Normal a), s1, t1. now split.
  - destruct (Hk err s1 Hs1) as (r2 & s2 & t2 & Hk2 & Hs2). rewrite Hk2.
    exists r2, s2, (t1 ++ t2).
    split; [reflexivity | now apply unchanged_trans with s1].
  - exists Pending, s1, t1. now split.
Qed.

Lemma keeps_get (B : Type) (s : Store) (k : Store -> Shared B) :
  keeps s (k s) -> keeps s (shared_bind shared_get k).
Proof.
  intros (r & s1 & t & Hk & Hs1).
  exists r, s1, t. unfold shared_bind, shared_get. rewrite Hk.
  now split.
Qed.

Lemma keeps_for_of (body : Executor -> Shared unit) (fuel : nat) :
  forall i s,
    length (steps_array s) - i < fuel ->
    (forall x s1, unchanged s s1 -> keeps s1 (body x)) ->
    keeps s (shared_for_of fuel i body).
Proof.
  induction fuel as [ | fuel IH]; intros i s Hfuel Hbody; [lia |].
  cbn [shared_for_of]. apply keeps_get.
  destruct (nth_error (steps_array s) i) as [step | ] eqn:Hnth;
    [| apply keeps_ret].
  apply keeps_bind; [apply Hbody, unchanged_refl |].
  intros [] s1 Hs1. apply IH.
  - assert (Hi : i < length (steps_array s))
      by (apply nth_error_Some; congruence).
    destruct Hs1 as [Hsteps _]. rewrite Hsteps. lia.
  - intros x s2 Hs2. apply Hbody. now apply unchanged_trans with s1.
Qed.

Lemma keeps_hook (s : Store) (l : Lifecycle CliArgs StepId)
  (field : OptionsObject -> option Fn) (arg : Argument) :
  (forall fn a, spares_installer (call fn a)) ->
  keeps s (shared_emit (Invoked l) ;;
           s' <- shared_get ;;
           match field (options_object s') with
           | Some fn => shared_await (Hook l) (call fn arg)
           | None => shared_ret tt
           end).
Proof.
  intros Hcall. apply keeps_bind; [apply keeps_emit |]. intros [] s1 _.
  apply keeps_get.
  destruct (field (options_object s1));
    [apply keeps_await, Hcall | apply keeps_ret].
Qed.

Lemma keeps_displayFrontmatter (s : Store) :
  (forall prompt, spares_installer (waitForConfirmation prompt)) ->
  keeps s shared_displayFrontmatter.
Proof.
  intros Hprompt. unfold shared_displayFrontmatter.
  do 4 (apply keeps_get; apply keeps_bind; [apply keeps_emit |];
        intros [] ? _).
  apply keeps_bind; [apply keeps_emit |]. intros [] ? _.
  apply keeps_await, Hprompt.
Qed.

Lemma keeps_run (fuel : nat) (cliArgs : CliArgs) (s : Store) :
  (forall fn arg, spares_installer (call fn arg)) ->
  (forall step args, spares_installer (fileTransformExecutor step args)) ->
  (forall step args, spares_installer (addDependencyExecutor step args)) ->
  (forall step args, spares_installer (newFileExecutor step args)) ->
  (forall prompt, spares_installer (waitForConfirmation prompt)) ->
  length (steps_array s) < fuel ->
  keeps s (shared_run fuel cliArgs).
Proof.
  intros Hcall Hft Had Hnf Hprompt Hfuel. unfold shared_run.
  apply keeps_bind; [now apply keeps_displayFrontmatter |].
  intros [] s1 Hs1.
  apply keeps_bind.
  { apply keeps_try_catch.
    - apply keeps_bind; [| intros; apply keeps_ret].
      exact (keeps_hook s1 (ValidateArgs cliArgs) (@field_validateArgs)
                        (WithArgs cliArgs) Hcall).
    - intros err s2 _.
      apply keeps_bind; [apply keeps_emit | intros; apply keeps_ret]. }
  intros proceed s2 Hs2. destruct proceed; [| apply keeps_ret].
  apply keeps_bind.
  { exact (keeps_hook s2 PreInstall (@field_preInstall) WithNothing Hcall). }
  intros [] s3 Hs3.
  apply keeps_bind.
  { apply keeps_for_of.
    - destruct Hs1 as [H1 _], Hs2 as [H2 _], Hs3 as [H3 _].
      rewrite H3, H2, H1. lia.
    - intros step s4 _.
      apply keeps_bind; [apply keeps_emit |]. intros [] s5 _.
      apply keeps_bind.
      { exact (keeps_hook s5 (BeforeEach (stepId step)) (@field_beforeEach)
                          (WithStepId (stepId step)) Hcall). }
      intros [] s6 _.
      apply keeps_bind; [apply keeps_emit |]. intros [] s7 _.
      apply keeps_bind.
      { destruct (isFileTransformExecutor step); [apply keeps_await, Hft |].
        destruct (isAddDependencyExecutor step); [apply keeps_await, Had |].
        destruct (isNewFileExecutor step);
          [apply keeps_await, Hnf | apply keeps_ret]. }
      intros [] s8 _.
      exact (keeps_hook s8 (AfterEach (stepId step)) (@field_afterEach)
                        (WithStepId (stepId step)) Hcall). }
  intros [] s4 _.
  apply keeps_bind.
  { exact (keeps_hook s4 PostInstall (@field_postInstall) WithNothing Hcall). }
  intros [] s5 _.
  apply keeps_bind; [apply keeps_emit |]. intros [] s6 _.
  apply keeps_get. apply keeps_emit.
Qed.

(** C8 (amended) : the class never writes to its steps or to its
    options.  The constructor makes its two fields refer to the array
    and to the object it is given.  Provided no hook, no executor and
    not the prompt writes to that array or to that object, [run] ends
    (the loop makes no more turns than there are steps, and one to see
    the end) and leaves the list of steps, contents and order, and every
    field of the options as they were; so do [displayFrontmatter] and
    the five lifecycle methods. *)
Theorem installer_kept_by_its_own_code (fuel : nat) (cliArgs : CliArgs)
  (id : StepId) (s : Store) :
  (forall fn arg, spares_installer (call fn arg)) ->
  (forall step args, spares_installer (fileTransformExecutor step args)) ->
  (forall step args, spares_installer (addDependencyExecutor step args)) ->
  (forall step args, spares_installer (newFileExecutor step args)) ->
  (forall prompt, spares_installer (waitForConfirmation prompt)) ->
  length (steps_array s) < fuel ->
  (forall opts sts w,
      steps_array (shared_constructor opts sts w) = sts
      /\ options_object (shared_constructor opts sts w) = opts)
  /\ (exists r s' t,
         shared_run fuel cliArgs s = Some (r, s', t)
         /\ steps_array s' = steps_array s
         /\ options_object s' = options_object s)
  /\ (exists r s' t,
         shared_displayFrontmatter s = Some (r, s', t)
         /\ steps_array s' = steps_array s
         /\ options_object s' = options_object s)
  /\ keeps s (shared_validateArgs cliArgs)
  /\ keeps s shared_preInstall
  /\ keeps s (shared_beforeEach id)
  /\ keeps s (shared_afterEach id)
  /\ keeps s shared_postInstall.
Proof.
  intros Hcall Hft Had Hnf Hprompt Hfuel.
  split; [intros opts sts w; now split |].
  split; [now apply keeps_run |].
  split; [now apply keeps_displayFrontmatter |].
  split.
  { exact (keeps_hook s (ValidateArgs cliArgs) (@field_validateArgs)
                      (WithArgs cliArgs) Hcall). }
  split.
  { exact (keeps_hook s PreInstall (@field_preInstall) WithNothing Hcall). }
  split.
  { exact (keeps_hook s (BeforeEach id) (@field_beforeEach)
                      (WithStepId id) Hcall). }
  split.
  { exact (keeps_hook s (AfterEach id) (@field_afterEach)
                      (WithStepId id) Hcall). }
  exact (keeps_hook s PostInstall (@field_postInstall) WithNothing Hcall).
Qed.

(** ** The two embeddings agree

    When no collaborator writes to the array or to the object, a run
    over the store is the run of the first part : the installer of the
    first part holds the steps of the array and the options of the
    object, each hook being what calling the function does to the rest
    of the world. *)

Lemma skipn_nth_error_cons (A : Type) (l : list A) :
  forall i x, nth_error l i = Some x -> skipn i l = x :: skipn (S i) l.
Proof.
  induction l as [ | y l IH]; intros [ | i] x H; cbn in *;
    try discriminate.
  - now injection H as ->.
  - now apply IH.
Qed.

Section Agreement.

Variable sts : list Executor.
Variable obj : OptionsObject.

Definition store_of (w : World) : Store :=
  {| steps_array := sts; options_object := obj; outside := w |}.

(** What a collaborator does to the rest of the world. *)
Definition on_world (f : Action) : Async World Err :=
  fun w => (fst (f (store_of w)), outside (snd (f (store_of w)))).

Definition seen_options : InstallerOptions World Err CliArgs StepId :=
  {| packageName := field_packageName obj;
     packageDescription := field_packageDescription obj;
     packageOwner := field_packageOwner obj;
     packageRepoLink := field_packageRepoLink obj;
     validateArgs :=
       option_map (fun fn args => on_world (call fn (WithArgs args)))
                  (field_validateArgs obj);
     preInstall :=
       option_map (fun fn => on_world (call fn WithNothing))
                  (field_preInstall obj);
     beforeEach :=
       option_map (fun fn id => on_world (call fn (WithStepId id)))
                  (field_beforeEach obj);
     afterEach :=
       option_map (fun fn id => on_world (call fn (WithStepId id)))
                  (field_afterEach obj);
     postInstall :=
       option_map (fun fn => on_world (call fn WithNothing))
                  (field_postInstall obj) |}.

Definition heap_of (w : World) : Heap World Err CliArgs StepId Executor :=
  {| this := constructor seen_options sts; world := w |}.

(** From the world [w], [ms] over the store and [m] over the heap end
    the same way, with the same events, in the same world, the array,
    the object and the installer being left as they are. *)
Definition agrees_at {A} (w : World) (ms : Shared A)
  (m : M World Err CliArgs StepId Executor A) : Prop :=
  ms (store_of w)
  = Some (completion (m (heap_of w)),
          store_of (world (final_heap (m (heap_of w)))),
          trace (m (heap_of w)))
  /\ this (final_heap (m (heap_of w))) = constructor seen_options sts.

Lemma agrees_ret (A : Type) (w : World) (a : A) :
  agrees_at w (shared_ret a) (ret a).
Proof. now split. Qed.

Lemma agrees_emit (w : World) (ev : Event Err CliArgs StepId Executor) :
  agrees_at w (shared_emit ev) (emit ev).
Proof. now split. Qed.

Lemma agrees_await (w : World) (c : Call CliArgs StepId Executor)
  (f : Action) :
  spares_installer f ->
  agrees_at w (shared_await c f) (await c (on_world f)).
Proof.
  intros Hf. specialize (Hf (store_of w)).
  unfold agrees_at, shared_await, await, on_world,
         completion, trace, final_heap; cbn.
  destruct (f (store_of w)) as [o s1]; cbn in *.
  destruct s1 as [sts1 obj1 w1]; cbn in *.
  destruct Hf as [-> ->]. now split.
Qed.

Lemma agrees_bind (A B : Type) (w : World) (ms : Shared A)
  (ks : A -> Shared B) (m : M World Err CliArgs StepId Executor A)
  (k : A -> M World Err CliArgs StepId Executor B) :
  agrees_at w ms m ->
  (forall a w1, agrees_at w1 (ks a) (k a)) ->
  agrees_at w (shared_bind ms ks) (bind m k).
Proof.
  intros [Hm Hthis] Hk.
  unfold agrees_at, shared_bind, bind, completion, trace, final_heap in *.
  rewrite Hm.
  destruct (m (heap_of w)) as [[r h1] t1]; cbn in *.
  destruct h1 as [this1 w1]; cbn in *. subst this1.
  destruct r as [a | err | ]; [| now split ..].
  destruct (Hk a w1) as [Hk1 Hk2].
  unfold heap_of in Hk1, Hk2. rewrite Hk1.
  now destruct (k a _) as [[r2 h2] t2].
Qed.

Lemma agrees_try_catch (A : Type) (w : World) (ms : Shared A)
  (hs : Err -> Shared A) (m : M World Err CliArgs StepId Executor A)
  (handler : Err -> M World Err CliArgs StepId Executor A) :
  agrees_at w ms m ->
  (forall err w1, agrees_at w1 (hs err) (handler err)) ->
  agrees_at w (shared_try_catch ms hs) (try_catch m handler).
Proof.
  intros [Hm Hthis] Hk.
  unfold agrees_at, shared_try_catch, try_catch,
         completion, trace, final_heap in *.
  rewrite Hm.
  destruct (m (heap_of w)) as [[r h1] t1]; cbn in *.
  destruct h1 as [this1 w1]; cbn in *. subst this1.
  destruct r as [a | err | ]; [now split | | now split].
  destruct (Hk err w1) as [Hk1 Hk2].
  unfold heap_of in Hk1, Hk2. rewrite Hk1.
  now destruct (handler err _) as [[r2 h2] t2].
Qed.

Lemma agrees_shared_get (A : Type) (w : World) (ks : Store -> Shared A)
  (m : M World Err CliArgs StepId Executor A) :
  agrees_at w (ks (store_of w)) m ->
  agrees_at w (shared_bind shared_get ks) m.
Proof.
  intros [Hm Hthis]. split; [| assumption].
  unfold shared_bind, shared_get. now rewrite Hm.
Qed.

Lemma agrees_get_this (A : Type) (w : World) (ms : Shared A)
  (k : Installer World Err CliArgs StepId Executor
       -> M World Err CliArgs StepId Executor A) :
  agrees_at w ms (k (constructor seen_options sts)) ->
  agrees_at w ms (bind (@get_this _ _ _ _ _) k).
Proof. unfold agrees_at. now rewrite bind_get_this. Qed.

Hypothesis call_spares : forall fn arg, spares_installer (call fn arg).

Lemma agrees_validateArgs (cliArgs : CliArgs) (w : World) :
  agrees_at w (shared_validateArgs cliArgs) (this_validateArgs cliArgs).
Proof.
  apply agrees_bind; [apply agrees_emit |]. intros [] w1.
  apply agrees_shared_get, agrees_get_this. cbn.
  destruct (field_validateArgs obj); cbn;
    [apply agrees_await, call_spares | apply agrees_ret].
Qed.

Lemma agrees_preInstall (w : World) :
  agrees_at w shared_preInstall (@this_preInstall _ _ _ _ _).
Proof.
  apply agrees_bind; [apply agrees_emit |]. intros [] w1.
  apply agrees_shared_get, agrees_get_this. cbn.
  destruct (field_preInstall obj); cbn;
    [apply agrees_await, call_spares | apply agrees_ret].
Qed.

Lemma agrees_beforeEach (id : StepId) (w : World) :
  agrees_at w (shared_beforeEach id) (this_beforeEach id).
Proof.
  apply agrees_bind; [apply agrees_emit |]. intros [] w1.
  apply agrees_shared_get, agrees_get_this. cbn.
  destruct (field_beforeEach obj); cbn;
    [apply agrees_await, call_spares | apply agrees_ret].
Qed.

Lemma agrees_afterEach (id : StepId) (w : World) :
  agrees_at w (shared_afterEach id) (this_afterEach id).
Proof.
  apply agrees_bind; [apply agrees_emit |]. intros [] w1.
  apply agrees_shared_get, agrees_get_this. cbn.
  destruct (field_afterEach obj); cbn;
    [apply agrees_await, call_spares | apply agrees_ret].
Qed.

Lemma agrees_postInstall (w : World) :
  agrees_at w shared_postInstall (@this_postInstall _ _ _ _ _).
Proof.
  apply agrees_bind; [apply agrees_emit |]. intros [] w1.
  apply agrees_shared_get, agrees_get_this. cbn.
  destruct (field_postInstall obj); cbn;
    [apply agrees_await, call_spares | apply agrees_ret].
Qed.

Lemma agrees_for_of (bs : Executor -> Shared unit)
  (b : Executor -> M World Err CliArgs StepId Executor unit)
  (fuel : nat) :
  (forall x w, agrees_at w (bs x) (b x)) ->
  forall i w,
    length sts - i < fuel ->
    agrees_at w (shared_for_of fuel i bs) (for_of (skipn i sts) b).
Proof.
  intros Hb.
  induction fuel as [ | fuel IH]; intros i w Hfuel; [lia |].
  cbn [shared_for_of]. apply agrees_shared_get. cbn [steps_array store_of].
  destruct (nth_error sts i) as [step | ] eqn:Hnth.
  - rewrite (skipn_nth_error_cons sts i Hnth). cbn [for_of].
    apply agrees_bind; [apply Hb |]. intros [] w1. apply IH.
    assert (Hi : i < length sts) by (apply nth_error_Some; congruence).
    lia.
  - apply nth_error_None in Hnth. rewrite (skipn_all2 sts Hnth).
    apply agrees_ret.
Qed.

Hypothesis fileTransformExecutor_spares :
  forall step args, spares_installer (fileTransformExecutor step args).
Hypothesis addDependencyExecutor_spares :
  forall step args, spares_installer (addDependencyExecutor step args).
Hypothesis newFileExecutor_spares :
  forall step args, spares_installer (newFileExecutor step args).
Hypothesis waitForConfirmation_spares :
  forall prompt, spares_installer (waitForConfirmation prompt).

Lemma agrees_displayFrontmatter (w : World) :
  agrees_at w shared_displayFrontmatter
            (displayFrontmatter
               (fun prompt => on_world (waitForConfirmation prompt))).
Proof.
  unfold shared_displayFrontmatter, displayFrontmatter.
  apply agrees_get_this.
  apply agrees_shared_get, agrees_bind; [apply agrees_emit |]. intros [] w1.
  apply agrees_shared_get, agrees_bind; [apply agrees_emit |]. intros [] w2.
  apply agrees_shared_get, agrees_bind; [apply agrees_emit |]. intros [] w3.
  apply agrees_shared_get, agrees_bind; [apply agrees_emit |]. intros [] w4.
  apply agrees_bind; [apply agrees_emit |]. intros [] w5.
  apply agrees_await, waitForConfirmation_spares.
Qed.

Lemma agrees_run (fuel : nat) (cliArgs : CliArgs) (w : World) :
  length sts < fuel ->
  agrees_at w (shared_run fuel cliArgs)
            (run stepId isFileTransformExecutor isAddDependencyExecutor
                 isNewFileExecutor
                 (fun step args =>
                    on_world (fileTransformExecutor step args))
                 (fun step args =>
                    on_world (addDependencyExecutor step args))
                 (fun step args => on_world (newFileExecutor step args))
                 (fun prompt => on_world (waitForConfirmation prompt))
                 cliArgs).
Proof.
  intros Hfuel. unfold shared_run, run.
  apply agrees_bind; [apply agrees_displayFrontmatter |]. intros [] w1.
  apply agrees_bind.
  { apply agrees_try_catch.
    - apply agrees_bind; [apply agrees_validateArgs |].
      intros [] w2. apply agrees_ret.
    - intros err w2.
      apply agrees_bind; [apply agrees_emit |]. intros [] w3.
      apply agrees_ret. }
  intros proceed w2. destruct proceed; [| apply agrees_ret].
  apply agrees_bind; [apply agrees_preInstall |]. intros [] w3.
  apply agrees_get_this.
  apply agrees_bind.
  { apply (@agrees_for_of _ _ fuel) with (i := 0); [| lia].
    intros step w4.
    apply agrees_bind; [apply agrees_emit |]. intros [] w5.
    apply agrees_bind; [apply agrees_beforeEach |]. intros [] w6.
    apply agrees_bind; [apply agrees_emit |]. intros [] w7.
    apply agrees_bind; [| intros [] w8; apply agrees_afterEach].
    destruct (isFileTransformExecutor step);
      [apply agrees_await, fileTransformExecutor_spares |].
    destruct (isAddDependencyExecutor step);
      [apply agrees_await, addDependencyExecutor_spares |].
    destruct (isNewFileExecutor step);
      [apply agrees_await, newFileExecutor_spares | apply agrees_ret]. }
  intros [] w4.
  apply agrees_bind; [apply agrees_postInstall |]. intros [] w5.
  apply agrees_bind; [apply agrees_emit |]. intros [] w6.
  apply agrees_shared_get, agrees_get_this. apply agrees_emit.
Qed.

End Agreement.

(** X12 : when no hook, no executor and not the prompt writes to the
    array of steps or to the options object, the run over the store is
    the run of the first part, for the installer that holds the steps of
    the array and the options of the object and the collaborators seen
    through what they do to the rest of the world : it ends (the loop
    needs one turn more than there are steps), with the same completion
    and the same events, leaving the rest of the world as that run
    leaves it and the array and the object as they were. *)
Theorem embeddings_agree (fuel : nat) (cliArgs : CliArgs) (s : Store) :
  (forall fn arg, spares_installer (call fn arg)) ->
  (forall step args, spares_installer (fileTransformExecutor step args)) ->
  (forall step args, spares_installer (addDependencyExecutor step args)) ->
  (forall step args, spares_installer (newFileExecutor step args)) ->
  (forall prompt, spares_installer (waitForConfirmation prompt)) ->
  length (steps_array s) < fuel ->
  let seen := on_world (steps_array s) (options_object s) in
  let x :=
    run stepId isFileTransformExecutor isAddDependencyExecutor
        isNewFileExecutor
        (fun step args => seen (fileTransformExecutor step args))
        (fun step args => seen (addDependencyExecutor step args))
        (fun step args => seen (newFileExecutor step args))
        (fun prompt => seen (waitForConfirmation prompt))
        cliArgs
        {| this := constructor
                     (seen_options (steps_array s) (options_object s))
                     (steps_array s);
           world := outside s |} in
  shared_run fuel cliArgs s
  = Some (completion x,
          {| steps_array := steps_array s;
             options_object := options_object s;
             outside := world (final_heap x) |},
          trace x).
Proof.
  intros Hcall Hft Had Hnf Hprompt Hfuel seen x.
  destruct (@agrees_run (steps_array s) (options_object s)
                        Hcall Hft Had Hnf Hprompt fuel cliArgs (outside s)
                        Hfuel) as [Hrun _].
  destruct s as [sts obj w]. exact Hrun.
Qed.

End Shared.

Arguments WithArgs {CliArgs StepId} args.
Arguments WithStepId {CliArgs StepId} id.
Arguments WithNothing {CliArgs StepId}.

Local Open Scope string_scope.
Local Open Scope list_scope.

(** * Concrete installers

    The three scenarios of the specification, and an installer with
    every hook and a step no executor claims.  The world is the journal
    of what the collaborators did; thrown values are strings. *)

Inductive demo_Kind : Type :=
| TransformStep
| DependencyStep
| FileStep
| OtherStep.

Record demo_Executor : Type := {
  demo_stepId : nat;
  demo_kind : demo_Kind
}.

Definition demo_World : Type := list string.
Definition demo_CliArgs : Type := list string.

Definition demo_isFileTransformExecutor (step : demo_Executor) : bool :=
  match demo_kind step with TransformStep => true | _ => false end.
Definition demo_isAddDependencyExecutor (step : demo_Executor) : bool :=
  match demo_kind step with DependencyStep => true | _ => false end.
Definition demo_isNewFileExecutor (step : demo_Executor) : bool :=
  match demo_kind step with FileStep => true | _ => false end.

(** A collaborator that writes one line in the journal. *)
Definition demo_does (line : string) : Async demo_World string :=
  fun w => (Fulfilled, w ++ [line]).

(** A collaborator that throws. *)
Definition demo_throws (err : string) : Async demo_World string :=
  fun w => (Rejected err, w).

Definition demo_fileTransformExecutor (step : demo_Executor)
  (args : demo_CliArgs) : Async demo_World string :=
  demo_does "file transformed".
Definition demo_addDependencyExecutor (step : demo_Executor)
  (args : demo_CliArgs) : Async demo_World string :=
  demo_does "dependency added".
Definition demo_newFileExecutor (step : demo_Executor)
  (args : demo_CliArgs) : Async demo_World string :=
  demo_does "file created".
Definition demo_waitForConfirmation (prompt : string)
  : Async demo_World string :=
  demo_does "enter pressed".

Definition demo_run (cliArgs : demo_CliArgs)
  : M demo_World string demo_CliArgs nat demo_Executor unit :=
  run demo_stepId demo_isFileTransformExecutor demo_isAddDependencyExecutor
      demo_isNewFileExecutor demo_fileTransformExecutor
      demo_addDependencyExecutor demo_newFileExecutor
      demo_waitForConfirmation cliArgs.

Definition demo_args : demo_CliArgs := ["--dry-run"].

Definition demo_options (validate : option (demo_CliArgs -> Async demo_World string))
  (pre : option (Async demo_World string))
  (before after : option (nat -> Async demo_World string))
  (post : option (Async demo_World string))
  : InstallerOptions demo_World string demo_CliArgs nat :=
  {| packageName := "tailwind";
     packageDescription := "Adds tailwind to the app";
     packageOwner := "blitz";
     packageRepoLink := "https://example.org/tailwind";
     validateArgs := validate;
     preInstall := pre;
     beforeEach := before;
     afterEach := after;
     postInstall := post |}.

Definition demo_heap (opts : InstallerOptions demo_World string demo_CliArgs nat)
  (sts : list demo_Executor)
  : Heap demo_World string demo_CliArgs nat demo_Executor :=
  {| this := constructor opts sts; world := [] |}.

(** Scenario A : no hook, a file transform then a dependency. *)
Definition scenario_A : Heap demo_World string demo_CliArgs nat demo_Executor :=
  demo_heap (demo_options None None None None None)
            [ {| demo_stepId := 1; demo_kind := TransformStep |};
              {| demo_stepId := 2; demo_kind := DependencyStep |} ].

(** Scenario B : [validateArgs] raises. *)
Definition scenario_B : Heap demo_World string demo_CliArgs nat demo_Executor :=
  demo_heap (demo_options (Some (fun _ => demo_throws "bad args"))
                          (Some (demo_does "preInstall"))
                          None None
                          (Some (demo_does "postInstall")))
            [ {| demo_stepId := 1; demo_kind := TransformStep |} ].

(** Scenario C : [beforeEach] raises on the second step. *)
Definition scenario_C : Heap demo_World string demo_CliArgs nat demo_Executor :=
  demo_heap (demo_options None None
                          (Some (fun id => if Nat.eqb id 2
                                           then demo_throws "boom"
                                           else demo_does "beforeEach"))
                          (Some (fun _ => demo_does "afterEach"))
                          (Some (demo_does "postInstall")))
            [ {| demo_stepId := 1; demo_kind := TransformStep |};
              {| demo_stepId := 2; demo_kind := DependencyStep |} ].

Definition demo_all_hooks
  : InstallerOptions demo_World string demo_CliArgs nat :=
  demo_options (Some (fun _ => demo_does "validateArgs"))
               (Some (demo_does "preInstall"))
               (Some (fun _ => demo_does "beforeEach"))
               (Some (fun _ => demo_does "afterEach"))
               (Some (demo_does "postInstall")).

Definition demo_unknown_step : demo_Executor :=
  {| demo_stepId := 2; demo_kind := OtherStep |}.

(** Every hook, and a step of no known kind between two known ones. *)
Definition scenario_miss : Heap demo_World string demo_CliArgs nat demo_Executor :=
  demo_heap demo_all_hooks
            [ {| demo_stepId := 1; demo_kind := FileStep |};
              demo_unknown_step;
              {| demo_stepId := 3; demo_kind := TransformStep |} ].

(** Every hook and no step. *)
Definition scenario_empty : Heap demo_World string demo_CliArgs nat demo_Executor :=
  demo_heap demo_all_hooks [].

(** Scenario A : the prompt once, both executors once each in order, the
    success message, no hook call. *)
Example scenario_A_runs :
  completion (demo_run demo_args scenario_A) = Normal tt
  /\ calls (trace (demo_run demo_args scenario_A)) =
       [ WaitForConfirmation confirmation_prompt;
         FileTransformExecutor
           {| demo_stepId := 1; demo_kind := TransformStep |} demo_args;
         AddDependencyExecutor
           {| demo_stepId := 2; demo_kind := DependencyStep |} demo_args ]
  /\ successes (trace (demo_run demo_args scenario_A)) =
       ["Installer complete, tailwind is now be configured for your app!"%string]
  /\ world (final_heap (demo_run demo_args scenario_A)) =
       ["enter pressed"; "file transformed"; "dependency added"]%string.
Proof. repeat split; reflexivity. Qed.

(** Scenario B : the error logged once, no executor, no [preInstall],
    no [postInstall]. *)
Example scenario_B_stops :
  demo_run demo_args scenario_B =
  (Normal tt,
   {| this := this scenario_B; world := ["enter pressed"%string] |},
   frontmatter_events demo_Executor (options (this scenario_B))
   ++ [Invoked (ValidateArgs demo_args);
       Awaited (Hook (ValidateArgs demo_args)) (Rejected "bad args"%string);
       LogError "bad args"%string]).
Proof. reflexivity. Qed.

(** Scenario C : the first step is carried out, the second
    [beforeEach] raises, and nothing else happens. *)
Example scenario_C_aborts :
  completion (demo_run demo_args scenario_C) = Throw "boom"%string
  /\ calls (trace (demo_run demo_args scenario_C)) =
       [ WaitForConfirmation confirmation_prompt;
         Hook (BeforeEach 1);
         FileTransformExecutor
           {| demo_stepId := 1; demo_kind := TransformStep |} demo_args;
         Hook (AfterEach 1);
         Hook (BeforeEach 2) ]
  /\ invocations (trace (demo_run demo_args scenario_C)) =
       [ ValidateArgs demo_args; PreInstall;
         BeforeEach 1; AfterEach 1; BeforeEach 2 ]
  /\ world (final_heap (demo_run demo_args scenario_C)) =
       ["enter pressed"; "beforeEach"; "file transformed"; "afterEach"]%string.
Proof. repeat split; reflexivity. Qed.

(** * The hypotheses of the claims hold on the scenarios *)

Lemma validateArgs_rejection_witness :
  In (Awaited (Hook (ValidateArgs demo_args)) (Rejected "bad args"))
     (trace (demo_run demo_args scenario_B))
  /\ completion (demo_run demo_args scenario_B) = Normal tt
  /\ errors_logged (trace (demo_run demo_args scenario_B)) = ["bad args"]
  /\ calls (trace (demo_run demo_args scenario_B)) =
       [WaitForConfirmation confirmation_prompt;
        Hook (ValidateArgs demo_args)]
  /\ invocations (trace (demo_run demo_args scenario_B)) =
       [ValidateArgs demo_args]
  /\ successes (trace (demo_run demo_args scenario_B)) = [].
Proof.
  assert (Hin : In (Awaited (Hook (ValidateArgs demo_args)) (Rejected "bad args"))
                   (trace (demo_run demo_args scenario_B)))
    by (cbn; repeat first [left; reflexivity | right]).
  split; [exact Hin |].
  pose proof (validateArgs_rejection_ends_run
                demo_stepId demo_isFileTransformExecutor
                demo_isAddDependencyExecutor demo_isNewFileExecutor
                demo_fileTransformExecutor demo_addDependencyExecutor
                demo_newFileExecutor demo_waitForConfirmation
                demo_args demo_args "bad args" scenario_B Hin)
    as (_ & _ & Hnormal & _ & Herrors & Hcalls & Hentered & _ & _ & _
        & Hsuccess).
  repeat split; assumption.
Defined.


Lemma unguarded_failure_witness :
  In (Awaited (Hook (BeforeEach 2)) (Rejected "boom"))
     (trace (demo_run demo_args scenario_C))
  /\ is_validateArgs
       (@Hook demo_CliArgs nat demo_Executor (BeforeEach 2)) = false
  /\ completion (demo_run demo_args scenario_C) = Throw "boom"
  /\ successes (trace (demo_run demo_args scenario_C)) = []
  /\ ~ In (Hook PostInstall) (calls (trace (demo_run demo_args scenario_C))).
Proof.
  assert (Hin : In (Awaited (Hook (BeforeEach 2)) (Rejected "boom"))
                   (trace (demo_run demo_args scenario_C)))
    by (cbn; repeat first [left; reflexivity | right]).
  split; [exact Hin |]. split; [reflexivity |].
  pose proof (unguarded_failure_propagates
                demo_stepId demo_isFileTransformExecutor
                demo_isAddDependencyExecutor demo_isNewFileExecutor
                demo_fileTransformExecutor demo_addDependencyExecutor
                demo_newFileExecutor demo_waitForConfirmation
                demo_args (Hook (BeforeEach 2)) "boom" scenario_C Hin eq_refl)
    as (Hthrow & _ & Hsuccess & _ & Hpost & _).
  split; [exact Hthrow |]. split; [exact Hsuccess |].
  apply Hpost. discriminate.
Defined.

Lemma dispatch_miss_witness :
  demo_isFileTransformExecutor demo_unknown_step = false
  /\ demo_isAddDependencyExecutor demo_unknown_step = false
  /\ demo_isNewFileExecutor demo_unknown_step = false
  /\ steps (this scenario_miss) =
       [ {| demo_stepId := 1; demo_kind := FileStep |} ]
       ++ demo_unknown_step
       :: [ {| demo_stepId := 3; demo_kind := TransformStep |} ]
  /\ completion (demo_run demo_args scenario_miss) = Normal tt
  /\ trace (demo_run demo_args scenario_miss) =
       frontmatter_events demo_Executor (options (this scenario_miss))
       ++ [ Invoked (ValidateArgs demo_args);
            Awaited (Hook (ValidateArgs demo_args)) Fulfilled;
            Invoked PreInstall;
            Awaited (Hook PreInstall) Fulfilled ]
       ++ [ ConsoleLog;
            Invoked (BeforeEach 1);
            Awaited (Hook (BeforeEach 1)) Fulfilled;
            LogExecutorFrontmatter
              {| demo_stepId := 1; demo_kind := FileStep |};
            Awaited (NewFileExecutor
                       {| demo_stepId := 1; demo_kind := FileStep |}
                       demo_args) Fulfilled;
            Invoked (AfterEach 1);
            Awaited (Hook (AfterEach 1)) Fulfilled ]
       ++ [ ConsoleLog;
            Invoked (BeforeEach 2);
            Awaited (Hook (BeforeEach 2)) Fulfilled;
            LogExecutorFrontmatter demo_unknown_step;
            Invoked (AfterEach 2);
            Awaited (Hook (AfterEach 2)) Fulfilled ]
       ++ [ ConsoleLog;
            Invoked (BeforeEach 3);
            Awaited (Hook (BeforeEach 3)) Fulfilled;
            LogExecutorFrontmatter
              {| demo_stepId := 3; demo_kind := TransformStep |};
            Awaited (FileTransformExecutor
                       {| demo_stepId := 3; demo_kind := TransformStep |}
                       demo_args) Fulfilled;
            Invoked (AfterEach 3);
            Awaited (Hook (AfterEach 3)) Fulfilled ]
       ++ [ Invoked PostInstall;
            Awaited (Hook PostInstall) Fulfilled;
            ConsoleLog;
            LogSuccess
              "Installer complete, tailwind is now be configured for your app!" ].
Proof.
  do 4 (split; [reflexivity |]).
  pose proof (dispatch_miss_keeps_hooks
                demo_stepId demo_isFileTransformExecutor
                demo_isAddDependencyExecutor demo_isNewFileExecutor
                demo_fileTransformExecutor demo_addDependencyExecutor
                demo_newFileExecutor demo_waitForConfirmation
                demo_args demo_unknown_step
                [ {| demo_stepId := 1; demo_kind := FileStep |} ]
                [ {| demo_stepId := 3; demo_kind := TransformStep |} ]
                scenario_miss
                eq_refl eq_refl eq_refl eq_refl)
    as (_ & Hevents & Hgoes & _).
  destruct Hgoes as [Hnormal Htrace];
    [apply no_failure_forallb; reflexivity |].
  split; [exact Hnormal |].
  etransitivity; [exact Htrace |].
  etransitivity; [exact Hevents |].
  reflexivity.
Defined.


(** Predicates that overlap : a transform step is also taken for a
    dependency step, and any step for a file step. *)
Definition loose_isAddDependencyExecutor (step : demo_Executor) : bool :=
  match demo_kind step with
  | TransformStep | DependencyStep => true
  | _ => false
  end.
Definition loose_isNewFileExecutor (step : demo_Executor) : bool := true.

Definition loose_run (cliArgs : demo_CliArgs)
  : M demo_World string demo_CliArgs nat demo_Executor unit :=
  run demo_stepId demo_isFileTransformExecutor loose_isAddDependencyExecutor
      loose_isNewFileExecutor demo_fileTransformExecutor
      demo_addDependencyExecutor demo_newFileExecutor
      demo_waitForConfirmation cliArgs.

Lemma dispatch_first_match_witness :
  (demo_isFileTransformExecutor
     {| demo_stepId := 1; demo_kind := TransformStep |} = true
   /\ loose_isAddDependencyExecutor
        {| demo_stepId := 1; demo_kind := TransformStep |} = true
   /\ loose_isNewFileExecutor
        {| demo_stepId := 1; demo_kind := TransformStep |} = true)
  /\ (loose_isAddDependencyExecutor
        {| demo_stepId := 2; demo_kind := DependencyStep |} = true
      /\ loose_isNewFileExecutor
           {| demo_stepId := 2; demo_kind := DependencyStep |} = true)
  /\ completion (loose_run demo_args scenario_A) = Normal tt
  /\ rendered (trace (loose_run demo_args scenario_A)) =
       [ {| demo_stepId := 1; demo_kind := TransformStep |};
         {| demo_stepId := 2; demo_kind := DependencyStep |} ]
  /\ filter is_executor (calls (trace (loose_run demo_args scenario_A))) =
       [ FileTransformExecutor
           {| demo_stepId := 1; demo_kind := TransformStep |} demo_args;
         AddDependencyExecutor
           {| demo_stepId := 2; demo_kind := DependencyStep |} demo_args ].
Proof.
  pose proof (dispatch_first_match
                demo_stepId demo_isFileTransformExecutor
                loose_isAddDependencyExecutor loose_isNewFileExecutor
                demo_fileTransformExecutor demo_addDependencyExecutor
                demo_newFileExecutor demo_waitForConfirmation
                demo_args demo_unknown_step scenario_A)
    as (_ & _ & _ & _ & _ & Hgoes & _).
  split; [repeat split |]. split; [repeat split |].
  destruct Hgoes as (Hnormal & Hrendered & Hcalls);
    [apply no_failure_forallb; reflexivity |].
  split; [exact Hnormal |].
  split; [exact Hrendered | exact Hcalls].
Defined.

Lemma absent_hook_witness :
  validateArgs (options (this scenario_A)) = None
  /\ preInstall (options (this scenario_A)) = None
  /\ errors_logged (trace (demo_run demo_args scenario_A)) = []
  /\ ~ In (Hook PreInstall) (calls (trace (demo_run demo_args scenario_A)))
  /\ this_preInstall scenario_A = (Normal tt, scenario_A, [Invoked PreInstall]).
Proof.
  pose proof (absent_hook_is_noop
                demo_stepId demo_isFileTransformExecutor
                demo_isAddDependencyExecutor demo_isNewFileExecutor
                demo_fileTransformExecutor demo_addDependencyExecutor
                demo_newFileExecutor demo_waitForConfirmation
                demo_args 1 scenario_A)
    as (Hvalidate & Hpre & _).
  split; [reflexivity |]. split; [reflexivity |].
  destruct (Hvalidate eq_refl) as (_ & _ & _ & Herrors & _).
  destruct (Hpre eq_refl) as (Hnoop & Hnever).
  repeat split; assumption.
Defined.

Lemma run_phase_order_witness :
  completes (demo_run demo_args scenario_miss)
  /\ trace (demo_run demo_args scenario_miss) =
       [ LogBranded "Welcome to the installer for tailwind";
         LogBranded "Adds tailwind to the app";
         LogInfo "This package is authored and supported by blitz";
         LogInfo "For additional documentation and support please visit https://example.org/tailwind";
         ConsoleLog;
         Awaited (WaitForConfirmation "Press enter to begin installation")
                 Fulfilled;
         Invoked (ValidateArgs demo_args);
         Awaited (Hook (ValidateArgs demo_args)) Fulfilled;
         Invoked PreInstall;
         Awaited (Hook PreInstall) Fulfilled;
         ConsoleLog;
         Invoked (BeforeEach 1);
         Awaited (Hook (BeforeEach 1)) Fulfilled;
         LogExecutorFrontmatter {| demo_stepId := 1; demo_kind := FileStep |};
         Awaited (NewFileExecutor
                    {| demo_stepId := 1; demo_kind := FileStep |} demo_args)
                 Fulfilled;
         Invoked (AfterEach 1);
         Awaited (Hook (AfterEach 1)) Fulfilled;
         ConsoleLog;
         Invoked (BeforeEach 2);
         Awaited (Hook (BeforeEach 2)) Fulfilled;
         LogExecutorFrontmatter demo_unknown_step;
         Invoked (AfterEach 2);
         Awaited (Hook (AfterEach 2)) Fulfilled;
         ConsoleLog;
         Invoked (BeforeEach 3);
         Awaited (Hook (BeforeEach 3)) Fulfilled;
         LogExecutorFrontmatter
           {| demo_stepId := 3; demo_kind := TransformStep |};
         Awaited (FileTransformExecutor
                    {| demo_stepId := 3; demo_kind := TransformStep |}
                    demo_args)
                 Fulfilled;
         Invoked (AfterEach 3);
         Awaited (Hook (AfterEach 3)) Fulfilled;
         Invoked PostInstall;
         Awaited (Hook PostInstall) Fulfilled;
         ConsoleLog;
         LogSuccess
           "Installer complete, tailwind is now be configured for your app!" ].
Proof.
  assert (Hok : completes (demo_run demo_args scenario_miss))
    by (split; [reflexivity | apply no_failure_forallb; reflexivity]).
  split; [exact Hok |].
  pose proof (run_phase_order
                demo_stepId demo_isFileTransformExecutor
                demo_isAddDependencyExecutor demo_isNewFileExecutor
                demo_fileTransformExecutor demo_addDependencyExecutor
                demo_newFileExecutor demo_waitForConfirmation
                demo_args scenario_miss)
    as (_ & Hcomplete & _).
  exact (Hcomplete Hok).
Defined.

(** * The hypotheses of the further properties hold on the scenarios *)

(** A collaborator that never settles. *)
Definition demo_never : Async demo_World string :=
  fun w => (NeverSettles, w).

(** A [validateArgs] hook that never settles. *)
Definition scenario_pending
  : Heap demo_World string demo_CliArgs nat demo_Executor :=
  demo_heap (demo_options (Some (fun _ => demo_never))
                          None None None
                          (Some (demo_does "postInstall")))
            [ {| demo_stepId := 1; demo_kind := TransformStep |} ].

Lemma thrown_error_witness :
  completion (demo_run demo_args scenario_C) = Throw "boom"
  /\ exists before after c,
       is_validateArgs c = false
       /\ no_failure before
       /\ run_events demo_stepId demo_isFileTransformExecutor
                     demo_isAddDependencyExecutor demo_isNewFileExecutor
                     (this scenario_C) demo_args
          = before ++ Awaited c Fulfilled :: after
       /\ trace (demo_run demo_args scenario_C)
          = before ++ [Awaited c (Rejected "boom")].
Proof.
  split; [reflexivity |].
  apply (thrown_error_origin
           demo_stepId demo_isFileTransformExecutor
           demo_isAddDependencyExecutor demo_isNewFileExecutor
           demo_fileTransformExecutor demo_addDependencyExecutor
           demo_newFileExecutor demo_waitForConfirmation
           demo_args scenario_C).
  reflexivity.
Defined.

Lemma run_pending_witness :
  completion (demo_run demo_args scenario_pending) = Pending
  /\ errors_logged (trace (demo_run demo_args scenario_pending)) = []
  /\ calls (trace (demo_run demo_args scenario_pending)) =
       [WaitForConfirmation confirmation_prompt;
        Hook (ValidateArgs demo_args)].
Proof.
  pose proof (run_pending_iff
                demo_stepId demo_isFileTransformExecutor
                demo_isAddDependencyExecutor demo_isNewFileExecutor
                demo_fileTransformExecutor demo_addDependencyExecutor
                demo_newFileExecutor demo_waitForConfirmation
                demo_args scenario_pending) as [_ Hhook].
  exact (Hhook (fun _ => demo_never) eq_refl eq_refl eq_refl).
Defined.

Lemma calls_are_legitimate_witness :
  In (AddDependencyExecutor
        {| demo_stepId := 2; demo_kind := DependencyStep |} demo_args)
     (calls (trace (demo_run demo_args scenario_A)))
  /\ legitimate demo_stepId demo_isFileTransformExecutor
                demo_isAddDependencyExecutor demo_isNewFileExecutor
                (this scenario_A) demo_args
                (AddDependencyExecutor
                   {| demo_stepId := 2; demo_kind := DependencyStep |}
                   demo_args).
Proof.
  assert (Hin : In (AddDependencyExecutor
                      {| demo_stepId := 2; demo_kind := DependencyStep |}
                      demo_args)
                   (calls (trace (demo_run demo_args scenario_A))))
    by (cbn; repeat first [left; reflexivity | right]).
  split; [exact Hin |].
  exact (calls_are_legitimate
           demo_stepId demo_isFileTransformExecutor
           demo_isAddDependencyExecutor demo_isNewFileExecutor
           demo_fileTransformExecutor demo_addDependencyExecutor
           demo_newFileExecutor demo_waitForConfirmation
           demo_args scenario_A _ Hin).
Defined.


Lemma phases_are_gated_witness :
  In (Hook PostInstall) (calls (trace (demo_run demo_args scenario_miss)))
  /\ In (Awaited (Hook (ValidateArgs demo_args)) Fulfilled)
        (trace (demo_run demo_args scenario_miss))
  /\ In (Awaited (Hook PreInstall) Fulfilled)
        (trace (demo_run demo_args scenario_miss)).
Proof.
  assert (Hin : In (Hook PostInstall)
                   (calls (trace (demo_run demo_args scenario_miss))))
    by (cbn; repeat first [left; reflexivity | right]).
  split; [exact Hin |].
  pose proof (phases_are_gated
                demo_stepId demo_isFileTransformExecutor
                demo_isAddDependencyExecutor demo_isNewFileExecutor
                demo_fileTransformExecutor demo_addDependencyExecutor
                demo_newFileExecutor demo_waitForConfirmation
                demo_args scenario_miss (Hook PostInstall) Hin)
    as (_ & Hvalidated & Hprepared).
  split.
  - apply Hvalidated; discriminate.
  - apply Hprepared; [discriminate | now right].
Defined.


(** * A hook that writes to the array of steps

    The caller keeps the array it gave the constructor; so can the
    hooks.  Here [beforeEach] pushes a second step on it when it holds
    fewer than two : the loop, reading the array one index at a time,
    takes the pushed step in turn, and the installer's steps are not
    what they were when [run] returns. *)

Inductive demo_Fn : Type :=
| Journal (line : string)
| PushStep (extra : demo_Executor).

Definition demo_Store (Fn : Type) : Type := Store demo_World demo_Executor Fn.

Definition demo_writes (Fn : Type) (line : string)
  : Action demo_World string demo_Executor Fn :=
  fun s => (Fulfilled,
            {| steps_array := steps_array s;
               options_object := options_object s;
               outside := outside s ++ [line] |}).
Arguments demo_writes : clear implicits.

Definition demo_call (fn : demo_Fn) (arg : Argument demo_CliArgs nat)
  : Action demo_World string demo_Executor demo_Fn :=
  match fn with
  | Journal line => demo_writes demo_Fn line
  | PushStep extra => fun s =>
      (Fulfilled,
       if Nat.ltb (length (steps_array s)) 2
       then {| steps_array := steps_array s ++ [extra];
               options_object := options_object s;
               outside := outside s |}
       else s)
  end.

Definition pushing_run (fuel : nat) (cliArgs : demo_CliArgs)
  : Shared demo_World string demo_CliArgs nat demo_Executor demo_Fn unit :=
  shared_run demo_stepId demo_isFileTransformExecutor
             demo_isAddDependencyExecutor demo_isNewFileExecutor
             demo_call
             (fun _ _ => demo_writes demo_Fn "file transformed")
             (fun _ _ => demo_writes demo_Fn "dependency added")
             (fun _ _ => demo_writes demo_Fn "file created")
             (fun _ => demo_writes demo_Fn "enter pressed")
             fuel cliArgs.

Definition demo_object (Fn : Type) (validate pre before after post : option Fn)
  : OptionsObject Fn :=
  {| field_packageName := "tailwind";
     field_packageDescription := "Adds tailwind to the app";
     field_packageOwner := "blitz";
     field_packageRepoLink := "https://example.org/tailwind";
     field_validateArgs := validate;
     field_preInstall := pre;
     field_beforeEach := before;
     field_afterEach := after;
     field_postInstall := post |}.
Arguments demo_object : clear implicits.

Definition pushed_step : demo_Executor :=
  {| demo_stepId := 2; demo_kind := DependencyStep |}.

Definition pushing_store : demo_Store demo_Fn :=
  shared_constructor
    (demo_object demo_Fn None None (Some (PushStep pushed_step)) None None)
    [ {| demo_stepId := 1; demo_kind := TransformStep |} ]
    [].

(** C8, as stated, fails : the installer is built with one step, and
    after [run] it has two. *)
Lemma hook_pushes_a_step :
  steps_array pushing_store =
    [ {| demo_stepId := 1; demo_kind := TransformStep |} ]
  /\ exists s' t,
       pushing_run 3 demo_args pushing_store = Some (Normal tt, s', t)
       /\ steps_array s' =
            [ {| demo_stepId := 1; demo_kind := TransformStep |};
              pushed_step ]
       /\ steps_array s' <> steps_array pushing_store
       /\ rendered t =
            [ {| demo_stepId := 1; demo_kind := TransformStep |};
              pushed_step ]
       /\ filter is_executor (calls t) =
            [ FileTransformExecutor
                {| demo_stepId := 1; demo_kind := TransformStep |} demo_args;
              AddDependencyExecutor pushed_step demo_args ].
Proof.
  split; [reflexivity |].
  eexists. eexists.
  split; [reflexivity |].
  split; [reflexivity |].
  split; [discriminate |].
  split; reflexivity.
Qed.

(** Hooks, executors and a prompt that only write in the journal. *)
Definition quiet_run (fuel : nat) (cliArgs : demo_CliArgs)
  : Shared demo_World string demo_CliArgs nat demo_Executor string unit :=
  shared_run demo_stepId demo_isFileTransformExecutor
             demo_isAddDependencyExecutor demo_isNewFileExecutor
             (fun line _ => demo_writes string line)
             (fun _ _ => demo_writes string "file transformed")
             (fun _ _ => demo_writes string "dependency added")
             (fun _ _ => demo_writes string "file created")
             (fun _ => demo_writes string "enter pressed")
             fuel cliArgs.

Definition quiet_store : demo_Store string :=
  shared_constructor
    (demo_object string (Some "validateArgs") (Some "preInstall")
                 (Some "beforeEach") (Some "afterEach")
                 (Some "postInstall"))
    [ {| demo_stepId := 1; demo_kind := TransformStep |};
      {| demo_stepId := 2; demo_kind := DependencyStep |} ]
    [].

Lemma installer_kept_witness :
  length (steps_array quiet_store) < 3
  /\ exists r s' t,
       quiet_run 3 demo_args quiet_store = Some (r, s', t)
       /\ steps_array s' = steps_array quiet_store
       /\ options_object s' = options_object quiet_store.
Proof.
  assert (Hfuel : length (steps_array quiet_store) < 3) by (cbn; lia).
  split; [exact Hfuel |].
  assert (Hquiet : forall line,
             spares_installer (demo_writes string line))
    by (intros line s; split; reflexivity).
  pose proof (@installer_kept_by_its_own_code
                demo_World string demo_CliArgs nat demo_Executor
                demo_stepId demo_isFileTransformExecutor
                demo_isAddDependencyExecutor demo_isNewFileExecutor
                string
                (fun line _ => demo_writes string line)
                (fun _ _ => demo_writes string "file transformed")
                (fun _ _ => demo_writes string "dependency added")
                (fun _ _ => demo_writes string "file created")
                (fun _ => demo_writes string "enter pressed")
                3 demo_args 0 quiet_store
                (fun line _ => Hquiet line)
                (fun _ _ => Hquiet "file transformed")
                (fun _ _ => Hquiet "dependency added")
                (fun _ _ => Hquiet "file created")
                (fun _ => Hquiet "enter pressed")
                Hfuel)
    as (_ & Hrun & _).
  exact Hrun.
Defined.

(** The quiet installer, as the first part sees it. *)
Definition quiet_heap : Heap demo_World string demo_CliArgs nat demo_Executor :=
  demo_heap demo_all_hooks
            [ {| demo_stepId := 1; demo_kind := TransformStep |};
              {| demo_stepId := 2; demo_kind := DependencyStep |} ].

Lemma embeddings_agree_witness :
  length (steps_array quiet_store) < 3
  /\ quiet_run 3 demo_args quiet_store =
       Some (completion (demo_run demo_args quiet_heap),
             {| steps_array := steps_array quiet_store;
                options_object := options_object quiet_store;
                outside := world (final_heap (demo_run demo_args quiet_heap)) |},
             trace (demo_run demo_args quiet_heap))
  /\ completion (demo_run demo_args quiet_heap) = Normal tt
  /\ world (final_heap (demo_run demo_args quiet_heap)) =
       [ "enter pressed"; "validateArgs"; "preInstall";
         "beforeEach"; "file transformed"; "afterEach";
         "beforeEach"; "dependency added"; "afterEach";
         "postInstall" ].
Proof.
  assert (Hfuel : length (steps_array quiet_store) < 3) by (cbn; lia).
  split; [exact Hfuel |].
  assert (Hquiet : forall line,
             spares_installer (demo_writes string line))
    by (intros line s; split; reflexivity).
  split; [| split; reflexivity].
  exact (@embeddings_agree
           demo_World string demo_CliArgs nat demo_Executor
           demo_stepId demo_isFileTransformExecutor
           demo_isAddDependencyExecutor demo_isNewFileExecutor
           string
           (fun line _ => demo_writes string line)
           (fun _ _ => demo_writes string "file transformed")
           (fun _ _ => demo_writes string "dependency added")
           (fun _ _ => demo_writes string "file created")
           (fun _ => demo_writes string "enter pressed")
           3 demo_args quiet_store
           (fun line _ => Hquiet line)
           (fun _ _ => Hquiet "file transformed")
           (fun _ _ => Hquiet "dependency added")
           (fun _ _ => Hquiet "file created")
           (fun _ => Hquiet "enter pressed")
           Hfuel).
Defined.
